(** * chisel: the markup document engine

    A shallow embedding of [parsers/html/html.hpp] (entity codec, tag-tree
    serializer and strict tag-tree parser) and of
    [parsers/markdown/markdown.hpp] (block parser, inline tokenizer and the two
    serializers), with the string helpers and the front-matter reader of
    [utils/file_utils.cpp] that feed them, followed by the properties
    established about them.

    C++ [std::string] is [string] (a sequence of 8-bit [ascii]); [size_t]
    cursors are [nat]; [int] fields are [Z]; [std::map<string,string>] is an
    association list kept sorted by key, as the container iterates it;
    exceptions are an explicit error result. *)

From Stdlib Require Import Lists.List Arith.Arith Arith.PeanoNat ZArith.ZArith.
From Stdlib Require Import Bool.Bool micromega.Lia.
From Stdlib Require Import Numbers.DecimalString.
From Stdlib Require Import Strings.Ascii Strings.String.
From Stdlib Require Import Structures.OrderedTypeEx.
Import ListNotations.

Local Open Scope string_scope.
Set Warnings "-register-all".

(** ** The parts of the C and C++ standard library the engine calls *)

Module Cpp.

(** Characters that cannot be written inside a literal. *)
Definition dquote : ascii := "034"%char.
Definition tab : ascii := "009"%char.
Definition lf : ascii := "010"%char.
Definition cr : ascii := "013"%char.

Definition str (c : ascii) : string := String c EmptyString.
Definition nl : string := str lf.

(** [std::isspace] in the "C" locale: space, \t, \n, \v, \f, \r. *)
Definition isspace (c : ascii) : bool :=
  let n := nat_of_ascii c in
  (((9 <=? n) && (n <=? 13)) || (n =? 32))%nat.

Definition isdigit (c : ascii) : bool :=
  let n := nat_of_ascii c in ((48 <=? n) && (n <=? 57))%nat.

Definition isupper (c : ascii) : bool :=
  let n := nat_of_ascii c in ((65 <=? n) && (n <=? 90))%nat.

Definition islower (c : ascii) : bool :=
  let n := nat_of_ascii c in ((97 <=? n) && (n <=? 122))%nat.

Definition isalnum (c : ascii) : bool :=
  isdigit c || isupper c || islower c.

(** [std::tolower] in the "C" locale. *)
Definition tolower (c : ascii) : ascii :=
  if isupper c then ascii_of_nat (nat_of_ascii c + 32) else c.

(** [s.substr(pos, n)] for [pos <= s.size()]: at most [n] characters. *)
Definition substr (s : string) (pos n : nat) : string := substring pos n s.

(** [s.substr(pos)]. *)
Definition substr_from (s : string) (pos : nat) : string :=
  substring pos (length s - pos) s.

(** [std::string(n, c)]. *)
Fixpoint repeat_char (n : nat) (c : ascii) : string :=
  match n with
  | 0 => EmptyString
  | S n' => String c (repeat_char n' c)
  end.

(** [s.find(pat)]: index of the first occurrence, [None] for [npos]. *)
Definition find (s pat : string) : option nat := index 0 pat s.

(** [s.find(c) != npos] for a single character. *)
Fixpoint contains_char (c : ascii) (s : string) : bool :=
  match s with
  | EmptyString => false
  | String d s' => Ascii.eqb d c || contains_char c s'
  end.

Fixpoint mem_char (c : ascii) (set : string) : bool :=
  match set with
  | EmptyString => false
  | String d set' => Ascii.eqb c d || mem_char c set'
  end.

(** [s.find_first_not_of(set)]. *)
Fixpoint find_first_not_of (s set : string) : option nat :=
  match s with
  | EmptyString => None
  | String c s' =>
      if mem_char c set then option_map S (find_first_not_of s' set)
      else Some 0
  end.

(** [s.find_last_not_of(set)]. *)
Fixpoint find_last_not_of (s set : string) : option nat :=
  match s with
  | EmptyString => None
  | String c s' =>
      match find_last_not_of s' set with
      | Some i => Some (S i)
      | None => if mem_char c set then None else Some 0
      end
  end.

(** ** [std::map<std::string, std::string>]

    The container keeps its entries ordered by key ([std::less] on
    [std::string], i.e. bytewise lexicographic order) and iterates them in
    that order. *)
Module StdMap.

Definition t : Type := list (string * string).

Definition empty : t := [].

(** [m[key] = value]. *)
Fixpoint insert (key value : string) (m : t) : t :=
  match m with
  | [] => [(key, value)]
  | (k, v) :: m' =>
      match String.compare key k with
      | Lt => (key, value) :: (k, v) :: m'
      | Eq => (key, value) :: m'
      | Gt => (k, v) :: insert key value m'
      end
  end.

(** [m.find(key)], [None] standing for [m.end()]. *)
Fixpoint find (key : string) (m : t) : option string :=
  match m with
  | [] => None
  | (k, v) :: m' => if String.eqb k key then Some v else find key m'
  end.

(** [m.count(key)]. *)
Definition count (key : string) (m : t) : nat :=
  match find key m with Some _ => 1 | None => 0 end.

Definition keys (m : t) : list string := map fst m.

(** Keys strictly increasing: the container's representation invariant. *)
Fixpoint sorted (ks : list string) : Prop :=
  match ks with
  | [] => True
  | k :: ks' =>
      match ks' with
      | [] => True
      | k' :: _ => String.ltb k k' = true
      end /\ sorted ks'
  end.

End StdMap.

(** What a call can end in. [OutOfFuel] is an artefact of the embedding
    (recursion is bounded by a counter) and never a behaviour of the
    program; the adequacy lemmas show it does not arise when the counter
    starts at the size of the input. *)
Inductive exn : Type :=
| invalid_argument (what : string)
| out_of_range
| length_error.

Inductive result (A : Type) : Type :=
| Ok (a : A)
| Throw (e : exn)
| OutOfFuel.
Arguments Ok {A} a.
Arguments Throw {A} e.
Arguments OutOfFuel {A}.

Definition bind {A B : Type} (r : result A) (k : A -> result B) : result B :=
  match r with
  | Ok a => k a
  | Throw e => Throw e
  | OutOfFuel => OutOfFuel
  end.

(** [m.at(key)] on a const map: throws [std::out_of_range] when absent. *)
Definition map_at (key : string) (m : StdMap.t) : result string :=
  match StdMap.find key m with
  | Some v => Ok v
  | None => Throw out_of_range
  end.

End Cpp.

Notation "x <- r ;; k" := (Cpp.bind r (fun x => k))
  (at level 61, r at next level, right associativity).
Notation "' p <- r ;; k" := (Cpp.bind r (fun p => k))
  (at level 61, p pattern, r at next level, right associativity).

(** ** [namespace html] *)

Module html.
Import Cpp.

Inductive Node : Type :=
  mkNode {
    tag : string;
    text : string;
    attributes : StdMap.t;
    children : list Node
  }.

(** [Node()] *)
Definition Node_default : Node := mkNode "" "" StdMap.empty [].

Definition set_tag (n : Node) (t : string) : Node :=
  mkNode t (text n) (attributes n) (children n).
Definition set_text (n : Node) (t : string) : Node :=
  mkNode (tag n) t (attributes n) (children n).
Definition set_attribute (n : Node) (k v : string) : Node :=
  mkNode (tag n) (text n) (StdMap.insert k v (attributes n)) (children n).
Definition push_child (n : Node) (c : Node) : Node :=
  mkNode (tag n) (text n) (attributes n) (children n ++ [c])%list.

(** The [switch] of [escape_html] on one character. *)
Definition escape_char (c : ascii) : string :=
  if Ascii.eqb c "&" then "&amp;"
  else if Ascii.eqb c "<" then "&lt;"
  else if Ascii.eqb c ">" then "&gt;"
  else if Ascii.eqb c dquote then "&quot;"
  else if Ascii.eqb c "'" then "&#39;"
  else str c.

(** [for(char c : input) switch(c) ...] *)
Fixpoint escape_html (input : string) : string :=
  match input with
  | EmptyString => EmptyString
  | String c rest => escape_char c ++ escape_html rest
  end.

(** The [for] loop of [unescape_html]: [i] is the loop index, [result] the
    string built so far.  Every iteration increases [i], so [fuel] equal to
    the input size never runs out before [i] reaches the end. *)
Fixpoint unescape_loop (fuel : nat) (input : string) (i : nat)
    (result : string) : string :=
  match fuel with
  | 0 => result
  | S fuel' =>
      match get i input with
      | None => result
      | Some c =>
          if Ascii.eqb c "&" then
            if substr input i 5 =? "&amp;" then
              unescape_loop fuel' input (i + 4 + 1) (result ++ "&")
            else if substr input i 4 =? "&lt;" then
              unescape_loop fuel' input (i + 3 + 1) (result ++ "<")
            else if substr input i 4 =? "&gt;" then
              unescape_loop fuel' input (i + 3 + 1) (result ++ ">")
            else if substr input i 6 =? "&quot;" then
              unescape_loop fuel' input (i + 5 + 1) (result ++ str dquote)
            else if substr input i 5 =? "&#39;" then
              unescape_loop fuel' input (i + 4 + 1) (result ++ "'")
            else
              unescape_loop fuel' input (i + 1) (result ++ str c)
          else
            unescape_loop fuel' input (i + 1) (result ++ str c)
      end
  end.

Definition unescape_html (input : string) : string :=
  unescape_loop (length input) input 0 "".

(** *** [class Serializer] *)
Module Serializer.

(** The two [static const std::set<std::string>] of [serialize];
    [count] on them is membership. *)
Definition self_closing_tags : list string := ["img"; "hr"; "br"].
Definition inline_tags : list string := ["strong"; "em"; "a"; "code"; "span"].

Definition set_count (set : list string) (key : string) : bool :=
  existsb (String.eqb key) set.

(** The loop over [node.attributes]: for each entry a space, the key, an
    equals sign and the escaped value between double quotes. *)
Fixpoint serialize_attributes (m : StdMap.t) : string :=
  match m with
  | [] => ""
  | (key, value) :: m' =>
      " " ++ key ++ "=" ++ str dquote ++ escape_html value ++ str dquote
      ++ serialize_attributes m'
  end.

(** The condition under which the text of a node is written as it is:
    [node.tag == "code" && class_attr != end && !class_attr->second.empty()
     && class_attr->second.find("language-") == 0]. *)
Definition emits_raw_text (tag : string) (attrs : StdMap.t) : bool :=
  match StdMap.find "class" attrs with
  | Some cls =>
      (tag =? "code") && negb (cls =? "")
      && match Cpp.find cls "language-" with
         | Some 0 => true
         | _ => false
         end
  | None => false
  end.

(** [serialize(node, indent_level)]; the output stream is the string
    written so far.  [indent_level] is never negative: it starts at the
    default [0] and only grows. *)
Fixpoint serialize (node : Node) (indent_level : nat) {struct node} : string :=
  match node with
  | mkNode tag text attributes children =>
      let indent := repeat_char (indent_level * 2) " " in
      if negb (tag =? "") then
        let opening :=
          indent ++ "<" ++ tag ++ serialize_attributes attributes in
        if set_count self_closing_tags tag then
          opening ++ " />"
        else
          let body_text :=
            if negb (text =? "") then
              if emits_raw_text tag attributes then text
              else escape_html text
            else "" in
          let is_inline := set_count inline_tags tag in
          let body_children :=
            (fix each (cs : list Node) : string :=
               match cs with
               | [] => ""
               | child :: cs' =>
                   (if negb is_inline then nl else "")
                   ++ serialize child
                        (if is_inline then 0 else indent_level + 1)
                   ++ each cs'
               end) children in
          let closing_indent :=
            match children with
            | [] => ""
            | _ :: _ => if negb is_inline then nl ++ indent else ""
            end in
          opening ++ ">" ++ body_text ++ body_children
          ++ closing_indent ++ "</" ++ tag ++ ">"
      else if negb (text =? "") then
        indent ++ escape_html text
      else ""
  end.

End Serializer.

(** *** [class Deserializer] *)
Module Deserializer.

(** [pos < html.length() && p(html[pos])] *)
Definition at_pos (html : string) (pos : nat) (p : ascii -> bool) : bool :=
  match get pos html with
  | Some c => p c
  | None => false
  end.

Definition is_char (c : ascii) : ascii -> bool := fun d => Ascii.eqb d c.

(** [while(pos < html.length() && p(html[pos])) acc += f(html[pos++]);]
    Each iteration advances [pos], so with [fuel = html.length() - pos]
    the counter reaches [0] exactly when [pos] reaches the end. *)
Fixpoint collect_while (fuel : nat) (p : ascii -> bool) (f : ascii -> ascii)
    (html : string) (pos : nat) (acc : string) : string * nat :=
  match fuel with
  | 0 => (acc, pos)
  | S fuel' =>
      match get pos html with
      | Some c =>
          if p c then collect_while fuel' p f html (pos + 1) (acc ++ str (f c))
          else (acc, pos)
      | None => (acc, pos)
      end
  end.

Definition collect (p : ascii -> bool) (f : ascii -> ascii)
    (html : string) (pos : nat) : string * nat :=
  collect_while (length html - pos) p f html pos "".

Definition skip_whitespace (html : string) (pos : nat) : nat :=
  snd (collect isspace (fun c => c) html pos).

Definition tag_char (c : ascii) : bool :=
  negb (Ascii.eqb c " ") && negb (Ascii.eqb c ">") && negb (Ascii.eqb c "/").

Definition key_char (c : ascii) : bool :=
  negb (Ascii.eqb c "=") && negb (Ascii.eqb c ">") && negb (Ascii.eqb c "/")
  && negb (isspace c).

(** The value of an attribute: after [=] and white space, either the
    characters between double quotes (the closing quote is consumed when
    there is one) or the characters up to a space, [>] or [/]; no value
    without [=]. *)
Definition parse_attribute_value (html : string) (pos : nat)
    : string * nat :=
  if at_pos html pos (is_char "=") then
    let pos := pos + 1 in
    let pos := skip_whitespace html pos in
    if at_pos html pos (is_char dquote) then
      let pos := pos + 1 in
      let '(value, pos) :=
        collect (fun c => negb (Ascii.eqb c dquote)) (fun c => c) html pos in
      (value, if Nat.ltb pos (length html) then pos + 1 else pos)
    else
      collect tag_char (fun c => c) html pos
  else ("", pos).

(** One round of the attribute loop: a key, its value, then the white
    space after it. *)
Definition parse_attribute (html : string) (pos : nat) (node : Node)
    : Node * nat :=
  let '(key, pos) := collect key_char tolower html pos in
  let pos := skip_whitespace html pos in
  let '(value, pos) := parse_attribute_value html pos in
  let node := if negb (key =? "") then set_attribute node key value else node in
  (node, skip_whitespace html pos).

(** [while(pos < html.length() && html[pos] != '>' && html[pos] != '/')] *)
Fixpoint parse_attributes (fuel : nat) (html : string) (pos : nat)
    (node : Node) : result (Node * nat) :=
  if at_pos html pos
       (fun c => negb (Ascii.eqb c ">") && negb (Ascii.eqb c "/")) then
    match fuel with
    | 0 => OutOfFuel
    | S fuel' =>
        let '(node, pos) := parse_attribute html pos node in
        parse_attributes fuel' html pos node
    end
  else Ok (node, pos).

(** The trimming applied to the last text chunk of a body. *)
Definition trim_chars : string := String " " (String tab (String lf (str cr))).

Definition trim (text : string) : string :=
  match find_first_not_of text trim_chars with
  | Some start =>
      match find_last_not_of text trim_chars with
      | Some e => substr text start (e - start + 1)
      | None => ""
      end
  | None => ""
  end.

(** How the first part of [parse_node], up to the end of the opening tag,
    can leave the cursor. *)
Inductive opening : Type :=
| NoElement (pos : nat)                  (* the two early [return node;] *)
| SelfClosed (node : Node) (pos : nat)   (* [/] or [/>]: [return node;] *)
| Opened (node : Node) (tag : string) (pos : nat). (* [>] consumed *)

(** [parse_node] from its entry to the point where the opening tag has
    been read (source lines 152-228). *)
Definition parse_opening (html : string) (pos : nat) : result opening :=
  let node := Node_default in
  let pos := skip_whitespace html pos in
  if negb (at_pos html pos (is_char "<")) then Ok (NoElement pos) else
  let pos := pos + 1 in
  if Nat.leb (length html) pos then
    Throw (invalid_argument "Invalid HTML: Unexpected end of input")
  else
  if at_pos html pos (is_char "/") then Ok (NoElement pos) else
  let '(tag, pos) := collect tag_char tolower html pos in
  if tag =? "" then
    Throw (invalid_argument "Invalid HTML: Empty tag name")
  else
  let node := set_tag node tag in
  let pos := skip_whitespace html pos in
  '(node, pos) <- parse_attributes (length html - pos) html pos node ;;
  if at_pos html pos (is_char "/") then
    let pos := pos + 1 in
    let pos := if at_pos html pos (is_char ">") then pos + 1 else pos in
    Ok (SelfClosed node pos)
  else
  if at_pos html pos (is_char ">") then
    Ok (Opened node tag (pos + 1))
  else
    Throw (invalid_argument "Invalid HTML: Expected '>' after tag").

(** The end of [parse_node], after the body loop (source lines 250-280):
    the last text chunk is trimmed and stored, then the closing tag is
    required. *)
Definition parse_closing (html : string) (tag : string) (node : Node)
    (text : string) (pos : nat) : result (Node * nat) :=
  let node :=
    if negb (text =? "") then set_text node (unescape_html (trim text))
    else node in
  if at_pos html pos (is_char "<") && at_pos html (pos + 1) (is_char "/")
  then
    let pos := pos + 2 in
    let '(end_tag, pos) :=
      collect (fun c => negb (Ascii.eqb c ">")) tolower html pos in
    if negb (end_tag =? tag) then
      Throw (invalid_argument "Invalid HTML: Mismatched closing tag")
    else if Nat.ltb pos (length html) then Ok (node, pos + 1)
    else Throw (invalid_argument "Invalid HTML: Unclosed tag")
  else
    Throw (invalid_argument
             ("Invalid HTML: Missing closing tag for " ++ tag)).

(** [parse_node], with the [while] loop over the element body (source
    lines 231-248) as [parse_body].  [fuel] bounds the depth of the
    calls. *)
Fixpoint parse_node (fuel : nat) (html : string) (pos : nat)
    : result (Node * nat) :=
  match fuel with
  | 0 => OutOfFuel
  | S fuel' =>
      o <- parse_opening html pos ;;
      match o with
      | NoElement pos => Ok (Node_default, pos)
      | SelfClosed node pos => Ok (node, pos)
      | Opened node tag pos =>
          '(node, text, pos) <- parse_body fuel' html pos "" node ;;
          parse_closing html tag node text pos
      end
  end

with parse_body (fuel : nat) (html : string) (pos : nat) (text : string)
    (node : Node) : result (Node * string * nat) :=
  match fuel with
  | 0 => OutOfFuel
  | S fuel' =>
      match get pos html with
      | None => Ok (node, text, pos)
      | Some c =>
          if Ascii.eqb c "<" then
            if at_pos html (pos + 1) (is_char "/") then
              Ok (node, text, pos)
            else
              let '(node, text) :=
                if negb (text =? "") then
                  (set_text node (unescape_html text), "")
                else (node, text) in
              '(child, pos) <- parse_node fuel' html pos ;;
              let node :=
                if negb (tag child =? "") then push_child node child
                else node in
              parse_body fuel' html pos text node
          else
            parse_body fuel' html (pos + 1) (text ++ str c) node
      end
  end.

(** [deserialize(html)]: the depth bound is the size of the input. *)
Definition deserialize (html : string) : result Node :=
  '(result, _) <- parse_node (S (length html)) html 0 ;;
  if tag result =? "" then
    Throw (invalid_argument "Invalid HTML: No root element found")
  else Ok result.

End Deserializer.

End html.

(** ** [std::regex] (ECMAScript grammar) as far as the engine's patterns use it

    Every pattern in [markdown.hpp] is a sequence of anchors, single
    characters or character classes, quantified characters or classes, and
    capture groups around such sequences; none has an alternation, a
    quantified group or a back-reference.  A pattern is therefore a list of
    items, and matching is the backtracking search of the ECMAScript
    semantics: leftmost start, a greedy quantifier tries the longest run
    first and a lazy one the shortest. *)

Module Regex.
Import Cpp.

Inductive item : Type :=
| Bol                                   (* ^ *)
| Eol                                   (* $ *)
| One (p : ascii -> bool)               (* a character or a class *)
| Rep (p : ascii -> bool) (min : nat) (max : option nat) (greedy : bool)
| GroupOpen (n : nat)                   (* ( of group n *)
| GroupClose (n : nat).                 (* ) of group n *)

Definition regex : Type := list item.

(** Character classes. *)
Definition chr (c : ascii) : ascii -> bool := fun d => Ascii.eqb d c.
Definition any_of (set : string) : ascii -> bool := fun d => mem_char d set.
Definition none_of (set : string) : ascii -> bool :=
  fun d => negb (mem_char d set).
(** [.] matches anything but a line terminator. *)
Definition dot : ascii -> bool :=
  fun d => negb (Ascii.eqb d lf) && negb (Ascii.eqb d cr).
Definition space : ascii -> bool := isspace.                       (* \s *)
Definition digit : ascii -> bool := isdigit.                       (* \d *)
Definition word : ascii -> bool := fun d => isalnum d || Ascii.eqb d "_". (* \w *)

(** Quantifiers. *)
Definition star (p : ascii -> bool) : item := Rep p 0 None true.   (* p*  *)
Definition plus (p : ascii -> bool) : item := Rep p 1 None true.   (* p+  *)
Definition lazy_star (p : ascii -> bool) : item := Rep p 0 None false. (* p*? *)
Definition at_least (n : nat) (p : ascii -> bool) : item := Rep p n None true.
Definition between (n m : nat) (p : ascii -> bool) : item := Rep p n (Some m) true.

(** Where each capture group began and ended, most recent first. *)
Record captures : Type :=
  mkCaptures { starts : list (nat * nat); ends : list (nat * nat) }.

Definition no_captures : captures := mkCaptures [] [].

Fixpoint lookup (n : nat) (l : list (nat * nat)) : option nat :=
  match l with
  | [] => None
  | (k, v) :: l' => if Nat.eqb k n then Some v else lookup n l'
  end.

Definition below (max : option nat) (count : nat) : bool :=
  match max with
  | None => true
  | Some m => Nat.ltb count m
  end.

(** [run re full rest pos caps]: match [re] against [rest], the subject
    from index [pos] on; when [full], only a match reaching the end of the
    subject is accepted.  Returns the end index and the captures of the
    first match in backtracking order. *)
Fixpoint run (re : regex) (full : bool) (rest : string) (pos : nat)
    (caps : captures) {struct re} : option (nat * captures) :=
  match re with
  | [] =>
      if full then
        match rest with
        | EmptyString => Some (pos, caps)
        | String _ _ => None
        end
      else Some (pos, caps)
  | Bol :: re' =>
      if Nat.eqb pos 0 then run re' full rest pos caps else None
  | Eol :: re' =>
      match rest with
      | EmptyString => run re' full rest pos caps
      | String _ _ => None
      end
  | One p :: re' =>
      match rest with
      | String c rest' => if p c then run re' full rest' (S pos) caps else None
      | EmptyString => None
      end
  | Rep p min max greedy :: re' =>
      (fix rep (rest : string) (pos count : nat) {struct rest}
         : option (nat * captures) :=
         if greedy then
           match
             match rest with
             | String c rest' =>
                 if p c && below max count
                 then rep rest' (S pos) (S count) else None
             | EmptyString => None
             end
           with
           | Some r => Some r
           | None =>
               if Nat.leb min count then run re' full rest pos caps else None
           end
         else
           match
             if Nat.leb min count then run re' full rest pos caps else None
           with
           | Some r => Some r
           | None =>
               match rest with
               | String c rest' =>
                   if p c && below max count
                   then rep rest' (S pos) (S count) else None
               | EmptyString => None
               end
           end) rest pos 0
  | GroupOpen n :: re' =>
      run re' full rest pos (mkCaptures ((n, pos) :: starts caps) (ends caps))
  | GroupClose n :: re' =>
      run re' full rest pos (mkCaptures (starts caps) ((n, pos) :: ends caps))
  end.

(** [std::smatch] after a successful match on [subject]. *)
Record smatch : Type :=
  mkMatch { subject : string; first : nat; last : nat; groups : captures }.

(** [m.prefix().length()], [m.length()], [m.str()], [m[n].str()] *)
Definition prefix_length (m : smatch) : nat := first m.
Definition match_length (m : smatch) : nat := last m - first m.
Definition match_str (m : smatch) : string :=
  substr (subject m) (first m) (last m - first m).
Definition sub (m : smatch) (n : nat) : string :=
  match lookup n (starts (groups m)), lookup n (ends (groups m)) with
  | Some b, Some e => substr (subject m) b (e - b)
  | _, _ => ""
  end.

(** [std::regex_match(s, m, re)] *)
Definition regex_match (s : string) (re : regex) : option smatch :=
  match run re true s 0 no_captures with
  | Some (e, caps) => Some (mkMatch s 0 e caps)
  | None => None
  end.

Definition matches (s : string) (re : regex) : bool :=
  match regex_match s re with Some _ => true | None => false end.

(** [std::regex_search]: the match is tried at each start index in turn,
    [from] being the index of [rest] in [s]. *)
Fixpoint search_from (s : string) (re : regex) (rest : string) (from : nat)
    : option smatch :=
  match run re false rest from no_captures with
  | Some (e, caps) => Some (mkMatch s from e caps)
  | None =>
      match rest with
      | EmptyString => None
      | String _ rest' => search_from s re rest' (S from)
      end
  end.

Definition regex_search (s : string) (re : regex) : option smatch :=
  search_from s re s 0.

(** [std::sregex_iterator] over [s]: the successive matches, each search
    starting where the previous match ended.  [fuel] bounds the number of
    matches; every match of the one pattern iterated in this program
    consumes at least its leading bar, so the iterator's rule for empty
    matches never applies. *)
Fixpoint iterate (fuel : nat) (s : string) (re : regex) (from : nat)
    : list smatch :=
  match fuel with
  | 0 => []
  | S fuel' =>
      match search_from s re (substr_from s from) from with
      | Some m =>
          if Nat.ltb from (last m) then m :: iterate fuel' s re (last m)
          else [m]
      | None => []
      end
  end.

Definition sregex_iterator (s : string) (re : regex) : list smatch :=
  iterate (S (length s)) s re 0.

End Regex.

(** ** [namespace markdown] *)

Module markdown.
Import Cpp Regex.

Inductive NodeType : Type :=
| Document | Heading | Paragraph | CodeBlock | InlineCode | Bold | Italic
| Link | Image | List | ListItem | Quote | Table | TableRow | TableCell
| Text | LineBreak | HorizontalRule.

Definition NodeType_eqb (a b : NodeType) : bool :=
  match a, b with
  | Document, Document | Heading, Heading | Paragraph, Paragraph
  | CodeBlock, CodeBlock | InlineCode, InlineCode | Bold, Bold
  | Italic, Italic | Link, Link | Image, Image | List, List
  | ListItem, ListItem | Quote, Quote | Table, Table | TableRow, TableRow
  | TableCell, TableCell | Text, Text | LineBreak, LineBreak
  | HorizontalRule, HorizontalRule => true
  | _, _ => false
  end.

Inductive Node : Type :=
  mkNode {
    type : NodeType;
    text : string;
    attributes : StdMap.t;
    children : list Node;
    level : Z
  }.

(** [Node(t)], [Node(t, txt)], [Node(t, txt, lvl)] *)
Definition Node_of (t : NodeType) : Node := mkNode t "" StdMap.empty [] 0%Z.
Definition Node_text (t : NodeType) (txt : string) : Node :=
  mkNode t txt StdMap.empty [] 0%Z.
Definition Node_level (t : NodeType) (txt : string) (lvl : Z) : Node :=
  mkNode t txt StdMap.empty [] lvl.

Definition set_attribute (n : Node) (k v : string) : Node :=
  mkNode (type n) (text n) (StdMap.insert k v (attributes n)) (children n)
    (level n).
Definition push_child (n : Node) (c : Node) : Node :=
  mkNode (type n) (text n) (attributes n) (children n ++ [c])%list (level n).

(** [std::to_string(int)] *)
Definition to_string (z : Z) : string :=
  NilZero.string_of_int (Z.to_int z).

(** *** [class Serializer] *)
Module Serializer.

Definition text_node (txt : string) : html.Node :=
  html.mkNode "" txt StdMap.empty [].

Definition class_of (cls : string) : StdMap.t :=
  StdMap.insert "class" cls StdMap.empty.

(** The converted children, followed by a bare text node when the
    markdown node has text of its own. *)
Definition with_text (kids : list html.Node) (txt : string)
    : list html.Node :=
  if negb (txt =? "") then (kids ++ [text_node txt])%list else kids.

Fixpoint convert_to_html_node (md_node : Node) : result html.Node :=
  match md_node with
  | mkNode type text attributes children level =>
      let converted :=
        (fix each (cs : list Node) : result (list html.Node) :=
           match cs with
           | [] => Ok []
           | child :: cs' =>
               h <- convert_to_html_node child ;;
               hs <- each cs' ;;
               Ok (h :: hs)
           end) children in
      match type with
      | Document =>
          kids <- converted ;;
          Ok (html.mkNode "div" "" StdMap.empty kids)
      | Heading =>
          Ok (html.mkNode ("h" ++ to_string level) text
                (class_of "heading-primary") [])
      | Paragraph =>
          kids <- converted ;;
          Ok (html.mkNode "p" "" (class_of "paragraph") (with_text kids text))
      | CodeBlock =>
          code_attrs <-
            (if Nat.ltb 0 (StdMap.count "language" attributes) then
               language <- map_at "language" attributes ;;
               Ok (class_of ("language-" ++ language))
             else Ok StdMap.empty) ;;
          Ok (html.mkNode "pre" "" (class_of "code-block")
                [html.mkNode "code" text code_attrs []])
      | InlineCode =>
          Ok (html.mkNode "code" text (class_of "inline-code") [])
      | Bold =>
          kids <- converted ;;
          Ok (html.mkNode "strong" "" (class_of "bold") (with_text kids text))
      | Italic =>
          kids <- converted ;;
          Ok (html.mkNode "em" "" (class_of "italic") (with_text kids text))
      | Link =>
          href <- map_at "href" attributes ;;
          Ok (html.mkNode "a" text
                (StdMap.insert "class" "link"
                   (StdMap.insert "href" href StdMap.empty)) [])
      | Image =>
          src <- map_at "src" attributes ;;
          alt <- map_at "alt" attributes ;;
          Ok (html.mkNode "img" ""
                (StdMap.insert "class" "image"
                   (StdMap.insert "alt" alt
                      (StdMap.insert "src" src StdMap.empty))) [])
      | List =>
          kids <- converted ;;
          Ok (html.mkNode "ul" "" (class_of "list") kids)
      | ListItem =>
          kids <- converted ;;
          Ok (html.mkNode "li" "" (class_of "list-item") (with_text kids text))
      | Quote =>
          kids <- converted ;;
          Ok (html.mkNode "blockquote" "" (class_of "quote")
                (with_text kids text))
      | Table =>
          kids <- converted ;;
          Ok (html.mkNode "table" "" (class_of "table") kids)
      | TableRow =>
          kids <- converted ;;
          Ok (html.mkNode "tr" "" (class_of "table-row") kids)
      | TableCell =>
          kids <- converted ;;
          Ok (html.mkNode "td" "" (class_of "table-cell")
                (with_text kids text))
      | Text => Ok (text_node text)
      | LineBreak => Ok (html.mkNode "br" "" (class_of "line-break") [])
      | HorizontalRule =>
          Ok (html.mkNode "hr" "" (class_of "horizontal-rule") [])
      end
  end.

(** The children of [Document] after which a blank line is written. *)
Definition is_block (t : NodeType) : bool :=
  match t with
  | Paragraph | Heading | CodeBlock | List | Quote | Table
  | HorizontalRule => true
  | _ => false
  end.

(** [serialize_markdown_node(oss, node, depth)]: the result is what the
    call appends to [oss]. *)
Fixpoint serialize_markdown_node (node : Node) (depth : nat)
    : result string :=
  match node with
  | mkNode type text attributes children level =>
      let each_child (d : nat) : result string :=
        (fix each (cs : list Node) : result string :=
           match cs with
           | [] => Ok ""
           | child :: cs' =>
               s <- serialize_markdown_node child d ;;
               r <- each cs' ;;
               Ok (s ++ r)
           end) children in
      match type with
      | Document =>
          (fix each (cs : list Node) : result string :=
             match cs with
             | [] => Ok ""
             | child :: cs' =>
                 s <- serialize_markdown_node child depth ;;
                 r <- each cs' ;;
                 Ok (s ++ (if is_block (markdown.type child) then nl else "")
                       ++ r)
             end) children
      | Heading =>
          if (level <? 0)%Z then Throw length_error
          else Ok (repeat_char (Z.to_nat level) "#" ++ " " ++ text ++ nl)
      | Paragraph =>
          s <- each_child depth ;;
          Ok (s ++ text ++ nl)
      | CodeBlock =>
          language <-
            (if Nat.ltb 0 (StdMap.count "language" attributes)
             then map_at "language" attributes else Ok "") ;;
          Ok ("```" ++ language ++ nl ++ text ++ nl ++ "```" ++ nl)
      | InlineCode => Ok ("`" ++ text ++ "`")
      | Bold =>
          s <- each_child depth ;;
          Ok ("**" ++ s ++ text ++ "**")
      | Italic =>
          s <- each_child depth ;;
          Ok ("*" ++ s ++ text ++ "*")
      | Link =>
          href <- map_at "href" attributes ;;
          Ok ("[" ++ text ++ "](" ++ href ++ ")")
      | Image =>
          alt <- map_at "alt" attributes ;;
          src <- map_at "src" attributes ;;
          Ok ("![" ++ alt ++ "](" ++ src ++ ")")
      | List => each_child depth
      | ListItem =>
          is_ordered <-
            (if Nat.ltb 0 (StdMap.count "ordered" attributes) then
               v <- map_at "ordered" attributes ;; Ok (v =? "true")
             else Ok false) ;;
          let prefix := if is_ordered : bool then "1. " else "- " in
          s <- each_child (depth + 1) ;;
          Ok (repeat_char (depth * 2) " " ++ prefix ++ s ++ text ++ nl)
      | Quote =>
          s <- each_child depth ;;
          Ok ("> " ++ s ++ text ++ nl)
      | Table =>
          let separator :=
            match children with
            | [] => ""
            | first_row :: _ =>
                "|" ++ String.concat ""
                         (map (fun _ => " --- |") (markdown.children first_row))
                ++ nl
            end in
          match children with
          | [] => Ok ""
          | first_row :: rows =>
              s <- serialize_markdown_node first_row depth ;;
              r <- (fix each (cs : list Node) : result string :=
                      match cs with
                      | [] => Ok ""
                      | child :: cs' =>
                          s <- serialize_markdown_node child depth ;;
                          r <- each cs' ;;
                          Ok (s ++ r)
                      end) rows ;;
              Ok (s ++ separator ++ r)
          end
      | TableRow =>
          s <- (fix each (cs : list Node) : result string :=
                  match cs with
                  | [] => Ok ""
                  | child :: cs' =>
                      s <- serialize_markdown_node child depth ;;
                      r <- each cs' ;;
                      Ok (" " ++ s ++ " |" ++ r)
                  end) children ;;
          Ok ("|" ++ s ++ nl)
      | TableCell =>
          s <- each_child depth ;;
          Ok (text ++ s)
      | Text => Ok text
      | LineBreak => Ok ("  " ++ nl)
      | HorizontalRule => Ok ("---" ++ nl)
      end
  end.

(** [Serializer::markdown(node)] *)
Definition markdown (node : Node) : result string :=
  serialize_markdown_node node 0.

(** [Serializer::html(node)] *)
Definition html (node : Node) : result string :=
  html_root <- convert_to_html_node node ;;
  Ok (html.Serializer.serialize html_root 0).

End Serializer.

(** *** [class Deserializer] *)
Module Deserializer.

(** The patterns, in the order the source writes them (quoted with a
    space between a star and a closing parenthesis). *)

(** [^\s*[-*_]{3,}\s*$] *)
Definition hr_regex : regex :=
  [Bol; star space; at_least 3 (any_of "-*_"); star space; Eol].

(** [^(#{1,6})\s+(.+)$] *)
Definition heading_regex : regex :=
  [Bol; GroupOpen 1; between 1 6 (chr "#"); GroupClose 1; plus space;
   GroupOpen 2; plus dot; GroupClose 2; Eol].

(** [^```(\w* )\s*$] *)
Definition fence_open_regex : regex :=
  [Bol; One (chr "`"); One (chr "`"); One (chr "`");
   GroupOpen 1; star word; GroupClose 1; star space; Eol].

(** [^```\s*$] *)
Definition fence_close_regex : regex :=
  [Bol; One (chr "`"); One (chr "`"); One (chr "`"); star space; Eol].

(** [^\s*>\s*(.* )$] *)
Definition quote_regex : regex :=
  [Bol; star space; One (chr ">"); star space;
   GroupOpen 1; star dot; GroupClose 1; Eol].

(** [^(\s* )[-*+]\s+(.+)$] *)
Definition unordered_regex : regex :=
  [Bol; GroupOpen 1; star space; GroupClose 1; One (any_of "-*+");
   plus space; GroupOpen 2; plus dot; GroupClose 2; Eol].

(** [^(\s* )\d+\.\s+(.+)$] *)
Definition ordered_regex : regex :=
  [Bol; GroupOpen 1; star space; GroupClose 1; plus digit; One (chr ".");
   plus space; GroupOpen 2; plus dot; GroupClose 2; Eol].

(** [^\s*\|[\s\-\|]*\|\s*$] *)
Definition table_separator_regex : regex :=
  [Bol; star space; One (chr "|");
   star (fun c => space c || any_of "-|" c); One (chr "|");
   star space; Eol].

(** [\|([^|]* )] *)
Definition cell_regex : regex :=
  [One (chr "|"); GroupOpen 1; star (none_of "|"); GroupClose 1].

(** [^#{1,6}\s+], the pattern of the paragraph loop *)
Definition heading_prefix_regex : regex :=
  [Bol; between 1 6 (chr "#"); plus space].

(** [\*\*(.*?)\*\*] *)
Definition bold_regex : regex :=
  [One (chr "*"); One (chr "*"); GroupOpen 1; lazy_star dot; GroupClose 1;
   One (chr "*"); One (chr "*")].

(** [\*(.*?)\*] *)
Definition italic_regex : regex :=
  [One (chr "*"); GroupOpen 1; lazy_star dot; GroupClose 1; One (chr "*")].

(** [`([^`]+)`] *)
Definition code_regex : regex :=
  [One (chr "`"); GroupOpen 1; plus (none_of "`"); GroupClose 1;
   One (chr "`")].

(** [\[([^\]]+)\]\(([^)]+)\)] *)
Definition link_regex : regex :=
  [One (chr "["); GroupOpen 1; plus (none_of "]"); GroupClose 1;
   One (chr "]"); One (chr "(");
   GroupOpen 2; plus (none_of ")"); GroupClose 2; One (chr ")")].

(** [!\[([^\]]* )\]\(([^)]+)\)] *)
Definition img_regex : regex :=
  [One (chr "!"); One (chr "["); GroupOpen 1; star (none_of "]");
   GroupClose 1; One (chr "]"); One (chr "(");
   GroupOpen 2; plus (none_of ")"); GroupClose 2; One (chr ")")].

(** The text between the cursor and the start of a match, pushed as a
    [Text] child:
    [if(match_pos > pos) { before = remaining.substr(pos, match_pos - pos);
       if(!before.empty()) parent.children.emplace_back(Text, before); }] *)
Definition flush_before (remaining : string) (pos match_pos : nat)
    (parent : Node) : Node :=
  if Nat.ltb pos match_pos then
    let before := substr remaining pos (match_pos - pos) in
    if negb (before =? "") then push_child parent (Node_text Text before)
    else parent
  else parent.

(** The [while(pos < remaining.length())] loop of [parse_inline].  Every
    pattern matches at least two characters, so [pos] grows in every
    round and [fuel = remaining.length()] rounds are enough. *)
Fixpoint parse_inline_loop (fuel : nat) (remaining : string) (pos : nat)
    (parent : Node) : Node :=
  match fuel with
  | 0 => parent
  | S fuel' =>
      if Nat.ltb pos (length remaining) then
        let tail := substr_from remaining pos in
        match regex_search tail bold_regex with
        | Some bold_match =>
            let match_pos := pos + prefix_length bold_match in
            let parent := flush_before remaining pos match_pos parent in
            let parent :=
              push_child parent (Node_text Bold (sub bold_match 1)) in
            parse_inline_loop fuel' remaining
              (match_pos + match_length bold_match) parent
        | None =>
        match regex_search tail italic_regex with
        | Some italic_match =>
            let match_pos := pos + prefix_length italic_match in
            let parent := flush_before remaining pos match_pos parent in
            let parent :=
              push_child parent (Node_text Italic (sub italic_match 1)) in
            parse_inline_loop fuel' remaining
              (match_pos + match_length italic_match) parent
        | None =>
        match regex_search tail code_regex with
        | Some code_match =>
            let match_pos := pos + prefix_length code_match in
            let parent := flush_before remaining pos match_pos parent in
            let parent :=
              push_child parent (Node_text InlineCode (sub code_match 1)) in
            parse_inline_loop fuel' remaining
              (match_pos + match_length code_match) parent
        | None =>
        match regex_search tail link_regex with
        | Some link_match =>
            let match_pos := pos + prefix_length link_match in
            let parent := flush_before remaining pos match_pos parent in
            let link_node := Node_text Link (sub link_match 1) in
            let link_node :=
              set_attribute link_node "href" (sub link_match 2) in
            let parent := push_child parent link_node in
            parse_inline_loop fuel' remaining
              (match_pos + match_length link_match) parent
        | None =>
        match regex_search tail img_regex with
        | Some img_match =>
            let match_pos := pos + prefix_length img_match in
            let parent := flush_before remaining pos match_pos parent in
            let img_node := Node_of Image in
            let img_node := set_attribute img_node "alt" (sub img_match 1) in
            let img_node := set_attribute img_node "src" (sub img_match 2) in
            let parent := push_child parent img_node in
            parse_inline_loop fuel' remaining
              (match_pos + match_length img_match) parent
        | None =>
            let rest := substr_from remaining pos in
            if negb (rest =? "") then push_child parent (Node_text Text rest)
            else parent
        end end end end end
      else parent
  end.

Definition parse_inline (text : string) (parent : Node) : Node :=
  if text =? "" then parent
  else
    let parent := parse_inline_loop (length text) text 0 parent in
    match children parent with
    | [] => if negb (text =? "") then push_child parent (Node_text Text text)
            else parent
    | _ :: _ => parent
    end.

(** The condition of the list branch and of its loop: the first of the
    two bullet patterns that matches the whole line. *)
Definition item_match (line : string) : option smatch :=
  match regex_match line unordered_regex with
  | Some m => Some m
  | None => regex_match line ordered_regex
  end.

(** The body of the list loop for one matching line. *)
Definition list_item (is_ordered : bool) (m : smatch) : Node :=
  let item_node := Node_of ListItem in
  let item_node :=
    if is_ordered then set_attribute item_node "ordered" "true"
    else item_node in
  parse_inline (sub m 2) item_node.

(** [while(pos < lines.size())] of the list branch; it stops at the first
    line that matches neither bullet pattern. *)
Fixpoint parse_list_items (fuel : nat) (lines : list string) (pos : nat)
    (is_ordered : bool) (list_node : Node) : nat * Node :=
  match fuel with
  | 0 => (pos, list_node)
  | S fuel' =>
      match nth_error lines pos with
      | None => (pos, list_node)
      | Some current_line =>
          match item_match current_line with
          | Some m =>
              parse_list_items fuel' lines (pos + 1) is_ordered
                (push_child list_node (list_item is_ordered m))
          | None => (pos, list_node)
          end
      end
  end.

(** The loop of the code-block branch: lines up to the closing fence,
    joined by newlines ([tellp() > 0] holds once something was
    written). *)
Fixpoint collect_code (fuel : nat) (lines : list string) (pos : nat)
    (code_content : string) : nat * string :=
  match fuel with
  | 0 => (pos, code_content)
  | S fuel' =>
      match nth_error lines pos with
      | None => (pos, code_content)
      | Some l =>
          if matches l fence_close_regex then (pos, code_content)
          else
            let code_content :=
              if negb (code_content =? "") then code_content ++ nl
              else code_content in
            collect_code fuel' lines (pos + 1) (code_content ++ l)
      end
  end.

(** [cell_content.erase(0, cell_content.find_first_not_of(" \t"));
     cell_content.erase(cell_content.find_last_not_of(" \t") + 1);] *)
Definition blank_chars : string := String " " (str tab).

Definition trim_cell (cell_content : string) : string :=
  let s :=
    match find_first_not_of cell_content blank_chars with
    | Some i => substr_from cell_content i
    | None => ""
    end in
  match find_last_not_of s blank_chars with
  | Some j => substr s 0 (j + 1)
  | None => ""
  end.

(** The body of the loop over the matches of [cell_regex] in a table
    line.  The test [iter != sregex_iterator(begin, end, cell_regex)] is
    false at the first match and true at every later one: [operator++]
    adds [match_prev_avail] to the flags of the iterator and [operator==]
    compares the flags, so an iterator that has been incremented is never
    equal to a fresh one.  [is_first] says that [iter] has not been
    incremented yet. *)
Definition parse_cell (is_first : bool) (row_node : Node) (m : smatch)
    : Node :=
  let cell_content := trim_cell (sub m 1) in
  if negb (cell_content =? "") || negb is_first then
    push_child row_node (parse_inline cell_content (Node_of TableCell))
  else row_node.

(** The cells of one table line:
    [for(; iter != end; ++iter)] over the matches in order. *)
Definition parse_row (table_line : string) : Node :=
  match sregex_iterator table_line cell_regex with
  | [] => Node_of TableRow
  | first_match :: more =>
      fold_left (parse_cell false) more
        (parse_cell true (Node_of TableRow) first_match)
  end.

(** [while(pos < lines.size() && lines[pos].find('|') != npos)] *)
Fixpoint parse_table_rows (fuel : nat) (lines : list string) (pos : nat)
    (table_node : Node) : nat * Node :=
  match fuel with
  | 0 => (pos, table_node)
  | S fuel' =>
      match nth_error lines pos with
      | None => (pos, table_node)
      | Some table_line =>
          if contains_char "|" table_line then
            if matches table_line table_separator_regex then
              parse_table_rows fuel' lines (pos + 1) table_node
            else
              let row_node := parse_row table_line in
              let table_node :=
                match children row_node with
                | [] => table_node
                | _ :: _ => push_child table_node row_node
                end in
              parse_table_rows fuel' lines (pos + 1) table_node
          else (pos, table_node)
      end
  end.

(** [while(pos < lines.size() && !lines[pos].empty()
          && !regex_match(lines[pos], regex("^#{1,6}\s+")))] *)
Fixpoint collect_paragraph (fuel : nat) (lines : list string) (pos : nat)
    (paragraph_text : string) : nat * string :=
  match fuel with
  | 0 => (pos, paragraph_text)
  | S fuel' =>
      match nth_error lines pos with
      | None => (pos, paragraph_text)
      | Some l =>
          if negb (l =? "") && negb (matches l heading_prefix_regex) then
            collect_paragraph fuel' lines (pos + 1)
              (paragraph_text ++ " " ++ l)
          else (pos, paragraph_text)
      end
  end.

(** [parse_block(lines, pos, parent)]: the new cursor and the parent
    with the block appended. *)
Definition parse_block (lines : list string) (pos : nat) (parent : Node)
    : nat * Node :=
  match nth_error lines pos with
  | None => (pos, parent)
  | Some line =>
      if line =? "" then (pos + 1, parent)
      else if matches line hr_regex then
        (pos + 1, push_child parent (Node_of HorizontalRule))
      else
      match regex_match line heading_regex with
      | Some heading_match =>
          let level := Z.of_nat (length (sub heading_match 1)) in
          let text := sub heading_match 2 in
          (pos + 1, push_child parent (Node_level Heading text level))
      | None =>
      match regex_match line fence_open_regex with
      | Some code_match =>
          let language := sub code_match 1 in
          let pos := pos + 1 in
          let '(pos, code_content) :=
            collect_code (List.length lines - pos) lines pos "" in
          let pos := if Nat.ltb pos (List.length lines) then pos + 1 else pos in
          let code_node := Node_text CodeBlock code_content in
          let code_node :=
            if negb (language =? "")
            then set_attribute code_node "language" language
            else code_node in
          (pos, push_child parent code_node)
      | None =>
      match regex_match line quote_regex with
      | Some quote_match =>
          let quote_node := parse_inline (sub quote_match 1) (Node_of Quote) in
          (pos + 1, push_child parent quote_node)
      | None =>
      match item_match line with
      | Some _ =>
          let is_ordered := matches line ordered_regex in
          let '(pos, list_node) :=
            parse_list_items (List.length lines - pos) lines pos is_ordered
              (Node_of List) in
          (pos, push_child parent list_node)
      | None =>
          if contains_char "|" line then
            let '(pos, table_node) :=
              parse_table_rows (List.length lines - pos) lines pos
                (Node_of Table) in
            (pos, push_child parent table_node)
          else
            let pos := pos + 1 in
            let '(pos, paragraph_text) :=
              collect_paragraph (List.length lines - pos) lines pos line in
            let paragraph_node :=
              parse_inline paragraph_text (Node_of Paragraph) in
            (pos, push_child parent paragraph_node)
      end end end end
  end.

(** [while(std::getline(iss, line)) lines.push_back(line);]: [line] is
    the line being read; input that ends without a newline still yields
    its last line, an empty rest yields none. *)
Fixpoint getlines (input : string) (line : string) : list string :=
  match input with
  | EmptyString => if line =? "" then [] else [line]
  | String c rest =>
      if Ascii.eqb c lf then line :: getlines rest ""
      else getlines rest (line ++ str c)
  end.

(** [while(pos < lines.size()) parse_block(lines, pos, document);]
    Every block consumes at least one line. *)
Fixpoint parse_blocks (fuel : nat) (lines : list string) (pos : nat)
    (document : Node) : Node :=
  match fuel with
  | 0 => document
  | S fuel' =>
      if Nat.ltb pos (List.length lines) then
        let '(pos, document) := parse_block lines pos document in
        parse_blocks fuel' lines pos document
      else document
  end.

Definition deserialize (markdown : string) : Node :=
  let lines := getlines markdown "" in
  parse_blocks (List.length lines) lines 0 (Node_of Document).

End Deserializer.

End markdown.

(** ** [utils/file_utils.cpp]: string helpers and the front matter *)

Module utils.
Import Cpp.

(** [s.find(pat, pos)] for a pattern that is not empty. *)
Definition find_from (s pat : string) (pos : nat) : option nat :=
  index pos pat s.

(** [str.size() >= prefix.size() && str.compare(0, prefix.size(), prefix) == 0] *)
Definition starts_with (str pre : string) : bool := prefix pre str.

(** [str.size() >= suffix.size()
     && str.compare(str.size() - suffix.size(), suffix.size(), suffix) == 0] *)
Definition ends_with (str suffix : string) : bool :=
  Nat.leb (length suffix) (length str)
  && (substr str (length str - length suffix) (length suffix) =? suffix).

Module StringUtils.

Definition trim_set : string :=
  String " " (String tab (String cr (Cpp.str lf))).

(** [StringUtils::trim].  [find_last_not_of] cannot fail once
    [find_first_not_of] has found a character; were it to, [end - start + 1]
    would wrap around to [0] for [start == 0] and to a count past the end
    otherwise. *)
Definition trim (str : string) : string :=
  match find_first_not_of str trim_set with
  | None => ""
  | Some start =>
      match find_last_not_of str trim_set with
      | Some e => substr str start (e - start + 1)
      | None => substr str start (if Nat.eqb start 0 then 0 else length str)
      end
  end.

(** [while(std::getline(ss, token, delimiter))]: the tokens in order;
    [token] is the one being read.  A last token that is empty is not
    produced. *)
Fixpoint tokens (input : string) (delimiter : ascii) (token : string)
    : list string :=
  match input with
  | EmptyString => if token =? "" then [] else [token]
  | String c rest =>
      if Ascii.eqb c delimiter then token :: tokens rest delimiter ""
      else tokens rest delimiter (token ++ Cpp.str c)
  end.

(** [StringUtils::split]: every token is trimmed. *)
Definition split (str : string) (delimiter : ascii) : list string :=
  map trim (tokens str delimiter "").

End StringUtils.

Module FrontmatterParser.

Record ParseResult : Type :=
  mkParseResult {
    metadata : StdMap.t;
    content : string;
    content_start_pos : nat
  }.

(** [FrontmatterParser::parse_line].  For a value that is a lone double
    quote, [value.length() - 2] wraps around and [substr(1, ...)] takes
    what is left after the quote, which is nothing. *)
Definition parse_line (line : string) (metadata : StdMap.t) : StdMap.t :=
  match Cpp.find line ":" with
  | None => metadata
  | Some colon_pos =>
      let key := StringUtils.trim (substr line 0 colon_pos) in
      let value := StringUtils.trim (substr_from line (colon_pos + 1)) in
      let value :=
        if starts_with value (Cpp.str dquote)
           && ends_with value (Cpp.str dquote)
        then
          substr value 1
            (if Nat.ltb (length value) 2 then length value
             else length value - 2)
        else value in
      StdMap.insert key value metadata
  end.

(** [FrontmatterParser::parse] *)
Definition parse (input : string) : ParseResult :=
  let result := mkParseResult StdMap.empty input 0 in
  if negb (starts_with input "---") then result
  else
    let found :=
      match find_from input (nl ++ "---" ++ nl) 4 with
      | Some e => Some e
      | None => find_from input (nl ++ "---") 4
      end in
    match found with
    | None => result
    | Some end_pos =>
        let frontmatter := substr input 4 (end_pos - 4) in
        let lines := StringUtils.split frontmatter lf in
        let metadata :=
          fold_left
            (fun m line =>
               if negb (line =? "") && contains_char ":" line
               then parse_line line m else m)
            lines StdMap.empty in
        let content_start_pos := end_pos + 4 in
        mkParseResult metadata
          (if Nat.ltb content_start_pos (length input)
           then StringUtils.trim (substr_from input content_start_pos)
           else "")
          content_start_pos
    end.

End FrontmatterParser.

End utils.

(** ** Vocabulary of the statements *)

Module Spec.
Import Cpp.

(** The strings of [l] one after the other. *)
Fixpoint join (l : list string) : string :=
  match l with
  | [] => ""
  | x :: l' => x ++ join l'
  end.

(** [s] ends in [suffix]. *)
Definition ends_with (s suffix : string) : Prop :=
  exists before, s = before ++ suffix.

(** The text [class] begins with: the condition of the specification for
    writing the text of a [code] node unescaped. *)
Definition language_code (node : html.Node) : bool :=
  (html.tag node =? "code")
  && match StdMap.find "class" (html.attributes node) with
     | Some cls => prefix "language-" cls
     | None => false
     end.

(** What is written for the text of a node with a body. *)
Definition shown_text (node : html.Node) : string :=
  if language_code node then html.text node
  else html.escape_html (html.text node).

(** One attribute as it appears in an opening tag. *)
Definition shown_attribute (kv : string * string) : string :=
  " " ++ fst kv ++ "=" ++ str dquote ++ html.escape_html (snd kv) ++ str dquote.

(** The opening tag up to, and without, its closing bracket. *)
Definition opening_tag (tag : string) (attrs : StdMap.t) (indent_level : nat)
    : string :=
  repeat_char (indent_level * 2) " " ++ "<" ++ tag
  ++ join (map shown_attribute attrs).

(** The children of a node with a body and its closing tag. *)
Definition children_and_closing (tag : string) (children : list html.Node)
    (indent_level : nat) : string :=
  let is_inline := html.Serializer.set_count html.Serializer.inline_tags tag in
  join
    (map (fun child =>
            (if is_inline then "" else nl)
            ++ html.Serializer.serialize child
                 (if is_inline then 0 else indent_level + 1))
         children)
  ++ match children with
     | [] => ""
     | _ :: _ =>
         if is_inline then ""
         else nl ++ repeat_char (indent_level * 2) " "
     end
  ++ "</" ++ tag ++ ">".

(** The lines at the head of [lines] that match one of the two bullet
    patterns, as far as they go without interruption, with their
    matches. *)
Fixpoint bullet_run (lines : list string) : list Regex.smatch :=
  match lines with
  | [] => []
  | l :: ls =>
      match markdown.Deserializer.item_match l with
      | Some m => m :: bullet_run ls
      | None => []
      end
  end.

Definition is_none {A : Type} (o : option A) : bool :=
  match o with Some _ => false | None => true end.

(** [parse_block] gets as far as the list rule on [line], and the rule
    applies: the line is not blank, is no rule, heading, fence or quote
    line, and matches a bullet pattern. *)
Definition reaches_list_rule (line : string) : bool :=
  negb (line =? "")
  && negb (Regex.matches line markdown.Deserializer.hr_regex)
  && is_none (Regex.regex_match line markdown.Deserializer.heading_regex)
  && is_none (Regex.regex_match line markdown.Deserializer.fence_open_regex)
  && is_none (Regex.regex_match line markdown.Deserializer.quote_regex)
  && negb (is_none (markdown.Deserializer.item_match line)).

(** [s] without its first [n] characters. *)
Fixpoint drop (n : nat) (s : string) : string :=
  match n, s with
  | 0, _ => s
  | S n', String _ s' => drop n' s'
  | S _, EmptyString => EmptyString
  end.

(** The characters of [s] before its first closing bracket, in lower
    case; [None] when [s] has no closing bracket. *)
Fixpoint name_until_bracket (s : string) : option string :=
  match s with
  | EmptyString => None
  | String c s' =>
      if Ascii.eqb c ">" then Some ""
      else option_map (String (tolower c)) (name_until_bracket s')
  end.

(** A closing tag for [tag] begins at index [q] of [html]: a less-than
    sign, a slash, a name that is [tag] up to case, a greater-than sign. *)
Definition closing_tag_at (html tag : string) (q : nat) : bool :=
  match drop q html with
  | String c1 (String c2 s) =>
      Ascii.eqb c1 "<" && Ascii.eqb c2 "/"
      && match name_until_bracket s with
         | Some name => name =? tag
         | None => false
         end
  | _ => false
  end.


(** *** Nodes the serializers accept *)

Definition has_key (key : string) (m : StdMap.t) : bool :=
  match StdMap.find key m with Some _ => true | None => false end.

(** The kinds whose children the two serializers walk into. *)
Definition visits_children (t : markdown.NodeType) : bool :=
  match t with
  | markdown.Document | markdown.Paragraph | markdown.Bold | markdown.Italic
  | markdown.List | markdown.ListItem | markdown.Quote | markdown.Table
  | markdown.TableRow | markdown.TableCell => true
  | _ => false
  end.

(** What a node must carry for a serializer to get through it: a [Link]
    its [href], an [Image] its [src] and [alt], and for the markdown target
    a [Heading] a level that is not negative; the same for every node the
    walk reaches below it. *)
Fixpoint renderable (for_markdown : bool) (n : markdown.Node) : bool :=
  match n with
  | markdown.mkNode type _ attributes children level =>
      match type with
      | markdown.Link => has_key "href" attributes
      | markdown.Image => has_key "src" attributes && has_key "alt" attributes
      | markdown.Heading => if for_markdown then (0 <=? level)%Z else true
      | _ => true
      end
      && (if visits_children type
          then forallb (renderable for_markdown) children
          else true)
  end.

(** *** Trees the tag-tree parser returns *)

Fixpoint all_chars (p : ascii -> bool) (s : string) : bool :=
  match s with
  | EmptyString => true
  | String c s' => p c && all_chars p s'
  end.

(** A parsed tag name: not empty, no upper-case letter, and none of the
    three characters that end a tag name. *)
Definition parsed_name (t : string) : bool :=
  negb (t =? "")
  && all_chars (fun c => html.Deserializer.tag_char c && negb (isupper c)) t.

(** Every node of the tree has a parsed tag name. *)
Fixpoint parsed_tree (n : html.Node) : bool :=
  match n with
  | html.mkNode tag _ _ children =>
      parsed_name tag && forallb parsed_tree children
  end.

(** A [Heading] has a level from 1 to 6. *)
Definition heading_level_ok (n : markdown.Node) : bool :=
  match markdown.type n with
  | markdown.Heading =>
      ((1 <=? markdown.level n) && (markdown.level n <=? 6))%Z
  | _ => true
  end.

(** *** Lines *)

(** The lines of [ls], each followed by a newline. *)
Fixpoint join_lines (ls : list string) : string :=
  match ls with
  | [] => ""
  | l :: ls' => l ++ nl ++ join_lines ls'
  end.

Fixpoint last_is_newline (s : string) : bool :=
  match s with
  | EmptyString => false
  | String c EmptyString => Ascii.eqb c lf
  | String _ s' => last_is_newline s'
  end.

(** [s] with a final newline added unless it is empty or has one. *)
Definition terminated (s : string) : string :=
  if (s =? "") || last_is_newline s then s else s ++ nl.

(** *** The fence and paragraph rules *)

(** The lines at the head of [ls] before the first one that [stop]s. *)
Fixpoint take_until (stop : string -> bool) (ls : list string) : list string :=
  match ls with
  | [] => []
  | l :: ls' => if stop l then [] else l :: take_until stop ls'
  end.

(** [ls] without the empty lines at its head. *)
Fixpoint drop_blank (ls : list string) : list string :=
  match ls with
  | [] => []
  | l :: ls' => if l =? "" then drop_blank ls' else ls
  end.

(** The strings of [ls] with [sep] before each. *)
Definition prefixed (sep : string) (ls : list string) : string :=
  join (map (fun l => sep ++ l) ls).

(** The strings of [ls] with newlines between them. *)
Definition newline_separated (ls : list string) : string :=
  match ls with
  | [] => ""
  | l :: ls' => l ++ prefixed nl ls'
  end.

(** [parse_block] gets as far as the fence rule on [line]. *)
Definition reaches_fence_rule (line : string) : bool :=
  negb (line =? "")
  && negb (Regex.matches line markdown.Deserializer.hr_regex)
  && is_none (Regex.regex_match line markdown.Deserializer.heading_regex).

(** [parse_block] falls through to the paragraph rule on [line]. *)
Definition reaches_paragraph_rule (line : string) : bool :=
  reaches_fence_rule line
  && is_none (Regex.regex_match line markdown.Deserializer.fence_open_regex)
  && is_none (Regex.regex_match line markdown.Deserializer.quote_regex)
  && is_none (markdown.Deserializer.item_match line)
  && negb (contains_char "|" line).

(** The lines that end a paragraph: the empty one, and one made of one to
    six hashes and white space after them. *)
Definition ends_paragraph (l : string) : bool :=
  (l =? "") || Regex.matches l markdown.Deserializer.heading_prefix_regex.

(** [parse_block] gets as far as the table rule on [line], and the rule
    applies. *)
Definition reaches_table_rule (line : string) : bool :=
  reaches_fence_rule line
  && is_none (Regex.regex_match line markdown.Deserializer.fence_open_regex)
  && is_none (Regex.regex_match line markdown.Deserializer.quote_regex)
  && is_none (markdown.Deserializer.item_match line)
  && contains_char "|" line.

(** The rows of a run of table lines: separator lines give none, and a line
    whose row has no cell gives none. *)
Definition table_rows (run : list string) : list markdown.Node :=
  filter (fun row => negb (Nat.eqb (List.length (markdown.children row)) 0))
    (map markdown.Deserializer.parse_row
       (filter
          (fun l =>
             negb (Regex.matches l
                     markdown.Deserializer.table_separator_regex))
          run)).

(** *** Leaf elements *)

Fixpoint last_char (s : string) : option ascii :=
  match s with
  | EmptyString => None
  | String c EmptyString => Some c
  | String _ s' => last_char s'
  end.

Definition is_trim_char (c : ascii) : bool :=
  mem_char c html.Deserializer.trim_chars.

(** [text] neither begins nor ends with one of the four characters the
    parser trims. *)
Definition no_outer_space (text : string) : bool :=
  match text with
  | EmptyString => true
  | String c _ =>
      negb (is_trim_char c)
      && match last_char text with
         | Some d => negb (is_trim_char d)
         | None => true
         end
  end.

Fixpoint map_string (f : ascii -> ascii) (s : string) : string :=
  match s with
  | EmptyString => EmptyString
  | String c s' => String (f c) (map_string f s')
  end.

End Spec.

(** ** Vocabulary of the proofs *)

Module CodecSpec.
Import Cpp html Spec.

(** The alphabet the round-trip property is stated over. *)
Definition reserved (c : ascii) : bool :=
  Ascii.eqb c "&" || Ascii.eqb c "<" || Ascii.eqb c ">"
  || Ascii.eqb c dquote || Ascii.eqb c "'".

Definition in_alphabet (c : ascii) : bool :=
  reserved c || islower c || isupper c || isdigit c || Ascii.eqb c " ".

(** The five sequences [escape_html] produces. *)
Definition entities : list string :=
  ["&amp;"; "&lt;"; "&gt;"; "&quot;"; "&#39;"].

(** One of the five sequences starts at index [i] of [s]. *)
Definition entity_at (s : string) (i : nat) : Prop :=
  exists e, In e entities /\ substr s i (length e) = e.

Definition roundtrip_sample : string :=
  "Tom & Jerry <b>" ++ str dquote ++ "it's" ++ str dquote ++ " 42 &amp".

Definition clean_at (s : string) (i : nat) : Prop :=
  forall c, get i s = Some c ->
    c <> "<"%char /\ c <> ">"%char /\ c <> dquote /\ c <> "'"%char /\
    (c = "&"%char -> entity_at s i).

End CodecSpec.

Module SerializerSpec.
Import Cpp html.

Definition highlighted_code : Node :=
  mkNode "code" "if (a < b) {}"
    (StdMap.insert "class" "language-c" StdMap.empty) [].

Definition image_with_body : Node :=
  mkNode "img" "ignored <text>"
    (StdMap.insert "alt" "a<b" (StdMap.insert "src" "x.png" StdMap.empty))
    [mkNode "p" "ignored child" StdMap.empty []].

End SerializerSpec.

Module ParserSpec.
Import Cpp html html.Deserializer Spec.

Definition is_invalid_argument (e : exn) : Prop :=
  exists what, e = invalid_argument what.

(** Where [parse_opening] leaves the cursor. *)
Definition opening_post (html : string) (pos : nat) (r : result opening)
    : Prop :=
  match r with
  | Ok (NoElement p) =>
      pos <= p
      /\ (at_pos html pos (is_char "<") = true ->
          at_pos html (pos + 1) (is_char "/") = true)
  | Ok (SelfClosed _ p) => pos < p
  | Ok (Opened _ _ body) => pos + 2 <= body /\ body <= length html
  | Throw e => is_invalid_argument e
  | OutOfFuel => False
  end.

Definition closing_post (html tag : string) (q : nat)
    (r : result (Node * nat)) : Prop :=
  match r with
  | Ok (_, p') => q + 2 < p' /\ closing_tag_at html tag q = true
  | Throw e => is_invalid_argument e
  | OutOfFuel => False
  end.

Definition node_post (html : string) (pos : nat) (r : result (Node * nat))
    : Prop :=
  match r with
  | Ok (_, p') =>
      pos <= p'
      /\ (at_pos html pos (is_char "<") = true ->
          at_pos html (pos + 1) (is_char "/") = false -> pos < p')
  | Throw e => is_invalid_argument e
  | OutOfFuel => True
  end.

Definition body_post (pos : nat) (r : result (Node * string * nat)) : Prop :=
  match r with
  | Ok (_, _, p') => pos <= p'
  | Throw e => is_invalid_argument e
  | OutOfFuel => True
  end.

Definition kids_parsed (n : Node) : Prop :=
  forallb parsed_tree (children n) = true.

Definition last_ok (s : string) : bool :=
  match last_char s with
  | Some d => negb (is_trim_char d)
  | None => true
  end.

(** A key the attribute loop reads back as it is. *)
Definition attribute_name (k : string) : bool :=
  negb (k =? "") && all_chars (fun c => key_char c && negb (isupper c)) k.

(** The same map with every value escaped. *)
Definition escape_values (m : StdMap.t) : StdMap.t :=
  map (fun kv => (fst kv, escape_html (snd kv))) m.

(** The attributes of an opening tag from the first key on. *)
Definition attrs_text (l : StdMap.t) : string :=
  match l with
  | [] => ""
  | (k, v) :: l' =>
      k ++ "=" ++ str dquote ++ escape_html v ++ str dquote
      ++ join (map shown_attribute l')
  end.

(** The text written for an element without children. *)
Definition element_html (tag : string) (attrs : StdMap.t) (text : string)
    : string :=
  opening_tag tag attrs 0 ++ ">" ++ escape_html text ++ "</" ++ tag ++ ">".

(** A tree of inline elements without attributes; the text of a node
    without children neither begins nor ends with white space. *)
Fixpoint inline_tree (n : Node) : bool :=
  match n with
  | mkNode tag text attrs children =>
      html.Serializer.set_count html.Serializer.inline_tags tag
      && match attrs with [] => true | _ :: _ => false end
      && match children with [] => no_outer_space text | _ :: _ => true end
      && forallb inline_tree children
  end.

(** The text the serializer writes for a node of an inline tree. *)
Definition inline_html (tag text : string) (children : list Node) : string :=
  "<" ++ tag ++ ">" ++ escape_html text
  ++ join (map (fun c => html.Serializer.serialize c 0) children)
  ++ "</" ++ tag ++ ">".

(** What the body loop does with the text read so far when a child
    begins. *)
Definition flush (node : Node) (text : string) : Node :=
  if negb (text =? "") then set_text node (unescape_html text) else node.

(** Read back from any position, with anything around it. *)
Definition roundtrip_at (n : Node) : Prop :=
  forall pre post fuel,
    length (html.Serializer.serialize n 0) < fuel ->
    parse_node fuel (pre ++ html.Serializer.serialize n 0 ++ post)
      (length pre)
    = Ok (n, length (pre ++ html.Serializer.serialize n 0)).

(** What the serializer writes between the text of a block element at the
    top level and its closing tag: every child on a line of its own,
    indented by two spaces, and a newline after the last. *)
Definition indented_children (children : list Node) : string :=
  join (map (fun c => nl ++ "  " ++ html.Serializer.serialize c 0) children)
  ++ nl.

End ParserSpec.

Module RegexSpec.
Import Cpp Regex.

(** The loop of a quantified class, with what follows it in the pattern as
    [next]: [run] on a pattern that begins with [Rep] is this loop. *)
Definition rep_from (p : ascii -> bool) (min : nat) (max : option nat)
    (greedy : bool) (next : string -> nat -> option (nat * captures))
    : string -> nat -> nat -> option (nat * captures) :=
  fix rep (rest : string) (pos count : nat) {struct rest}
    : option (nat * captures) :=
    if greedy then
      match
        match rest with
        | String c rest' =>
            if p c && below max count
            then rep rest' (S pos) (S count) else None
        | EmptyString => None
        end
      with
      | Some r => Some r
      | None => if Nat.leb min count then next rest pos else None
      end
    else
      match if Nat.leb min count then next rest pos else None with
      | Some r => Some r
      | None =>
          match rest with
          | String c rest' =>
              if p c && below max count
              then rep rest' (S pos) (S count) else None
          | EmptyString => None
          end
      end.

Definition within (max : option nat) (n : nat) : Prop :=
  match max with
  | Some m => n <= m
  | None => True
  end.

(** The groups a pattern writes. *)
Fixpoint groups_of (re : regex) : list nat :=
  match re with
  | [] => []
  | GroupOpen n :: re' => n :: groups_of re'
  | GroupClose n :: re' => n :: groups_of re'
  | _ :: re' => groups_of re'
  end.

(** The least number of characters a match of the pattern takes. *)
Fixpoint min_length (re : regex) : nat :=
  match re with
  | [] => 0
  | One _ :: re' => 1 + min_length re'
  | Rep _ min _ _ :: re' => min + min_length re'
  | _ :: re' => min_length re'
  end.

End RegexSpec.

Module MarkdownSpec.
Import Cpp markdown Spec.

(** Two nodes that differ at most in their children. *)
Definition same_header (a b : Node) : Prop :=
  type a = type b /\ text a = text b /\ attributes a = attributes b
  /\ level a = level b.

Definition returns {A : Type} (r : result A) : Prop := exists a, r = Ok a.

Definition kids_ok (b : bool) (n : Node) : Prop :=
  forallb (renderable b) (children n) = true.

(** What the code content is after the loop, from what it was before. *)
Definition code_after (content : string) (body : list string) : string :=
  if content =? "" then newline_separated (drop_blank body)
  else content ++ prefixed nl body.

(** A first character that starts neither a rule, a heading, a fence, a
    quote nor a list item, and is no white space. *)
Definition plain_start (c : ascii) : bool :=
  negb (isspace c) && negb (isdigit c) && negb (mem_char c "-_#>+").

(** One line of text with no markup in it. *)
Definition plain_line (t : string) : bool :=
  match t with
  | EmptyString => false
  | String c _ =>
      plain_start c
      && all_chars (fun d => negb (mem_char d "*`[|") && negb (Ascii.eqb d lf)) t
  end.

(** The blocks of a simple document: a rule, a heading, a paragraph of
    one plain line. *)
Inductive block : Type :=
| Rule
| Head (level : nat) (text : string)
| Para (text : string).

(** A heading text the heading pattern gives back whole: it is not empty,
    does not begin with white space and has no line terminator. *)
Definition heading_text (t : string) : bool :=
  match t with
  | EmptyString => false
  | String c _ => negb (isspace c) && all_chars Regex.dot t
  end.

Definition simple (b : block) : bool :=
  match b with
  | Rule => true
  | Head level text =>
      Nat.leb 1 level && Nat.leb level 6 && heading_text text
  | Para text => plain_line text
  end.

(** The node of a block, as the parser builds it. *)
Definition node_of (b : block) : Node :=
  match b with
  | Rule => Node_of HorizontalRule
  | Head level text => Node_level Heading text (Z.of_nat level)
  | Para text => mkNode Paragraph "" [] [Node_text Text text] 0
  end.

(** The line of a block, as the serializer writes it. *)
Definition line_of (b : block) : string :=
  match b with
  | Rule => "---"
  | Head level text => repeat_char level "#" ++ " " ++ text
  | Para text => text
  end.

Definition document (bs : list block) : Node :=
  mkNode Document "" [] (map node_of bs) 0.

(** Every block on a line of its own, with an empty line after it. *)
Definition document_text (bs : list block) : string :=
  join (map (fun b => line_of b ++ nl ++ nl) bs).

Definition document_lines (bs : list block) : list string :=
  flat_map (fun b => [line_of b; ""]) bs.

End MarkdownSpec.

Module UtilsSpec.
Import Cpp Spec.

(** A key of the front matter: it neither begins nor ends with white
    space and has no colon in it. *)
Definition metadata_key (k : string) : Prop :=
  no_outer_space k = true /\ contains_char ":" k = false.

End UtilsSpec.

(** *** The cells and rows of a table *)

Module TableSpec.
Import Cpp Regex markdown markdown.Deserializer Spec.

(** The texts that follow the bars of a line: one for every bar, up to
    the next bar or the end of the line.  [piece] is the text being read,
    [None] before the first bar. *)
Fixpoint bar_pieces (s : string) (piece : option string) : list string :=
  match s with
  | EmptyString =>
      match piece with
      | Some p => [p]
      | None => []
      end
  | String c s' =>
      if Ascii.eqb c "|" then
        match piece with
        | Some p => p :: bar_pieces s' (Some "")
        | None => bar_pieces s' (Some "")
        end
      else bar_pieces s' (option_map (fun p => p ++ str c) piece)
  end.

(** The cell made of a text between bars. *)
Definition cell_of (piece : string) : Node :=
  parse_inline (trim_cell piece) (Node_of TableCell).

(** The cells of a table line: one for every bar, except that the first
    bar gives none when nothing but spaces and tabs follows it. *)
Definition row_cells (line : string) : list Node :=
  match bar_pieces line None with
  | [] => []
  | p :: ps =>
      ((if trim_cell p =? "" then [] else [cell_of p]) ++ map cell_of ps)%list
  end.

(** The row of a table line, and the rows of a run of table lines:
    separator lines and lines whose row has no cell give none. *)
Definition row_of (line : string) : Node :=
  mkNode TableRow "" [] (row_cells line) 0.

Definition rows_of (run : list string) : list Node :=
  map row_of
    (filter
       (fun l =>
          negb (matches l table_separator_regex)
          && match row_cells l with
             | [] => false
             | _ :: _ => true
             end)
       run).

(** No bar in a text. *)
Definition no_bar (s : string) : bool :=
  all_chars (fun c => negb (Ascii.eqb c "|")) s.

End TableSpec.

(** ** Facts about strings *)

Module StringFacts.
Import Cpp.

Lemma append_nil_r (s : string) : s ++ "" = s.
Proof. induction s as [|c s IH]; simpl; [reflexivity | now rewrite IH]. Qed.

Lemma append_assoc (a b c : string) : (a ++ b) ++ c = a ++ (b ++ c).
Proof. induction a as [|x a IH]; simpl; [reflexivity | now rewrite IH]. Qed.

Lemma length_append (a b : string) : length (a ++ b) = length a + length b.
Proof. induction a as [|x a IH]; simpl; [reflexivity | now rewrite IH]. Qed.

Lemma substring_0_0 (s : string) : substring 0 0 s = "".
Proof. destruct s; reflexivity. Qed.

Lemma get_length_none (s : string) : get (length s) s = None.
Proof. induction s as [|c s IH]; simpl; [reflexivity | exact IH]. Qed.

Lemma get_append_right (pre s : string) (j : nat) :
  get (length pre + j) (pre ++ s) = get j s.
Proof. induction pre as [|x pre IH]; simpl; [reflexivity | exact IH]. Qed.

Lemma substring_append_right (pre s : string) (j n : nat) :
  substring (length pre + j) n (pre ++ s) = substring j n s.
Proof. induction pre as [|x pre IH]; simpl; [reflexivity | exact IH]. Qed.

Lemma get_at_length (pre s : string) : get (length pre) (pre ++ s) = get 0 s.
Proof. rewrite <- (Nat.add_0_r (length pre)) at 1. apply get_append_right. Qed.

Lemma substr_at_length (pre s : string) (n : nat) :
  substr (pre ++ s) (length pre) n = substring 0 n s.
Proof.
  unfold substr. rewrite <- (Nat.add_0_r (length pre)) at 1.
  apply substring_append_right.
Qed.

Lemma substring_0_append (lit s : string) :
  substring 0 (length lit) (lit ++ s) = lit.
Proof.
  induction lit as [|x lit IH]; simpl.
  - destruct s; reflexivity.
  - now rewrite IH.
Qed.

End StringFacts.

(** ** The entity codec *)

Module CodecFacts.
Import Cpp html StringFacts Spec CodecSpec.

Ltac split_escape_char c :=
  unfold escape_char;
  destruct (Ascii.eqb_spec c "&") as [->|Hamp]; [|
  destruct (Ascii.eqb_spec c "<") as [->|Hlt]; [|
  destruct (Ascii.eqb_spec c ">") as [->|Hgt]; [|
  destruct (Ascii.eqb_spec c dquote) as [->|Hquot]; [|
  destruct (Ascii.eqb_spec c "'") as [->|Hapos]]]]].

(** One decoding step undoes one encoded character: started at the
    position where [escape_char c] begins, the loop appends [c] and goes on
    from the position after it. *)
Lemma unescape_loop_step (fuel : nat) (pre rest acc : string) (c : ascii) :
  unescape_loop (S fuel) (pre ++ escape_char c ++ rest) (length pre) acc =
  unescape_loop fuel ((pre ++ escape_char c) ++ rest)
    (length (pre ++ escape_char c)) (acc ++ str c).
Proof.
  rewrite append_assoc, length_append.
  cbn [unescape_loop].
  rewrite get_at_length, !substr_at_length.
  split_escape_char c; cbn - [unescape_loop];
    rewrite ?substring_0_0; cbn - [unescape_loop];
    rewrite <- ?Nat.add_assoc; try reflexivity.
  rewrite (proj2 (Ascii.eqb_neq c "&") Hamp). reflexivity.
Qed.

Lemma length_escape_char_pos (c : ascii) : 1 <= length (escape_char c).
Proof. split_escape_char c; simpl; lia. Qed.

Lemma unescape_loop_escape (t : string) :
  forall (fuel : nat) (pre acc : string),
    length (escape_html t) <= fuel ->
    unescape_loop fuel (pre ++ escape_html t) (length pre) acc = acc ++ t.
Proof.
  induction t as [|c t IH]; intros fuel pre acc Hfuel.
  - cbn [escape_html]. rewrite !append_nil_r.
    destruct fuel; cbn [unescape_loop].
    + reflexivity.
    + now rewrite get_length_none.
  - cbn [escape_html] in *. rewrite length_append in Hfuel.
    pose proof (length_escape_char_pos c).
    destruct fuel as [|fuel]; [lia|].
    rewrite unescape_loop_step, IH.
    + rewrite append_assoc. reflexivity.
    + lia.
Qed.

Lemma unescape_escape (t : string) : unescape_html (escape_html t) = t.
Proof.
  unfold unescape_html.
  apply (unescape_loop_escape t (length (escape_html t)) "" ""). lia.
Qed.

(** C2: for every text [t] whose characters all come from
    the five reserved characters (ampersand, less-than, greater-than,
    double quote, apostrophe), a-z, A-Z, 0-9 and space, decoding the encoding of [t]
    gives [t] back. *)
Theorem unescape_escape_alphabet (t : string) :
  all_chars in_alphabet t = true ->
  unescape_html (escape_html t) = t.
Proof. intros _. apply unescape_escape. Qed.

Lemma unescape_escape_alphabet_witness :
  all_chars in_alphabet roundtrip_sample = true /\
  unescape_html (escape_html roundtrip_sample) = roundtrip_sample.
Proof.
  split; [reflexivity | apply (unescape_escape_alphabet roundtrip_sample)].
  reflexivity.
Defined.

Lemma entity_at_shift (lit s : string) (j : nat) :
  entity_at s j -> entity_at (lit ++ s) (length lit + j).
Proof.
  intros (e & He & Hs). exists e. split; [exact He|].
  unfold substr in *. now rewrite substring_append_right.
Qed.

Lemma clean_at_shift (lit s : string) (j : nat) :
  clean_at s j -> clean_at (lit ++ s) (length lit + j).
Proof.
  intros H c Hc. rewrite get_append_right in Hc.
  destruct (H c Hc) as (H1 & H2 & H3 & H4 & H5).
  repeat split; auto. intros E. apply entity_at_shift; auto.
Qed.

Lemma entity_here (e s : string) :
  In e entities -> entity_at (e ++ s) 0.
Proof.
  intros He. exists e. split; [exact He|].
  unfold substr. apply substring_0_append.
Qed.

(** Inside one encoded character nothing but the entity itself occurs. *)
Lemma clean_escape_char (c : ascii) (s : string) (i : nat) :
  i < length (escape_char c) -> clean_at (escape_char c ++ s) i.
Proof.
  intros Hi d Hd.
  unfold escape_char in Hi, Hd.
  split_escape_char c; cbn in Hi;
    do 6 (try (destruct i as [|i]; [|try (exfalso; clear - Hi; lia)]));
    cbn in Hd; try (exfalso; clear - Hi; lia); injection Hd as <-;
    (repeat split; try discriminate; try congruence; intros _).
  - apply (entity_here "&amp;"). simpl; tauto.
  - apply (entity_here "&lt;"). simpl; tauto.
  - apply (entity_here "&gt;"). simpl; tauto.
  - apply (entity_here "&quot;"). simpl; tauto.
  - apply (entity_here "&#39;"). simpl; tauto.
Qed.

Lemma escape_html_clean_at (t : string) : forall i, clean_at (escape_html t) i.
Proof.
  induction t as [|c t IH]; intros i.
  - intros d Hd. destruct i; discriminate.
  - cbn [escape_html].
    destruct (Nat.lt_ge_cases i (length (escape_char c))) as [Hlt|Hge].
    + now apply clean_escape_char.
    + replace i with (length (escape_char c) + (i - length (escape_char c)))
        by lia.
      apply clean_at_shift, IH.
Qed.

(** C10: for every input [t], no character of [escape_html t] is one of
    less-than, greater-than, double quote or apostrophe, and at every
    ampersand of [escape_html t] one of the five sequences [&amp;], [&lt;],
    [&gt;], [&quot;], [&#39;] begins. *)
Theorem escape_html_entity_clean (t : string) (i : nat) (c : ascii) :
  get i (escape_html t) = Some c ->
  c <> "<"%char /\ c <> ">"%char /\ c <> dquote /\ c <> "'"%char /\
  (c = "&"%char ->
   exists e, In e ["&amp;"; "&lt;"; "&gt;"; "&quot;"; "&#39;"] /\
             substr (escape_html t) i (length e) = e).
Proof. intros H. exact (escape_html_clean_at t i c H). Qed.

Lemma escape_html_entity_clean_witness :
  get 1 (escape_html "a&<") = Some "&"%char /\
  ("&"%char <> "<"%char /\ "&"%char <> ">"%char /\ "&"%char <> dquote /\
   "&"%char <> "'"%char /\
   ("&"%char = "&"%char ->
    exists e, In e ["&amp;"; "&lt;"; "&gt;"; "&quot;"; "&#39;"] /\
              substr (escape_html "a&<") 1 (length e) = e)).
Proof.
  split; [reflexivity|].
  apply (escape_html_entity_clean "a&<" 1 "&"%char). reflexivity.
Defined.

(** *** Further facts about the codec *)

(** X1: escaping works character by character: the escape of a concatenation
    is the concatenation of the escapes. *)
Theorem escape_html_append (a b : string) :
  escape_html (a ++ b) = escape_html a ++ escape_html b.
Proof.
  induction a as [|c a IH]; cbn [append escape_html]; [reflexivity|].
  now rewrite IH, append_assoc.
Qed.

Lemma length_escape_html (t : string) : length t <= length (escape_html t).
Proof.
  induction t as [|c t IH]; cbn [escape_html length]; [lia|].
  rewrite length_append. pose proof (length_escape_char_pos c). lia.
Qed.

Lemma escape_char_reserved (c : ascii) :
  reserved c = true ->
  exists rest, escape_char c = String "&" rest /\ 3 <= length rest.
Proof.
  unfold reserved. split_escape_char c; cbn; intros H;
    try (eexists; split; [reflexivity | cbn; lia]).
  discriminate H.
Qed.

Lemma escape_char_plain (c : ascii) :
  reserved c = false -> escape_char c = str c.
Proof.
  unfold reserved, escape_char. intros H.
  repeat (apply orb_false_elim in H; destruct H as [H ?]).
  repeat match goal with E : _ = false |- _ => rewrite E; clear E end.
  reflexivity.
Qed.

(** X2: escaping never shortens a text, and leaves it unchanged exactly when
    it has none of the five reserved characters. *)
Theorem escape_html_fixpoint (t : string) :
  length t <= length (escape_html t)
  /\ (escape_html t = t <-> all_chars (fun c => negb (reserved c)) t = true).
Proof.
  split; [apply length_escape_html|].
  induction t as [|c t IH]; cbn [escape_html all_chars].
  - split; reflexivity.
  - destruct (reserved c) eqn:R; cbn [negb andb].
    + split; [|discriminate]. intros E. exfalso.
      destruct (escape_char_reserved c R) as (rest & Hc & Hlen).
      rewrite Hc in E. cbn [append] in E. injection E as _ E.
      apply (f_equal length) in E. rewrite length_append in E.
      pose proof (length_escape_html t). lia.
    + rewrite (escape_char_plain c R). cbn [str append].
      rewrite <- IH. split; [intros E; now injection E | intros ->; reflexivity].
Qed.

Lemma unescape_loop_plain (s : string) :
  forall (fuel : nat) (pre acc : string),
    all_chars (fun c => negb (Ascii.eqb c "&")) s = true ->
    length s <= fuel ->
    unescape_loop fuel (pre ++ s) (length pre) acc = acc ++ s.
Proof.
  induction s as [|c s IH]; intros fuel pre acc Hs Hfuel.
  - rewrite !append_nil_r. destruct fuel; cbn [unescape_loop];
      [reflexivity | now rewrite get_length_none].
  - cbn [all_chars] in Hs. apply andb_prop in Hs. destruct Hs as [Hc Hs].
    cbn [length] in Hfuel. destruct fuel as [|fuel]; [lia|].
    cbn [unescape_loop]. rewrite get_at_length. cbn [get].
    apply negb_true_iff in Hc. rewrite Hc.
    replace (pre ++ String c s) with ((pre ++ str c) ++ s)
      by (rewrite append_assoc; reflexivity).
    replace (length pre + 1) with (length (pre ++ str c))
      by (rewrite length_append; reflexivity).
    rewrite IH by (auto; lia). rewrite append_assoc. reflexivity.
Qed.

(** X3: a text without an ampersand is decoded to itself: only an
    ampersand can start a sequence that [unescape_html] rewrites. *)
Theorem unescape_html_without_ampersand (s : string) :
  all_chars (fun c => negb (Ascii.eqb c "&")) s = true ->
  unescape_html s = s.
Proof.
  intros H. unfold unescape_html.
  apply (unescape_loop_plain s (length s) "" "" H). lia.
Qed.

Lemma unescape_html_without_ampersand_witness :
  all_chars (fun c => negb (Ascii.eqb c "&")) "a < b; amp; #39;" = true
  /\ unescape_html "a < b; amp; #39;" = "a < b; amp; #39;".
Proof.
  split; [reflexivity|].
  apply (unescape_html_without_ampersand "a < b; amp; #39;"). reflexivity.
Defined.

Lemma get_Some_length (s : string) :
  forall n c, get n s = Some c -> n < length s.
Proof.
  induction s as [|d s IH]; intros [|n] c H; cbn in *; try discriminate.
  - lia.
  - apply IH in H. lia.
Qed.

Lemma length_unescape_loop (input : string) (fuel : nat) :
  forall i acc,
    length (unescape_loop fuel input i acc)
    <= length acc + (length input - i).
Proof.
  induction fuel as [|fuel IH]; intros i acc; cbn [unescape_loop]; [lia|].
  destruct (get i input) as [c|] eqn:G; [|lia].
  apply get_Some_length in G.
  repeat match goal with
         | |- context [if ?b then _ else _] => destruct b
         end;
    match goal with
    | |- length (unescape_loop _ _ ?j ?a) <= _ =>
        specialize (IH j a); rewrite length_append in IH; cbn [length str] in IH
    end; lia.
Qed.

(** X4: decoding never lengthens a text. *)
Theorem length_unescape_html (s : string) :
  length (unescape_html s) <= length s.
Proof.
  unfold unescape_html.
  pose proof (length_unescape_loop s (length s) 0 ""). cbn [length] in *. lia.
Qed.

End CodecFacts.

(** ** The tag-tree serializer *)

Module SerializerFacts.
Import Cpp html html.Serializer StringFacts Spec SerializerSpec.

Ltac norm_append :=
  repeat (progress (rewrite ?append_assoc, ?append_nil_r; cbn [append])).

Lemma serialize_attributes_concat (m : StdMap.t) :
  serialize_attributes m = join (map shown_attribute m).
Proof.
  induction m as [|[k v] m IH]; [reflexivity|].
  cbn [serialize_attributes map join]. rewrite IH.
  unfold shown_attribute; cbn [fst snd].
  norm_append. reflexivity.
Qed.

(** [s.find(pat) == 0] on a non-empty [s] says that [s] begins with [pat]. *)
Lemma find_zero_prefix (s pat : string) :
  pat <> "" ->
  match Cpp.find s pat with Some 0 => true | _ => false end = prefix pat s.
Proof.
  intros Hpat. unfold Cpp.find.
  destruct s as [|c s].
  - destruct pat; [congruence | reflexivity].
  - cbn [index]. destruct (prefix pat (String c s)); [reflexivity|].
    destruct (index 0 pat s); reflexivity.
Qed.

Lemma emits_raw_text_language_code (node : Node) :
  emits_raw_text (tag node) (attributes node) = language_code node.
Proof.
  unfold emits_raw_text, language_code.
  destruct (StdMap.find "class" (attributes node)) as [cls|].
  - rewrite find_zero_prefix by discriminate.
    destruct (tag node =? "code"); [|reflexivity]. cbn [andb].
    destruct cls; reflexivity.
  - now rewrite andb_false_r.
Qed.

Lemma set_count_spec (set : list string) (key : string) :
  set_count set key = true <-> In key set.
Proof.
  unfold set_count. rewrite existsb_exists. split.
  - intros (x & Hin & Heq). apply String.eqb_eq in Heq. now subst.
  - intros Hin. exists key. split; [exact Hin | apply String.eqb_refl].
Qed.

Lemma serialize_children_join (inl : bool) (indent_level : nat)
    (cs : list Node) :
  (fix each (cs : list Node) : string :=
     match cs with
     | [] => ""
     | child :: cs' =>
         (if negb inl then nl else "")
         ++ serialize child (if inl then 0 else indent_level + 1)
         ++ each cs'
     end) cs
  = join (map (fun child =>
                 (if inl then "" else nl)
                 ++ serialize child (if inl then 0 else indent_level + 1))
            cs).
Proof.
  induction cs as [|c cs IH]; [reflexivity|].
  cbn [map join]. rewrite IH.
  destruct inl; cbn [negb]; norm_append; reflexivity.
Qed.

(** The shape of the output for a node that has a tag.  *)
Lemma serialize_tagged (node : Node) (indent_level : nat) :
  tag node <> "" ->
  serialize node indent_level =
    if set_count self_closing_tags (tag node) then
      opening_tag (tag node) (attributes node) indent_level ++ " />"
    else
      opening_tag (tag node) (attributes node) indent_level ++ ">"
      ++ shown_text node
      ++ children_and_closing (tag node) (children node) indent_level.
Proof.
  intros Htag. destruct node as [tg tx attrs cs].
  cbn [tag attributes children] in *.
  cbn [serialize].
  apply String.eqb_neq in Htag. rewrite Htag. cbn [negb].
  rewrite serialize_children_join.
  unfold opening_tag, children_and_closing, shown_text.
  rewrite <- serialize_attributes_concat, <- emits_raw_text_language_code.
  cbn [tag text attributes].
  destruct (set_count self_closing_tags tg).
  - norm_append. reflexivity.
  - assert (Htext :
      (if negb (tx =? "")
       then if emits_raw_text tg attrs then tx else escape_html tx
       else "")
      = (if emits_raw_text tg attrs then tx else escape_html tx)).
    { destruct (String.eqb_spec tx "") as [->|_]; cbn [negb]; [|reflexivity].
      destruct (emits_raw_text tg attrs); reflexivity. }
    rewrite Htext.
    destruct cs as [|c cs];
      destruct (set_count inline_tags tg); cbn [negb];
      norm_append; reflexivity.
Qed.

Lemma serialize_bare (node : Node) (indent_level : nat) :
  tag node = "" ->
  serialize node indent_level =
    if text node =? "" then ""
    else repeat_char (indent_level * 2) " " ++ escape_html (text node).
Proof.
  intros Htag. destruct node as [tg tx attrs cs]. cbn [tag text] in *.
  subst tg. cbn [serialize String.eqb negb].
  destruct (tx =? ""); reflexivity.
Qed.

(** C6: the serializer writes the text of a node through [escape_html],
    except for a node whose tag is [code] and whose [class] attribute
    begins with [language-], whose text it writes as it is.  (Nodes of the
    self-closing set have no text written at all; a node without a tag has
    only its text written.) *)
Theorem serialize_text_escaping (node : Node) (indent_level : nat) :
  set_count self_closing_tags (tag node) = false ->
  serialize node indent_level =
    if tag node =? "" then
      if text node =? "" then ""
      else repeat_char (indent_level * 2) " " ++ escape_html (text node)
    else
      opening_tag (tag node) (attributes node) indent_level ++ ">"
      ++ (if language_code node then text node else escape_html (text node))
      ++ children_and_closing (tag node) (children node) indent_level.
Proof.
  intros Hsc. destruct (String.eqb_spec (tag node) "") as [E|N].
  - now apply serialize_bare.
  - rewrite serialize_tagged by exact N. rewrite Hsc. reflexivity.
Qed.

Lemma serialize_text_escaping_witness :
  set_count self_closing_tags (tag highlighted_code) = false /\
  serialize highlighted_code 0 =
    "<code class=" ++ str dquote ++ "language-c" ++ str dquote
    ++ ">if (a < b) {}</code>".
Proof.
  split; [reflexivity|].
  rewrite (serialize_text_escaping highlighted_code 0); reflexivity.
Defined.

Lemma compare_Gt_ltb (a b : string) :
  String.compare a b = Gt -> String.ltb b a = true.
Proof.
  intros E. unfold String.ltb. rewrite String.compare_antisym, E. reflexivity.
Qed.

(** [insert] keeps the keys strictly increasing. *)
Lemma insert_sorted (key value : string) (m : StdMap.t) :
  StdMap.sorted (StdMap.keys m) ->
  StdMap.sorted (StdMap.keys (StdMap.insert key value m)).
Proof.
  unfold StdMap.keys.
  induction m as [|[k v] m IH]; intros Hs.
  - cbn. tauto.
  - cbn [StdMap.insert].
    destruct (String.compare key k) eqn:E.
    + apply String.compare_eq_iff in E. subst k. exact Hs.
    + cbn [map fst StdMap.sorted]. split; [|exact Hs].
      unfold String.ltb. now rewrite E.
    + cbn [map fst] in Hs. destruct Hs as [Hhd Htl].
      specialize (IH Htl).
      cbn [map fst]. split; [|exact IH].
      destruct m as [|[k' v'] m].
      * cbn. now apply compare_Gt_ltb.
      * cbn [StdMap.insert].
        destruct (String.compare key k'); cbn [map fst].
        -- now apply compare_Gt_ltb.
        -- now apply compare_Gt_ltb.
        -- exact Hhd.
Qed.

(** C7: for every node whose tag is [img], [hr] or [br], the output is the
    opening tag with the attributes in increasing key order and their
    values escaped, closed by [ />]; it ends in [ />] and is the same
    whatever text and children the node carries. *)
Theorem serialize_self_closing (node : Node) (indent_level : nat) :
  In (tag node) ["img"; "hr"; "br"] ->
  StdMap.sorted (StdMap.keys (attributes node)) ->
  serialize node indent_level =
    repeat_char (indent_level * 2) " " ++ "<" ++ tag node
    ++ join
         (map (fun kv => " " ++ fst kv ++ "=" ++ str dquote
                         ++ escape_html (snd kv) ++ str dquote)
              (attributes node))
    ++ " />"
  /\ StdMap.sorted (map fst (attributes node))
  /\ ends_with (serialize node indent_level) " />"
  /\ forall text' children',
       serialize (mkNode (tag node) text' (attributes node) children')
         indent_level
       = serialize node indent_level.
Proof.
  intros Hin Hsorted.
  assert (Hne : tag node <> "").
  { intros E. rewrite E in Hin. cbn in Hin.
    repeat (destruct Hin as [Hin|Hin]; [discriminate|]). exact Hin. }
  assert (Hsc : set_count self_closing_tags (tag node) = true).
  { apply set_count_spec. exact Hin. }
  assert (Hshape : forall text' children',
             serialize (mkNode (tag node) text' (attributes node) children')
               indent_level
             = opening_tag (tag node) (attributes node) indent_level ++ " />").
  { intros text' children'.
    rewrite serialize_tagged by exact Hne. cbn [tag attributes].
    rewrite Hsc. reflexivity. }
  assert (Hnode : serialize node indent_level
                  = opening_tag (tag node) (attributes node) indent_level
                    ++ " />").
  { destruct node as [tg tx attrs cs]. apply Hshape. }
  repeat split.
  - rewrite Hnode. unfold opening_tag. rewrite !append_assoc. reflexivity.
  - exact Hsorted.
  - exists (opening_tag (tag node) (attributes node) indent_level).
    exact Hnode.
  - intros text' children'. rewrite Hshape, Hnode. reflexivity.
Qed.

Lemma serialize_self_closing_witness :
  In (tag image_with_body) ["img"; "hr"; "br"] /\
  StdMap.sorted (StdMap.keys (attributes image_with_body)) /\
  serialize image_with_body 1 =
    "  <img alt=" ++ str dquote ++ "a&lt;b" ++ str dquote
    ++ " src=" ++ str dquote ++ "x.png" ++ str dquote ++ " />".
Proof.
  assert (Hin : In (tag image_with_body) ["img"; "hr"; "br"])
    by (simpl; tauto).
  assert (Hs : StdMap.sorted (StdMap.keys (attributes image_with_body)))
    by (simpl; tauto).
  split; [exact Hin|]. split; [exact Hs|].
  destruct (serialize_self_closing image_with_body 1 Hin Hs) as [Heq _].
  rewrite Heq. reflexivity.
Defined.

(** X5: a node without a tag is written as its escaped text alone, after
    two spaces for each level of indentation: its attributes and its
    children never reach the output, and nothing at all, not even the
    indentation, is written when the text is empty. *)
Theorem serialize_without_tag (node : Node) (indent_level : nat) :
  tag node = "" ->
  serialize node indent_level
    = (if text node =? "" then ""
       else repeat_char (indent_level * 2) " " ++ escape_html (text node))
  /\ serialize node indent_level
     = serialize (mkNode "" (text node) [] []) indent_level
  /\ (text node = "" -> serialize node indent_level = "").
Proof.
  intros Htag.
  pose proof (serialize_bare node indent_level Htag) as Hout.
  split; [exact Hout|]. split.
  - rewrite Hout.
    rewrite (serialize_bare (mkNode "" (text node) [] []) indent_level eq_refl).
    reflexivity.
  - intros Htext. rewrite Hout, Htext. reflexivity.
Qed.

Lemma serialize_without_tag_witness :
  tag (mkNode "" "a & b" [("id", "x")] [mkNode "p" "lost" [] []]) = ""
  /\ serialize (mkNode "" "a & b" [("id", "x")] [mkNode "p" "lost" [] []]) 1
     = "  a &amp; b".
Proof.
  split; [reflexivity|].
  rewrite (proj1 (serialize_without_tag
                    (mkNode "" "a & b" [("id", "x")] [mkNode "p" "lost" [] []])
                    1 eq_refl)).
  reflexivity.
Defined.

End SerializerFacts.

(** ** The engine on the inputs the specification pins *)

Module Pinned.
Import Cpp Regex markdown markdown.Deserializer.

(** C1: [Serializer::markdown] and [Serializer::html] on a [Link] node
    built by hand without an [href] attribute: [attributes.at("href")]
    throws [std::out_of_range], so neither call returns a string.  The
    same happens for an [Image] node without [src] or [alt]. *)
Theorem render_link_without_href_throws :
  Serializer.markdown (Node_text Link "x") = Throw out_of_range
  /\ Serializer.html (Node_text Link "x") = Throw out_of_range
  /\ Serializer.markdown (Node_of Image) = Throw out_of_range
  /\ Serializer.html (Node_of Image) = Throw out_of_range.
Proof. repeat split; reflexivity. Qed.

(** C3: on the two lines [text] and [# Head] the paragraph loop does not
    stop at the heading line, because [regex_match] wants the whole line to
    be hashes followed by white space: the document is one [Paragraph]
    holding the text [text # Head], and no [Heading]. *)
Theorem paragraph_swallows_heading_line :
  deserialize ("text" ++ nl ++ "# Head") =
    mkNode Document "" [] [
      mkNode Paragraph "" [] [Node_text Text "text # Head"] 0
    ] 0
  /\ matches "# Head" heading_prefix_regex = false
  /\ matches "# Head" heading_regex = true.
Proof. repeat split; vm_compute; reflexivity. Qed.

(** C4: [parse_markdown] on the image literal yields one [Paragraph] whose
    children are the [Text] node of the stray exclamation mark and a
    [Link] node with text [alt] and [href] equal to [src]; the link pattern,
    tried before the image pattern, matches from index 1 on, although the
    image pattern matches the whole literal. *)
Theorem image_literal_parsed_as_link :
  deserialize "![alt](src)" =
    mkNode Document "" [] [
      mkNode Paragraph "" [] [
        Node_text Text "!";
        mkNode Link "alt" [("href", "src")] [] 0
      ] 0
    ] 0
  /\ option_map (fun m => (prefix_length m, match_length m))
       (regex_search "![alt](src)" link_regex) = Some (1, 10)
  /\ option_map (fun m => (prefix_length m, match_length m))
       (regex_search "![alt](src)" img_regex) = Some (0, 11).
Proof. repeat split; vm_compute; reflexivity. Qed.

(** C9: a text chunk that is followed by a child element is stored
    unescaped but not trimmed: only the chunk after the last child goes
    through the trimming. *)
Theorem text_before_child_not_trimmed :
  html.Deserializer.deserialize "<p> a <b>x</b></p>" =
    Ok (html.mkNode "p" " a " [] [html.mkNode "b" "x" [] []])
  /\ html.Deserializer.deserialize "<p><b>x</b> a </p>" =
    Ok (html.mkNode "p" "a" [] [html.mkNode "b" "x" [] []]).
Proof. repeat split; vm_compute; reflexivity. Qed.

End Pinned.

(** ** The list rule of the block parser *)

Module ListFacts.
Import Cpp Regex markdown markdown.Deserializer Spec MarkdownSpec.

Lemma same_header_refl (a : Node) : same_header a a.
Proof. repeat split. Qed.

Lemma same_header_trans (a b c : Node) :
  same_header a b -> same_header b c -> same_header a c.
Proof.
  intros (H1 & H2 & H3 & H4) (K1 & K2 & K3 & K4).
  repeat split; congruence.
Qed.

Lemma push_child_header (n c : Node) : same_header (push_child n c) n.
Proof. repeat split. Qed.

Lemma flush_before_header (remaining : string) (pos match_pos : nat)
    (n : Node) :
  same_header (flush_before remaining pos match_pos n) n.
Proof.
  unfold flush_before.
  destruct (Nat.ltb pos match_pos); [|apply same_header_refl].
  destruct (negb _); [apply push_child_header | apply same_header_refl].
Qed.

Create HintDb header.
#[local] Hint Resolve same_header_refl push_child_header
  flush_before_header : header.

Lemma parse_inline_loop_header (fuel : nat) :
  forall (remaining : string) (pos : nat) (n : Node),
    same_header (parse_inline_loop fuel remaining pos n) n.
Proof.
  induction fuel as [|fuel IH]; intros remaining pos n;
    cbn [parse_inline_loop]; [apply same_header_refl|].
  destruct (Nat.ltb pos (length remaining)); [|apply same_header_refl].
  repeat
    match goal with
    | |- same_header (match ?o with Some _ => _ | None => _ end) _ =>
        destruct o
    end;
    try (eapply same_header_trans; [apply IH|];
         eapply same_header_trans; [apply push_child_header|];
         apply flush_before_header).
  destruct (negb _); auto with header.
Qed.

Lemma parse_inline_header (text : string) (n : Node) :
  same_header (parse_inline text n) n.
Proof.
  unfold parse_inline. destruct (text =? ""); [apply same_header_refl|].
  pose proof (parse_inline_loop_header (length text) text 0 n) as H.
  destruct (children _); [|exact H].
  destruct (negb _); [|exact H].
  eapply same_header_trans; [apply push_child_header | exact H].
Qed.

(** Every item is a [ListItem] that carries [ordered = "true"] exactly
    when the list is ordered, and nothing else. *)
Lemma list_item_header (is_ordered : bool) (m : smatch) :
  type (list_item is_ordered m) = ListItem
  /\ attributes (list_item is_ordered m)
     = if is_ordered then [("ordered", "true")] else [].
Proof.
  unfold list_item.
  destruct (parse_inline_header (sub m 2)
              (if is_ordered
               then set_attribute (Node_of ListItem) "ordered" "true"
               else Node_of ListItem)) as (Ht & _ & Ha & _).
  rewrite Ht, Ha. destruct is_ordered; split; reflexivity.
Qed.

Lemma nth_error_skipn {A : Type} (l : list A) (n : nat) :
  skipn n l =
    match nth_error l n with
    | Some x => x :: skipn (S n) l
    | None => []
    end.
Proof.
  revert l. induction n as [|n IH]; intros [|x l]; try reflexivity.
  cbn [nth_error]. rewrite <- IH. reflexivity.
Qed.

(** The loop of the list rule takes exactly the uninterrupted run of
    bullet lines that starts at the cursor. *)
Lemma parse_list_items_run (fuel : nat) :
  forall (lines : list string) (pos : nat) (is_ordered : bool)
         (list_node : Node),
    List.length lines - pos <= fuel ->
    parse_list_items fuel lines pos is_ordered list_node =
      (pos + List.length (bullet_run (skipn pos lines)),
       mkNode (type list_node) (text list_node) (attributes list_node)
         (children list_node
          ++ map (list_item is_ordered) (bullet_run (skipn pos lines)))%list
         (level list_node)).
Proof.
  induction fuel as [|fuel IH]; intros lines pos is_ordered list_node Hfuel;
    cbn [parse_list_items]; rewrite (nth_error_skipn lines pos).
  - assert (Hnone : nth_error lines pos = None)
      by (apply nth_error_None; lia).
    rewrite Hnone. cbn [bullet_run map List.length].
    rewrite Nat.add_0_r, app_nil_r. destruct list_node; reflexivity.
  - destruct (nth_error lines pos) as [l|] eqn:Hnth.
    + cbn [bullet_run]. destruct (item_match l) as [m|].
      * assert (Hlt : pos < List.length lines)
          by (apply nth_error_Some; congruence).
        rewrite IH by lia.
        replace (pos + 1) with (S pos) by lia.
        cbn [map List.length push_child type text attributes children level].
        rewrite <- app_assoc. cbn [app].
        f_equal. lia.
      * cbn [map List.length]. rewrite Nat.add_0_r, app_nil_r.
        destruct list_node; reflexivity.
    + cbn [bullet_run map List.length].
      rewrite Nat.add_0_r, app_nil_r. destruct list_node; reflexivity.
Qed.

(** C8: when [parse_block] applies the list rule at [lines[pos]], it
    appends one [List] node whose children are, in order, one [ListItem]
    for the line at the cursor and for every following line up to the
    first that matches neither bullet pattern; [is_ordered] is decided on
    the first line alone, and every item carries the attribute
    [ordered = "true"] when it holds and no attribute when it does not.
    The three-line unordered list of the specification parses to one
    [List] of three items holding [a], [b] and [c] as their text child,
    none with an [ordered] attribute. *)
Theorem list_rule_flat_items (lines : list string) (pos : nat)
    (parent : Node) (line : string) :
  nth_error lines pos = Some line ->
  reaches_list_rule line = true ->
  let is_ordered := matches line ordered_regex in
  let items := map (list_item is_ordered) (bullet_run (skipn pos lines)) in
  parse_block lines pos parent =
    (pos + List.length items,
     push_child parent (mkNode List "" [] items 0))
  /\ 1 <= List.length items
  /\ Forall (fun item =>
               type item = ListItem
               /\ attributes item
                  = if is_ordered then [("ordered", "true")] else [])
       items
  /\ deserialize ("- a" ++ nl ++ "- b" ++ nl ++ "- c") =
       mkNode Document "" [] [
         mkNode List "" [] [
           mkNode ListItem "" [] [Node_text Text "a"] 0;
           mkNode ListItem "" [] [Node_text Text "b"] 0;
           mkNode ListItem "" [] [Node_text Text "c"] 0
         ] 0
       ] 0.
Proof.
  intros Hnth Hrule is_ordered items.
  unfold reaches_list_rule in Hrule.
  repeat (apply andb_prop in Hrule; destruct Hrule as [Hrule ?]).
  repeat
    match goal with
    | H : negb _ = true |- _ => apply negb_true_iff in H
    | H : is_none ?o = true |- _ => destruct o eqn:?; [discriminate H|clear H]
    | H : is_none ?o = false |- _ => destruct o eqn:?; [clear H|discriminate H]
    end.
  split; [|split; [|split]].
  - unfold parse_block. rewrite Hnth.
    repeat match goal with
           | H : _ = _ |- _ => rewrite H
           end.
    rewrite parse_list_items_run by lia.
    subst items. rewrite length_map. reflexivity.
  - subst items. rewrite length_map, (nth_error_skipn lines pos), Hnth.
    cbn [bullet_run].
    match goal with H : item_match line = Some _ |- _ => rewrite H end.
    cbn [List.length]. lia.
  - subst items. apply Forall_forall. intros item Hin.
    apply in_map_iff in Hin. destruct Hin as (m & <- & _).
    apply list_item_header.
  - vm_compute. reflexivity.
Qed.

Lemma list_rule_flat_items_witness :
  nth_error ["1. one"; "- two"; "* three"; ""; "- other"] 0 = Some "1. one"
  /\ reaches_list_rule "1. one" = true
  /\ parse_block ["1. one"; "- two"; "* three"; ""; "- other"] 0
       (Node_of Document) =
     (3, mkNode Document "" [] [
           mkNode List "" [] [
             mkNode ListItem "" [("ordered", "true")] [Node_text Text "one"] 0;
             mkNode ListItem "" [("ordered", "true")] [Node_text Text "two"] 0;
             mkNode ListItem "" [("ordered", "true")] [Node_text Text "three"] 0
           ] 0
         ] 0).
Proof.
  assert (Hnth : nth_error ["1. one"; "- two"; "* three"; ""; "- other"] 0
                 = Some "1. one") by reflexivity.
  assert (Hrule : reaches_list_rule "1. one" = true) by (vm_compute; reflexivity).
  split; [exact Hnth|]. split; [exact Hrule|].
  destruct (list_rule_flat_items _ 0 (Node_of Document) _ Hnth Hrule)
    as [Heq _].
  rewrite Heq. vm_compute. reflexivity.
Defined.

End ListFacts.

(** ** The strict tag-tree parser *)

Module ParserFacts.
Import Cpp html html.Deserializer StringFacts Spec ParserSpec.

Lemma get_Some_lt (s : string) : forall n c, get n s = Some c -> n < length s.
Proof.
  induction s as [|d s IH]; intros [|n] c H; cbn in *; try discriminate.
  - lia.
  - apply IH in H. lia.
Qed.

Lemma get_None_ge (s : string) : forall n, get n s = None -> length s <= n.
Proof.
  induction s as [|d s IH]; intros [|n] H; cbn in *; try discriminate.
  - lia.
  - lia.
  - apply IH in H. lia.
Qed.

Lemma at_pos_true (html : string) (pos : nat) (p : ascii -> bool) :
  at_pos html pos p = true ->
  exists c, get pos html = Some c /\ p c = true /\ pos < length html.
Proof.
  unfold at_pos. destruct (get pos html) as [c|] eqn:E; [|discriminate].
  intros H. exists c. repeat split; auto. eapply get_Some_lt; eauto.
Qed.

(** *** The scanning loops only move forward *)

Lemma collect_while_mono (fuel : nat) (p : ascii -> bool) (f : ascii -> ascii)
    (html : string) :
  forall pos acc, pos <= snd (collect_while fuel p f html pos acc).
Proof.
  induction fuel as [|fuel IH]; intros pos acc; cbn [collect_while].
  - cbn. lia.
  - destruct (get pos html) as [c|]; [|cbn; lia].
    destruct (p c); [|cbn; lia].
    specialize (IH (pos + 1) (acc ++ str (f c))). lia.
Qed.

Lemma collect_mono p f html pos : pos <= snd (collect p f html pos).
Proof. apply collect_while_mono. Qed.

Lemma collect_first_true p f html pos c :
  get pos html = Some c -> p c = true -> pos < snd (collect p f html pos).
Proof.
  intros Hget Hp. unfold collect.
  pose proof (get_Some_lt _ _ _ Hget) as Hlt.
  destruct (length html - pos) as [|fuel] eqn:E; [lia|].
  cbn [collect_while]. rewrite Hget, Hp.
  pose proof (collect_while_mono fuel p f html (pos + 1) ("" ++ str (f c))).
  lia.
Qed.

Lemma collect_first_false p f html pos c :
  get pos html = Some c -> p c = false -> collect p f html pos = ("", pos).
Proof.
  intros Hget Hp. unfold collect.
  destruct (length html - pos) as [|fuel]; cbn [collect_while];
    [reflexivity|]. now rewrite Hget, Hp.
Qed.

Lemma skip_whitespace_mono html pos : pos <= skip_whitespace html pos.
Proof. apply collect_mono. Qed.

Lemma skip_whitespace_stay html pos c :
  get pos html = Some c -> isspace c = false -> skip_whitespace html pos = pos.
Proof.
  intros Hget Hc. unfold skip_whitespace.
  now rewrite (collect_first_false _ _ _ _ _ Hget Hc).
Qed.

(** *** The attribute loop *)

Lemma parse_attribute_value_mono html pos :
  pos <= snd (parse_attribute_value html pos).
Proof.
  unfold parse_attribute_value.
  destruct (at_pos html pos (is_char "=")); [|cbn; lia].
  pose proof (skip_whitespace_mono html (pos + 1)) as M.
  destruct (at_pos html _ (is_char dquote)).
  - pose proof (collect_mono (fun c => negb (Ascii.eqb c dquote))
                  (fun c => c) html (skip_whitespace html (pos + 1) + 1)) as M'.
    destruct (collect _ _ html _) as [value p]. cbn [snd] in *.
    destruct (Nat.ltb p (length html)); lia.
  - pose proof (collect_mono tag_char (fun c => c) html
                  (skip_whitespace html (pos + 1))) as M'.
    lia.
Qed.

Lemma parse_attribute_value_progress html pos :
  at_pos html pos (is_char "=") = true ->
  pos < snd (parse_attribute_value html pos).
Proof.
  intros Heq. unfold parse_attribute_value. rewrite Heq.
  pose proof (skip_whitespace_mono html (pos + 1)) as M.
  destruct (at_pos html _ (is_char dquote)).
  - pose proof (collect_mono (fun c => negb (Ascii.eqb c dquote))
                  (fun c => c) html (skip_whitespace html (pos + 1) + 1)) as M'.
    destruct (collect _ _ html _) as [value p]. cbn [snd] in *.
    destruct (Nat.ltb p (length html)); lia.
  - pose proof (collect_mono tag_char (fun c => c) html
                  (skip_whitespace html (pos + 1))) as M'.
    lia.
Qed.

(** A round of the attribute loop that starts on a character other than
    the two that end the loop consumes something. *)
Lemma parse_attribute_progress html pos node :
  at_pos html pos
    (fun c => negb (Ascii.eqb c ">") && negb (Ascii.eqb c "/")) = true ->
  pos < snd (parse_attribute html pos node).
Proof.
  intros Hat. apply at_pos_true in Hat. destruct Hat as (c & Hget & Hc & Hlt).
  apply andb_prop in Hc. destruct Hc as [Hgt Hslash].
  unfold parse_attribute.
  destruct (key_char c) eqn:Hkey.
  - (* the key loop consumes [c] *)
    pose proof (collect_first_true key_char tolower html pos c Hget Hkey) as P.
    destruct (collect key_char tolower html pos) as [key p1]. cbn [snd] in P.
    pose proof (skip_whitespace_mono html p1) as M2.
    pose proof (parse_attribute_value_mono html (skip_whitespace html p1)) as M3.
    destruct (parse_attribute_value html _) as [value p3]. cbn [snd] in *.
    pose proof (skip_whitespace_mono html p3). lia.
  - rewrite (collect_first_false key_char tolower html pos c Hget Hkey).
    destruct (isspace c) eqn:Hsp.
    + (* the white space after the empty key is consumed *)
      assert (P : pos < skip_whitespace html pos).
      { unfold skip_whitespace. eapply collect_first_true; eauto. }
      pose proof (parse_attribute_value_mono html (skip_whitespace html pos))
        as M3.
      destruct (parse_attribute_value html _) as [value p3]. cbn [snd] in *.
      pose proof (skip_whitespace_mono html p3). lia.
    + (* the character is the equals sign *)
      rewrite (skip_whitespace_stay html pos c Hget Hsp).
      assert (Heq : at_pos html pos (is_char "=") = true).
      { unfold at_pos, is_char. rewrite Hget.
        unfold key_char in Hkey. rewrite Hgt, Hslash, Hsp in Hkey.
        cbn [negb] in Hkey. rewrite !andb_true_r in Hkey.
        now apply negb_false_iff in Hkey. }
      pose proof (parse_attribute_value_progress html pos Heq) as M3.
      destruct (parse_attribute_value html pos) as [value p3]. cbn [snd] in *.
      pose proof (skip_whitespace_mono html p3). lia.
Qed.

(** With the counter at the number of characters left, the attribute loop
    ends by its own condition. *)
Lemma parse_attributes_ok (fuel : nat) (html : string) :
  forall pos node,
    length html - pos <= fuel ->
    exists node' pos',
      parse_attributes fuel html pos node = Ok (node', pos') /\ pos <= pos'.
Proof.
  induction fuel as [|fuel IH]; intros pos node Hfuel;
    cbn [parse_attributes];
    destruct (at_pos html pos _) eqn:Hat;
    try (exists node, pos; split; [reflexivity | lia]).
  - apply at_pos_true in Hat. destruct Hat as (c & _ & _ & Hlt). lia.
  - pose proof (parse_attribute_progress html pos node Hat) as P.
    destruct (parse_attribute html pos node) as [node1 pos1]. cbn [snd] in P.
    destruct (IH pos1 node1) as (node' & pos' & E & Hle); [lia|].
    exists node', pos'. split; [exact E | lia].
Qed.

(** *** The opening tag *)

Lemma parse_opening_post (html : string) (pos : nat) :
  opening_post html pos (parse_opening html pos).
Proof.
  unfold parse_opening.
  pose proof (skip_whitespace_mono html pos) as M0.
  assert (Hstay : at_pos html pos (is_char "<") = true ->
                  skip_whitespace html pos = pos).
  { intros H. apply at_pos_true in H. destruct H as (c & Hget & Hc & _).
    apply (skip_whitespace_stay html pos c Hget).
    unfold is_char in Hc. apply Ascii.eqb_eq in Hc. subst c. reflexivity. }
  destruct (at_pos html (skip_whitespace html pos) (is_char "<")) eqn:Hlt;
    cbn [negb].
  - destruct (Nat.leb (length html) (skip_whitespace html pos + 1)) eqn:Hend.
    + cbn. eexists; reflexivity.
    + apply Nat.leb_gt in Hend.
      destruct (at_pos html (skip_whitespace html pos + 1) (is_char "/"))
        eqn:Hslash.
      * cbn. split; [lia|]. intros H. rewrite (Hstay H) in Hslash.
        exact Hslash.
      * pose proof (collect_mono tag_char tolower html
                      (skip_whitespace html pos + 1)) as M1.
        destruct (collect tag_char tolower html _) as [tg p1].
        cbn [snd] in M1.
        destruct (tg =? ""); [cbn; eexists; reflexivity|].
        pose proof (skip_whitespace_mono html p1) as M2.
        destruct (parse_attributes_ok (length html - skip_whitespace html p1)
                    html (skip_whitespace html p1) (set_tag Node_default tg))
          as (node' & p3 & E & M3); [lia|].
        rewrite E. cbn [bind].
        destruct (at_pos html p3 (is_char "/")).
        -- cbn. destruct (at_pos html (p3 + 1) (is_char ">")); lia.
        -- destruct (at_pos html p3 (is_char ">")) eqn:Hgt.
           ++ apply at_pos_true in Hgt. destruct Hgt as (c & _ & _ & Hp3).
              cbn. lia.
           ++ cbn. eexists; reflexivity.
  - cbn. split; [lia|]. intros H. rewrite (Hstay H) in Hlt. congruence.
Qed.

(** *** The closing tag *)

Lemma drop_get (html : string) :
  forall q c, get q html = Some c ->
              drop q html = String c (drop (S q) html).
Proof.
  induction html as [|d html IH]; intros [|q] c H; cbn in *;
    try discriminate.
  - injection H as ->. destruct html; reflexivity.
  - rewrite (IH q c H). reflexivity.
Qed.


(** The loop that reads the name of a closing tag, when it stops inside
    the input, has read the lower-cased characters up to the next closing
    bracket. *)
Lemma collect_until_bracket (fuel : nat) (html : string) :
  forall pos acc r p,
    collect_while fuel (fun c => negb (Ascii.eqb c ">")) tolower html pos acc
      = (r, p) ->
    length html - pos <= fuel ->
    p < length html ->
    exists name,
      name_until_bracket (drop pos html) = Some name /\ r = acc ++ name.
Proof.
  induction fuel as [|fuel IH]; intros pos acc r p E Hfuel Hp;
    cbn [collect_while] in E.
  - injection E as <- <-. lia.
  - destruct (get pos html) as [c|] eqn:Hget.
    + rewrite (drop_get html pos c Hget). cbn [name_until_bracket].
      destruct (Ascii.eqb c ">"); cbn [negb] in E.
      * injection E as <- <-. exists "". split; [reflexivity|].
        now rewrite append_nil_r.
      * pose proof (get_Some_lt _ _ _ Hget).
        destruct (IH (pos + 1) (acc ++ str (tolower c)) r p E) as
          (name & Hname & ->); [lia | exact Hp |].
        replace (S pos) with (pos + 1) by lia. rewrite Hname.
        exists (String (tolower c) name). split; [reflexivity|].
        rewrite append_assoc. reflexivity.
    + injection E as <- <-. apply get_None_ge in Hget. lia.
Qed.

(** [parse_closing] returns only when a closing tag for [tag] begins at
    the cursor. *)
Lemma parse_closing_post (html tag : string) (node : Node) (text : string)
    (q : nat) :
  closing_post html tag q (parse_closing html tag node text q).
Proof.
  unfold parse_closing.
  destruct (at_pos html q (is_char "<")) eqn:H1; cbn [andb];
    [|cbn; eexists; reflexivity].
  destruct (at_pos html (q + 1) (is_char "/")) eqn:H2;
    [|cbn; eexists; reflexivity].
  destruct (collect _ tolower html (q + 2)) as [end_tag p] eqn:E.
  destruct (String.eqb_spec end_tag tag) as [->|N]; cbn [negb];
    [|cbn; eexists; reflexivity].
  destruct (Nat.ltb p (length html)) eqn:Hp; [|cbn; eexists; reflexivity].
  apply Nat.ltb_lt in Hp. cbn.
  pose proof (collect_mono (fun c => negb (Ascii.eqb c ">")) tolower html
                (q + 2)) as M.
  rewrite E in M. cbn [snd] in M. split; [lia|].
  apply at_pos_true in H1. destruct H1 as (c1 & G1 & C1 & _).
  apply at_pos_true in H2. destruct H2 as (c2 & G2 & C2 & _).
  unfold is_char in C1, C2.
  unfold closing_tag_at.
  rewrite (drop_get html q c1 G1).
  replace (S q) with (q + 1) by lia.
  rewrite (drop_get html (q + 1) c2 G2).
  rewrite C1, C2. cbn [andb].
  unfold collect in E.
  destruct (collect_until_bracket _ html (q + 2) "" tag p E) as
    (name & Hname & Heq); [lia | exact Hp |].
  replace (S (q + 1)) with (q + 2) by lia. rewrite Hname.
  cbn [append] in Heq. subst name. apply String.eqb_refl.
Qed.


(** *** The recursion *)

(** The cursor never moves back, a child element consumes input, and the
    only exception is [std::invalid_argument]. *)
Lemma parse_post (html : string) (fuel : nat) :
  (forall pos, node_post html pos (parse_node fuel html pos))
  /\ (forall pos text node,
        body_post pos (parse_body fuel html pos text node)).
Proof.
  induction fuel as [|fuel [IHn IHb]]; [split; intros; exact I|].
  split.
  - intros pos. cbn [parse_node].
    pose proof (parse_opening_post html pos) as O.
    destruct (parse_opening html pos) as [[p|nd p|nd tg body]|e|];
      cbn [bind opening_post] in *.
    + destruct O as [Hle Hsl]. split; [exact Hle|].
      intros H1 H2. rewrite (Hsl H1) in H2. discriminate.
    + split; intros; lia.
    + destruct O as [Hb1 Hb2].
      pose proof (IHb body "" nd) as B.
      destruct (parse_body fuel html body "" nd) as [[[nd' tx] q]|e|];
        cbn [bind body_post] in *; [|exact B|exact I].
      pose proof (parse_closing_post html tg nd' tx q) as C.
      destruct (parse_closing html tg nd' tx q) as [[nd'' p']|e|];
        cbn [closing_post node_post] in *; [|exact C|exact I].
      split; intros; lia.
    + exact O.
    + exact I.
  - intros pos text node. cbn [parse_body].
    destruct (get pos html) as [c|] eqn:Hget; [|cbn; lia].
    destruct (Ascii.eqb c "<") eqn:Hc.
    + destruct (at_pos html (pos + 1) (is_char "/")) eqn:Hsl; [cbn; lia|].
      destruct (if negb (text =? "")
                then (set_text node (unescape_html text), "")
                else (node, text)) as [node1 text1].
      pose proof (IHn pos) as N.
      destruct (parse_node fuel html pos) as [[child p1]|e|];
        cbn [bind node_post] in *; [|exact N|exact I].
      destruct N as [Hle _].
      match goal with
      | |- body_post _ (parse_body _ _ _ ?t ?n) =>
          pose proof (IHb p1 t n) as B;
          destruct (parse_body fuel html p1 t n) as [[[nd' tx] q]|e|]
      end; cbn [body_post] in *; [lia|exact B|exact I].
    + pose proof (IHb (pos + 1) (text ++ str c) node) as B.
      destruct (parse_body fuel html (pos + 1) (text ++ str c) node)
        as [[[nd' tx] q]|e|]; cbn [body_post] in *; [lia|exact B|exact I].
Qed.

(** With the counter at the number of characters left (plus one), the
    parser ends by itself: the counter does not run out. *)
Lemma parse_adequate (html : string) (fuel : nat) :
  (forall pos, length html - pos <= fuel -> 1 <= fuel ->
               parse_node fuel html pos <> OutOfFuel)
  /\ (forall pos text node, length html - pos < fuel ->
        parse_body fuel html pos text node <> OutOfFuel).
Proof.
  induction fuel as [|fuel [IHn IHb]]; [split; intros; lia|].
  split.
  - intros pos Hfuel _. cbn [parse_node].
    pose proof (parse_opening_post html pos) as O.
    destruct (parse_opening html pos) as [[p|nd p|nd tg body]|e|];
      cbn [bind opening_post] in *; try discriminate; [|contradiction].
    destruct O as [Hb1 Hb2].
    assert (Hb : length html - body < fuel) by lia.
    specialize (IHb body "" nd Hb).
    destruct (parse_body fuel html body "" nd) as [[[nd' tx] q]|e|];
      cbn [bind]; [|discriminate|congruence].
    pose proof (parse_closing_post html tg nd' tx q) as C.
    destruct (parse_closing html tg nd' tx q) as [[nd'' p']|e|];
      cbn [closing_post] in *; try discriminate. contradiction.
  - intros pos text node Hfuel. cbn [parse_body].
    destruct (get pos html) as [c|] eqn:Hget; [|discriminate].
    pose proof (get_Some_lt _ _ _ Hget) as Hlt.
    destruct (Ascii.eqb c "<") eqn:Hc.
    + destruct (at_pos html (pos + 1) (is_char "/")) eqn:Hsl; [discriminate|].
      destruct (if negb (text =? "")
                then (set_text node (unescape_html text), "")
                else (node, text)) as [node1 text1].
      assert (Hn : parse_node fuel html pos <> OutOfFuel)
        by (apply IHn; lia).
      pose proof (proj1 (parse_post html fuel) pos) as N.
      destruct (parse_node fuel html pos) as [[child p1]|e|];
        cbn [bind node_post] in *; [|discriminate|congruence].
      destruct N as [_ Hprog].
      assert (pos < p1).
      { apply Hprog; [|exact Hsl]. unfold at_pos, is_char.
        now rewrite Hget. }
      apply IHb. lia.
    + apply IHb. lia.
Qed.








(** X6: the parser always ends, in a node with a tag or in
    [std::invalid_argument]: no other exception leaves [deserialize], and
    the depth bound of the embedding is never reached. *)
Theorem deserialize_node_or_invalid_argument (html : string) :
  (exists node, deserialize html = Ok node /\ tag node <> "")
  \/ (exists what, deserialize html = Throw (invalid_argument what)).
Proof.
  unfold deserialize.
  pose proof (proj1 (parse_adequate html (S (length html))) 0) as A.
  pose proof (proj1 (parse_post html (S (length html))) 0) as P.
  destruct (parse_node (S (length html)) html 0) as [[node p]|e|];
    cbn [bind node_post] in *.
  - destruct (String.eqb_spec (tag node) "") as [E|N].
    + right. eexists; reflexivity.
    + left. exists node. split; [reflexivity | exact N].
  - right. destruct P as [what ->]. eexists; reflexivity.
  - exfalso. apply A; [lia | lia | reflexivity].
Qed.

(** *** The names in a parsed tree *)

Lemma collect_while_all_chars (q : ascii -> bool) (p : ascii -> bool)
    (f : ascii -> ascii) (html : string) :
  (forall c, p c = true -> q (f c) = true) ->
  forall fuel pos acc,
    all_chars q acc = true ->
    all_chars q (fst (collect_while fuel p f html pos acc)) = true.
Proof.
  intros Hq. induction fuel as [|fuel IH]; intros pos acc Hacc;
    cbn [collect_while]; [exact Hacc|].
  destruct (get pos html) as [c|]; [|exact Hacc].
  destruct (p c) eqn:Hp; [|exact Hacc].
  apply IH. clear IH.
  induction acc as [|d acc IHacc]; cbn in *.
  - now rewrite (Hq c Hp).
  - apply andb_prop in Hacc. destruct Hacc as [Hd Hacc].
    now rewrite Hd, (IHacc Hacc).
Qed.

Lemma tolower_tag_char (c : ascii) :
  tag_char c = true ->
  tag_char (tolower c) && negb (isupper (tolower c)) = true.
Proof.
  destruct c as [[] [] [] [] [] [] [] []]; vm_compute; intros H;
    first [reflexivity | discriminate H].
Qed.

Lemma parse_attribute_keeps (html : string) (pos : nat) (node : Node) :
  tag (fst (parse_attribute html pos node)) = tag node
  /\ children (fst (parse_attribute html pos node)) = children node.
Proof.
  unfold parse_attribute.
  destruct (collect key_char tolower html pos) as [key p1].
  destruct (parse_attribute_value html (skip_whitespace html p1))
    as [value p2].
  destruct (negb (key =? "")); split; reflexivity.
Qed.

Lemma parse_attributes_keeps (fuel : nat) (html : string) :
  forall pos node node' pos',
    parse_attributes fuel html pos node = Ok (node', pos') ->
    tag node' = tag node /\ children node' = children node.
Proof.
  induction fuel as [|fuel IH]; intros pos node node' pos' E;
    cbn [parse_attributes] in E;
    destruct (at_pos html pos _); try discriminate;
    try (injection E as <- <-; split; reflexivity).
  pose proof (parse_attribute_keeps html pos node) as [Kt Kc].
  destruct (parse_attribute html pos node) as [node1 pos1].
  cbn [fst] in *.
  destruct (IH _ _ _ _ E) as [Ht Hc]. split; congruence.
Qed.

(** An opened or self-closed element has a parsed name and, so far, no
    children. *)
Lemma parse_opening_name (html : string) (pos : nat) :
  match parse_opening html pos with
  | Ok (SelfClosed node _) => parsed_name (tag node) = true /\ children node = []
  | Ok (Opened node tg _) =>
      tag node = tg /\ parsed_name tg = true /\ children node = []
  | _ => True
  end.
Proof.
  unfold parse_opening.
  destruct (at_pos html (skip_whitespace html pos) (is_char "<"));
    cbn [negb]; [|exact I].
  destruct (Nat.leb _ _); [exact I|].
  destruct (at_pos html _ (is_char "/")); [exact I|].
  pose proof (collect_while_all_chars
                (fun c => tag_char c && negb (isupper c)) tag_char tolower
                html tolower_tag_char
                (length html - (skip_whitespace html pos + 1))
                (skip_whitespace html pos + 1) "" eq_refl) as Hname.
  fold (collect tag_char tolower html (skip_whitespace html pos + 1)) in Hname.
  destruct (collect tag_char tolower html _) as [tg p1]. cbn [fst] in Hname.
  destruct (tg =? "") eqn:Etg; [exact I|].
  assert (Hparsed : parsed_name tg = true).
  { unfold parsed_name. now rewrite Etg, Hname. }
  destruct (parse_attributes _ html _ (set_tag Node_default tg))
    as [[node' p3]|e|] eqn:E; cbn [bind]; try exact I.
  apply parse_attributes_keeps in E. cbn [set_tag tag children] in E.
  destruct E as [Ht Hc].
  destruct (at_pos html p3 (is_char "/")).
  - rewrite Ht. split; [exact Hparsed | exact Hc].
  - destruct (at_pos html p3 (is_char ">")); [|exact I].
    repeat split; assumption.
Qed.

Lemma parsed_tree_unfold (n : Node) :
  parsed_tree n = parsed_name (tag n) && forallb parsed_tree (children n).
Proof. destruct n; reflexivity. Qed.

Lemma parse_closing_keeps (html tg : string) (node : Node) (text : string)
    (q : nat) (node' : Node) (p : nat) :
  parse_closing html tg node text q = Ok (node', p) ->
  tag node' = tag node /\ children node' = children node.
Proof.
  unfold parse_closing.
  destruct (_ && _); [|discriminate].
  destruct (collect _ tolower html (q + 2)) as [end_tag p1].
  destruct (negb _); [discriminate|].
  destruct (Nat.ltb p1 (length html)); [|discriminate].
  intros E. injection E as <- <-.
  destruct (negb (text =? "")); split; reflexivity.
Qed.

(** Every element [parse_node] returns is a parsed tree; the body loop
    keeps the tag of its node and only appends parsed trees to it. *)
Lemma parse_tree (html : string) (fuel : nat) :
  (forall pos node p,
      parse_node fuel html pos = Ok (node, p) ->
      tag node = "" \/ parsed_tree node = true)
  /\ (forall pos text node node' text' p,
        parse_body fuel html pos text node = Ok (node', text', p) ->
        kids_parsed node ->
        tag node' = tag node /\ kids_parsed node').
Proof.
  induction fuel as [|fuel [IHn IHb]];
    [split; intros; discriminate|].
  split.
  - intros pos node p E. cbn [parse_node] in E.
    pose proof (parse_opening_name html pos) as O.
    destruct (parse_opening html pos) as [[q|nd q|nd tg body]|e|];
      cbn [bind] in E; try discriminate.
    + injection E as <- <-. left. reflexivity.
    + injection E as <- <-. right. destruct O as [Hn Hc].
      rewrite parsed_tree_unfold, Hn, Hc. reflexivity.
    + destruct O as (Ht & Hn & Hc).
      destruct (parse_body fuel html body "" nd) as [[[nd1 tx] q]|e|] eqn:B;
        cbn [bind] in E; try discriminate.
      assert (K0 : kids_parsed nd) by (unfold kids_parsed; now rewrite Hc).
      destruct (IHb _ _ _ _ _ _ B K0) as [Ht1 K1].
      apply parse_closing_keeps in E. destruct E as [Ht2 Hc2].
      right. rewrite parsed_tree_unfold, Ht2, Ht1, Ht, Hn, Hc2. exact K1.
  - intros pos text node node' text' p E K. cbn [parse_body] in E.
    destruct (get pos html) as [c|];
      [|injection E as <- <- <-; split; [reflexivity | exact K]].
    destruct (Ascii.eqb c "<").
    + destruct (at_pos html (pos + 1) (is_char "/"));
        [injection E as <- <- <-; split; [reflexivity | exact K]|].
      destruct (negb (text =? "")).
      * destruct (parse_node fuel html pos) as [[child p1]|e|] eqn:N;
          cbn [bind] in E; try discriminate.
        destruct (IHn _ _ _ N) as [Hempty|Htree].
        -- rewrite Hempty in E. cbn [String.eqb negb] in E.
           apply IHb in E; [exact E | exact K].
        -- destruct (negb (tag child =? "")).
           ++ apply IHb in E.
              ** exact E.
              ** unfold kids_parsed, push_child, set_text. cbn [children].
                 rewrite forallb_app. unfold kids_parsed in K. rewrite K.
                 cbn. now rewrite Htree.
           ++ apply IHb in E; [exact E | exact K].
      * destruct (parse_node fuel html pos) as [[child p1]|e|] eqn:N;
          cbn [bind] in E; try discriminate.
        destruct (IHn _ _ _ N) as [Hempty|Htree].
        -- rewrite Hempty in E. cbn [String.eqb negb] in E.
           apply IHb in E; [exact E | exact K].
        -- destruct (negb (tag child =? "")).
           ++ apply IHb in E.
              ** exact E.
              ** unfold kids_parsed, push_child. cbn [children].
                 rewrite forallb_app. unfold kids_parsed in K. rewrite K.
                 cbn. now rewrite Htree.
           ++ apply IHb in E; [exact E | exact K].
    + apply IHb in E; [exact E | exact K].
Qed.

(** X7: in every tree [deserialize] returns, every node has a tag, and the tag
    is in lower case and free of spaces, slashes and closing brackets: bare
    text never becomes a node. *)
Theorem deserialize_parsed_tree (html : string) (node : Node) :
  deserialize html = Ok node -> parsed_tree node = true.
Proof.
  unfold deserialize. intros E.
  destruct (parse_node (S (length html)) html 0) as [[n p]|e|] eqn:N;
    cbn [bind] in E; try discriminate.
  destruct (String.eqb_spec (tag n) "") as [Hempty|Hne]; [discriminate|].
  injection E as <-.
  destruct (proj1 (parse_tree html (S (length html))) _ _ _ N) as [H|H];
    [contradiction | exact H].
Qed.

Lemma deserialize_parsed_tree_witness :
  deserialize "<DIV Class=a>one<P>two</P><BR/></DIV>"
    = Ok (mkNode "div" "one" [("class", "a")]
            [mkNode "p" "two" [] []; mkNode "br" "" [] []])
  /\ parsed_tree (mkNode "div" "one" [("class", "a")]
                    [mkNode "p" "two" [] []; mkNode "br" "" [] []]) = true.
Proof.
  assert (E : deserialize "<DIV Class=a>one<P>two</P><BR/></DIV>"
              = Ok (mkNode "div" "one" [("class", "a")]
                      [mkNode "p" "two" [] []; mkNode "br" "" [] []]))
    by (vm_compute; reflexivity).
  split; [exact E|].
  exact (deserialize_parsed_tree _ _ E).
Defined.

End ParserFacts.

(** ** The pattern matcher *)

Module RegexFacts.
Import Cpp Regex Spec StringFacts RegexSpec.

Lemma run_Rep (p : ascii -> bool) (min : nat) (max : option nat)
    (greedy : bool) (re : regex) (full : bool) (rest : string) (pos : nat)
    (caps : captures) :
  run (Rep p min max greedy :: re) full rest pos caps
  = rep_from p min max greedy (fun rest pos => run re full rest pos caps)
      rest pos 0.
Proof. reflexivity. Qed.

(** A successful quantified class took some [j] characters, all in the
    class, with the count inside the bounds, and the rest of the pattern
    matched from there. *)
Lemma rep_from_inv (p : ascii -> bool) (min : nat) (max : option nat)
    (greedy : bool) (next : string -> nat -> option (nat * captures)) :
  forall rest pos count r,
    rep_from p min max greedy next rest pos count = Some r ->
    exists j,
      j <= length rest
      /\ min <= count + j
      /\ (j = 0 \/ within max (count + j))
      /\ all_chars p (substring 0 j rest) = true
      /\ next (drop j rest) (pos + j) = Some r.
Proof.
  induction rest as [|c rest IH]; intros pos count r H.
  - exists 0. cbn [rep_from] in H.
    assert (K : (if Nat.leb min count then next "" pos else None) = Some r)
      by (destruct greedy; [exact H|];
          destruct (if Nat.leb min count then next "" pos else None);
          [exact H | discriminate]).
    destruct (Nat.leb_spec min count); [|discriminate].
    rewrite !Nat.add_0_r. cbn [length drop substring all_chars].
    split; [lia|]. split; [lia|]. split; [now left|].
    split; [reflexivity | exact K].
  - cbn [rep_from] in H.
    assert (K :
      (if Nat.leb min count then next (String c rest) pos else None) = Some r
      \/ (p c && below max count = true
          /\ rep_from p min max greedy next rest (S pos) (S count) = Some r)).
    { destruct greedy.
      - destruct (p c && below max count).
        + destruct (rep_from p min max true next rest (S pos) (S count));
            [right; split; [reflexivity | exact H] | left; exact H].
        + left. exact H.
      - destruct (if Nat.leb min count then next (String c rest) pos else None).
        + left. exact H.
        + destruct (p c && below max count); [|discriminate].
          right. split; [reflexivity | exact H]. }
    destruct K as [K|[Hc K]].
    + exists 0. destruct (Nat.leb_spec min count); [|discriminate].
      rewrite !Nat.add_0_r. cbn [length drop substring all_chars].
      split; [lia|]. split; [lia|]. split; [now left|].
      split; [reflexivity | exact K].
    + destruct (IH _ _ _ K) as (j & Hj & Hmin & Hmax & Hall & Hnext).
      exists (S j). apply andb_prop in Hc. destruct Hc as [Hp Hbelow].
      cbn [length drop substring all_chars].
      rewrite Hp, Hall. replace (pos + S j) with (S pos + j) by lia.
      repeat split; auto; try lia.
      right. destruct Hmax as [->|Hmax].
      * unfold within, below in *. destruct max as [m|]; [|exact I].
        apply Nat.ltb_lt in Hbelow. lia.
      * unfold within in *. destruct max; [lia | exact I].
Qed.

Lemma length_drop (s : string) : forall j, j <= length s ->
  length (drop j s) = length s - j.
Proof.
  induction s as [|c s IH]; intros [|j] Hj; cbn in *; try lia.
  apply IH. lia.
Qed.

(** A match ends inside the subject, at least [min_length] characters after
    its start, and leaves alone the groups the pattern does not write. *)
Lemma run_inv (re : regex) :
  forall full rest pos caps e caps',
    run re full rest pos caps = Some (e, caps') ->
    pos + min_length re <= e
    /\ e <= pos + length rest
    /\ forall n, ~ In n (groups_of re) ->
         lookup n (starts caps') = lookup n (starts caps)
         /\ lookup n (ends caps') = lookup n (ends caps).
Proof.
  induction re as [|it re IH]; intros full rest pos caps e caps' H.
  - cbn [run] in H.
    assert (K : e = pos /\ caps' = caps).
    { destruct full; [destruct rest; [|discriminate]|];
        injection H as <- <-; split; reflexivity. }
    destruct K as [-> ->]. cbn. repeat split; lia.
  - destruct it as [| |p|p min max greedy|g|g]; cbn [min_length groups_of].
    + cbn [run] in H. destruct (Nat.eqb pos 0); [|discriminate].
      exact (IH _ _ _ _ _ _ H).
    + cbn [run] in H. destruct rest; [|discriminate].
      exact (IH _ _ _ _ _ _ H).
    + cbn [run] in H. destruct rest as [|c rest]; [discriminate|].
      destruct (p c); [|discriminate].
      destruct (IH _ _ _ _ _ _ H) as (H1 & H2 & H3).
      cbn [length]. split; [lia|]. split; [lia | exact H3].
    + rewrite run_Rep in H.
      destruct (rep_from_inv _ _ _ _ _ _ _ _ _ H)
        as (j & Hj & Hmin & _ & _ & Hnext).
      destruct (IH _ _ _ _ _ _ Hnext) as (H1 & H2 & H3).
      rewrite length_drop in H2 by exact Hj.
      split; [lia|]. split; [lia | exact H3].
    + cbn [run] in H.
      destruct (IH _ _ _ _ _ _ H) as (H1 & H2 & H3).
      split; [lia|]. split; [lia|]. intros n Hn.
      destruct (H3 n) as [K1 K2]; [intros K; apply Hn; now right|].
      cbn [starts ends lookup] in K1, K2.
      destruct (Nat.eqb_spec g n) as [->|_];
        [exfalso; apply Hn; now left | split; assumption].
    + cbn [run] in H.
      destruct (IH _ _ _ _ _ _ H) as (H1 & H2 & H3).
      split; [lia|]. split; [lia|]. intros n Hn.
      destruct (H3 n) as [K1 K2]; [intros K; apply Hn; now right|].
      cbn [starts ends lookup] in K1, K2.
      destruct (Nat.eqb_spec g n) as [->|_];
        [exfalso; apply Hn; now left | split; assumption].
Qed.

Lemma search_from_inv (s : string) (re : regex) :
  forall rest from m,
    search_from s re rest from = Some m ->
    from <= first m /\ first m + min_length re <= last m
    /\ last m <= from + length rest.
Proof.
  induction rest as [|c rest IH]; intros from m H; cbn [search_from] in H.
  - destruct (run re false "" from no_captures) as [[e caps]|] eqn:R;
      [|discriminate].
    injection H as <-. cbn [first last].
    destruct (run_inv _ _ _ _ _ _ _ R) as (H1 & H2 & _). lia.
  - destruct (run re false (String c rest) from no_captures)
      as [[e caps]|] eqn:R.
    + injection H as <-. cbn [first last].
      destruct (run_inv _ _ _ _ _ _ _ R) as (H1 & H2 & _). lia.
    + apply IH in H. cbn [length]. lia.
Qed.

(** [regex_search] with a pattern whose first item is a single character
    finds nothing in a subject without that character; likewise when the
    second item is a character the subject lacks. *)
Lemma search_from_first_absent (s : string) (p : ascii -> bool) (re : regex) :
  forall rest from,
    all_chars (fun c => negb (p c)) rest = true ->
    search_from s (One p :: re) rest from = None.
Proof.
  induction rest as [|c rest IH]; intros from H; cbn [search_from run];
    [reflexivity|].
  cbn [all_chars] in H. apply andb_prop in H. destruct H as [Hc Hr].
  apply negb_true_iff in Hc. rewrite Hc. now apply IH.
Qed.

Lemma search_from_second_absent (s : string) (p1 p2 : ascii -> bool)
    (re : regex) :
  forall rest from,
    all_chars (fun c => negb (p2 c)) rest = true ->
    search_from s (One p1 :: One p2 :: re) rest from = None.
Proof.
  induction rest as [|c rest IH]; intros from H; cbn [search_from run];
    [reflexivity|].
  cbn [all_chars] in H. apply andb_prop in H. destruct H as [Hc Hr].
  assert (K : (if p1 c
               then match rest with
                    | String c0 rest' =>
                        if p2 c0 then run re false rest' (S (S from)) no_captures
                        else None
                    | EmptyString => None
                    end
               else None) = None).
  { destruct (p1 c); [|reflexivity].
    destruct rest as [|d rest]; [reflexivity|].
    cbn [all_chars] in Hr. apply andb_prop in Hr. destruct Hr as [Hd _].
    apply negb_true_iff in Hd. now rewrite Hd. }
  rewrite K. now apply IH.
Qed.

End RegexFacts.

(** ** The two serializers of the markup tree *)

Module RenderFacts.
Import Cpp markdown markdown.Serializer Spec StringFacts SerializerFacts MarkdownSpec.

(** Induction over a tree, with the property available for every child. *)
Fixpoint Node_forall_ind (P : Node -> Prop)
    (step : forall type text attributes children level,
        Forall P children -> P (mkNode type text attributes children level))
    (n : Node) {struct n} : P n :=
  match n with
  | mkNode type text attributes children level =>
      step type text attributes children level
        ((fix all (cs : list Node) : Forall P cs :=
            match cs with
            | [] => Forall_nil P
            | c :: cs' => Forall_cons c (Node_forall_ind P step c) (all cs')
            end) children)
  end.

Lemma returns_bind_ok {A B : Type} (r : result A) (g : A -> B) :
  returns (bind r (fun a => Ok (g a))) <-> returns r.
Proof.
  unfold returns. destruct r as [a|e|]; cbn [bind]; split;
    intros [x H]; try discriminate; eauto.
Qed.

Lemma returns_bind {A B : Type} (r : result A) (k : A -> result B) :
  returns (bind r k) <-> exists a, r = Ok a /\ returns (k a).
Proof.
  unfold returns. destruct r as [a|e|]; cbn [bind]; split.
  - intros [b H]. eauto.
  - intros (a' & E & H). now injection E as <-.
  - intros [b H]. discriminate.
  - intros (a' & E & _). discriminate.
  - intros [b H]. discriminate.
  - intros (a' & E & _). discriminate.
Qed.

Lemma returns_Ok {A : Type} (a : A) : returns (Ok a).
Proof. now exists a. Qed.

Lemma map_at_returns (key : string) (m : StdMap.t) :
  returns (map_at key m) <-> has_key key m = true.
Proof.
  unfold returns, map_at, has_key.
  destruct (StdMap.find key m); split; intros H; try discriminate; eauto.
  destruct H; discriminate.
Qed.

(** The guarded lookups never throw. *)
Lemma guarded_lookup_returns (key dflt : string) (m : StdMap.t) :
  returns (if Nat.ltb 0 (StdMap.count key m) then map_at key m else Ok dflt).
Proof.
  unfold StdMap.count, map_at.
  destruct (StdMap.find key m); cbn; apply returns_Ok.
Qed.

(** A loop over the children returns when every child does. *)
Lemma each_returns {A B : Type} (f : Node -> result A) (none : B)
    (combine : Node -> A -> B -> B) (ok : Node -> bool)
    (cs : list Node) :
  Forall (fun c => returns (f c) <-> ok c = true) cs ->
  returns
    ((fix each (cs : list Node) : result B :=
        match cs with
        | [] => Ok none
        | child :: cs' =>
            s <- f child ;; r <- each cs' ;; Ok (combine child s r)
        end) cs)
  <-> forallb ok cs = true.
Proof.
  induction 1 as [|c cs Hc _ IH]; cbn [forallb].
  - split; [reflexivity | intros _; apply returns_Ok].
  - rewrite returns_bind, andb_true_iff, <- Hc, <- IH. split.
    + intros (a & E & H). apply returns_bind in H.
      destruct H as (r & E' & _). split; [now exists a | now exists r].
    + intros [[a E] [r E']]. exists a. split; [exact E|].
      apply returns_bind. exists r. split; [exact E' | apply returns_Ok].
Qed.

Lemma children_hypothesis (P : Node -> nat -> Prop) (cs : list Node) :
  Forall (fun c => forall d, P c d) cs -> forall d, Forall (fun c => P c d) cs.
Proof.
  intros H d. eapply Forall_impl; [|exact H]. intros c Hc. apply Hc.
Qed.

(** [serialize_markdown_node] returns exactly on the nodes that are
    renderable for the markdown target. *)
Lemma serialize_markdown_node_returns (n : Node) :
  forall depth,
    returns (serialize_markdown_node n depth) <-> renderable true n = true.
Proof.
  induction n as [type text attributes children level IH]
    using Node_forall_ind.
  intros depth.
  pose proof (children_hypothesis
                (fun c d => returns (serialize_markdown_node c d)
                            <-> renderable true c = true) children IH) as IHd.
  cbn beta in IHd.
  destruct type;
    cbn [serialize_markdown_node renderable visits_children andb];
    rewrite ?andb_true_r;
    try (split; [reflexivity | intros _; apply returns_Ok]).
  - (* Document *)
    exact (each_returns (fun c => serialize_markdown_node c depth) ""
             (fun child s r =>
                s ++ (if is_block (markdown.type child) then nl else "") ++ r)
             (renderable true) children (IHd depth)).
  - (* Heading *)
    destruct (Z.ltb_spec level 0) as [Hneg|Hpos].
    + split; [intros [s H]; discriminate|].
      intros H. apply Z.leb_le in H. lia.
    + split; [intros _; apply Z.leb_le; lia | intros _; apply returns_Ok].
  - (* Paragraph *)
    rewrite returns_bind_ok.
    exact (each_returns (fun c => serialize_markdown_node c depth) ""
             (fun _ s r => s ++ r) (renderable true) children (IHd depth)).
  - (* CodeBlock *)
    split; [reflexivity|]. intros _. apply returns_bind_ok.
    apply guarded_lookup_returns.
  - (* Bold *)
    rewrite returns_bind_ok.
    exact (each_returns (fun c => serialize_markdown_node c depth) ""
             (fun _ s r => s ++ r) (renderable true) children (IHd depth)).
  - (* Italic *)
    rewrite returns_bind_ok.
    exact (each_returns (fun c => serialize_markdown_node c depth) ""
             (fun _ s r => s ++ r) (renderable true) children (IHd depth)).
  - (* Link *)
    rewrite returns_bind_ok. apply map_at_returns.
  - (* Image *)
    rewrite returns_bind, andb_true_iff, <- !map_at_returns. split.
    + intros (alt & E & H). apply returns_bind_ok in H.
      split; [exact H | now exists alt].
    + intros [[src Es] [alt Ea]]. exists alt. split; [exact Ea|].
      apply returns_bind_ok. now exists src.
  - (* List *)
    exact (each_returns (fun c => serialize_markdown_node c depth) ""
             (fun _ s r => s ++ r) (renderable true) children (IHd depth)).
  - (* ListItem *)
    rewrite returns_bind.
    rewrite <- (each_returns (fun c => serialize_markdown_node c (depth + 1)) ""
                  (fun _ s r => s ++ r) (renderable true) children
                  (IHd (depth + 1))).
    split.
    + intros (o & _ & H). now apply returns_bind_ok in H.
    + intros H.
      assert (G : returns
                (if Nat.ltb 0 (StdMap.count "ordered" attributes)
                 then v <- map_at "ordered" attributes ;; Ok (v =? "true")
                 else Ok false)).
      { unfold StdMap.count, map_at.
        destruct (StdMap.find "ordered" attributes); cbn; apply returns_Ok. }
      destruct G as [o Eo]. exists o. split; [exact Eo|].
      now apply returns_bind_ok.
  - (* Quote *)
    rewrite returns_bind_ok.
    exact (each_returns (fun c => serialize_markdown_node c depth) ""
             (fun _ s r => s ++ r) (renderable true) children (IHd depth)).
  - (* Table *)
    destruct children as [|first_row rows].
    + split; [reflexivity | intros _; apply returns_Ok].
    + pose proof (IHd depth) as F. inversion F as [|c cs Hfirst Hrows]; subst.
      cbn [forallb]. rewrite returns_bind, andb_true_iff, <- Hfirst.
      rewrite <- (each_returns (fun c => serialize_markdown_node c depth) ""
                    (fun _ s r => s ++ r) (renderable true) rows Hrows).
      split.
      * intros (s & E & H). apply returns_bind_ok in H.
        split; [now exists s | exact H].
      * intros [[s E] H]. exists s. split; [exact E|].
        now apply returns_bind_ok.
  - (* TableRow *)
    rewrite returns_bind_ok.
    exact (each_returns (fun c => serialize_markdown_node c depth) ""
             (fun _ s r => " " ++ s ++ " |" ++ r) (renderable true) children
             (IHd depth)).
  - (* TableCell *)
    rewrite returns_bind_ok.
    exact (each_returns (fun c => serialize_markdown_node c depth) ""
             (fun _ s r => s ++ r) (renderable true) children (IHd depth)).
Qed.

(** [convert_to_html_node] returns exactly on the nodes that are renderable
    for the HTML target. *)
Lemma convert_to_html_node_returns (n : Node) :
  returns (convert_to_html_node n) <-> renderable false n = true.
Proof.
  induction n as [type text attributes children level IH]
    using Node_forall_ind.
  pose proof (each_returns convert_to_html_node []
                (fun _ h hs => h :: hs) (renderable false) children IH) as K.
  cbn beta in K.
  destruct type;
    cbn [convert_to_html_node renderable visits_children andb];
    rewrite ?andb_true_r, ?returns_bind_ok;
    try exact K;
    try (split; [reflexivity | intros _; apply returns_Ok]).
  - (* CodeBlock *)
    split; [reflexivity|]. intros _.
    unfold StdMap.count, map_at.
    destruct (StdMap.find "language" attributes); cbn; apply returns_Ok.
  - (* Link *)
    apply map_at_returns.
  - (* Image *)
    rewrite returns_bind, andb_true_iff, <- !map_at_returns. split.
    + intros (src & E & H). apply returns_bind_ok in H.
      split; [now exists src | exact H].
    + intros [[src Es] H]. exists src. split; [exact Es|].
      now apply returns_bind_ok.
Qed.

(** X8: [Serializer::markdown] returns a string exactly on the renderable
    trees, and throws on the others: a [Link] without [href], an [Image]
    without [src] or [alt], or a [Heading] of negative level anywhere the
    walk reaches. *)
Theorem markdown_returns_iff (n : Node) :
  (exists out, Serializer.markdown n = Ok out) <-> renderable true n = true.
Proof. apply serialize_markdown_node_returns. Qed.

(** X9: [Serializer::html] returns a string exactly on the trees in which
    every [Link] the walk reaches has an [href] and every [Image] a [src]
    and an [alt]. *)
Theorem html_returns_iff (n : Node) :
  (exists out, Serializer.html n = Ok out) <-> renderable false n = true.
Proof.
  unfold Serializer.html.
  rewrite <- convert_to_html_node_returns.
  apply (returns_bind_ok (convert_to_html_node n)
           (fun root => html.Serializer.serialize root 0)).
Qed.

Lemma prefix_empty (s : string) : prefix "" s = true.
Proof. destruct s; reflexivity. Qed.

(** X10: the text of a fenced code block that names a language reaches the
    HTML output as it is, with no escaping, whatever it contains; without a
    language it is escaped.  The language itself is escaped inside the
    [class] attribute. *)
Theorem code_block_html (text lang : string) :
  Serializer.html (mkNode CodeBlock text [("language", lang)] [] 0)
  = Ok ("<pre class=" ++ str dquote ++ "code-block" ++ str dquote ++ ">" ++ nl
        ++ "  <code class=" ++ str dquote ++ "language-"
        ++ html.escape_html lang ++ str dquote ++ ">"
        ++ text ++ "</code>" ++ nl ++ "</pre>")
  /\ Serializer.html (mkNode CodeBlock text [] [] 0)
     = Ok ("<pre class=" ++ str dquote ++ "code-block" ++ str dquote ++ ">"
           ++ nl ++ "  <code>" ++ html.escape_html text ++ "</code>" ++ nl
           ++ "</pre>").
Proof.
  split.
  - unfold Serializer.html. cbn [convert_to_html_node bind].
    change (Nat.ltb 0 (StdMap.count "language" [("language", lang)]))
      with true.
    cbn [map_at StdMap.find String.eqb Ascii.eqb Bool.eqb bind].
    change (map_at "language" [("language", lang)]) with (Ok lang).
    cbn [bind]. f_equal.
    unfold class_of. cbn [StdMap.insert StdMap.empty].
    unfold nl, str, dquote; cbn; rewrite ?prefix_empty; cbn.
    destruct (text =? "") eqn:E; cbn [negb];
      [apply String.eqb_eq in E; subst text|];
      norm_append; reflexivity.
  - unfold Serializer.html. cbn [convert_to_html_node bind].
    change (Nat.ltb 0 (StdMap.count "language" [])) with false.
    cbn [bind]. f_equal.
    unfold class_of. cbn [StdMap.insert StdMap.empty].
    unfold nl, str, dquote; cbn; rewrite ?prefix_empty; cbn.
    destruct (text =? "") eqn:E; cbn [negb];
      [apply String.eqb_eq in E; subst text|];
      norm_append; reflexivity.
Qed.

End RenderFacts.

(** ** What the markdown parser builds *)

Module ParsedFacts.
Import Cpp Regex markdown markdown.Deserializer Spec ListFacts MarkdownSpec.

Lemma renderable_container (b : bool) (n : Node) :
  visits_children (type n) = true ->
  renderable b n = forallb (renderable b) (children n).
Proof.
  destruct n as [t x a cs l]. cbn [type children].
  destruct t; cbn [visits_children renderable andb]; intros H;
    try discriminate; reflexivity.
Qed.

Lemma push_child_kids_ok (b : bool) (n c : Node) :
  kids_ok b n -> renderable b c = true -> kids_ok b (push_child n c).
Proof.
  unfold kids_ok, push_child. cbn [children]. intros Hn Hc.
  rewrite forallb_app, Hn. cbn. now rewrite Hc.
Qed.

Lemma flush_before_kids_ok (b : bool) (remaining : string)
    (pos match_pos : nat) (n : Node) :
  kids_ok b n -> kids_ok b (flush_before remaining pos match_pos n).
Proof.
  intros H. unfold flush_before.
  destruct (Nat.ltb pos match_pos); [|exact H].
  destruct (negb _); [|exact H].
  apply push_child_kids_ok; [exact H | destruct b; reflexivity].
Qed.

(** Every node the inline tokenizer appends is renderable: a [Link] is
    given its [href] and an [Image] its [alt] and [src] before it is
    pushed. *)
Lemma parse_inline_loop_kids_ok (b : bool) (fuel : nat) :
  forall (remaining : string) (pos : nat) (n : Node),
    kids_ok b n -> kids_ok b (parse_inline_loop fuel remaining pos n).
Proof.
  induction fuel as [|fuel IH]; intros remaining pos n Hn;
    cbn [parse_inline_loop]; [exact Hn|].
  destruct (Nat.ltb pos (length remaining)); [|exact Hn].
  repeat
    match goal with
    | |- kids_ok _ (match ?o with Some _ => _ | None => _ end) =>
        destruct o
    end;
    try (apply IH; apply push_child_kids_ok;
         [apply flush_before_kids_ok; exact Hn | destruct b; reflexivity]).
  destruct (negb _); [|exact Hn].
  apply push_child_kids_ok; [exact Hn | destruct b; reflexivity].
Qed.

Lemma parse_inline_kids_ok (b : bool) (text : string) (n : Node) :
  kids_ok b n -> kids_ok b (parse_inline text n).
Proof.
  intros Hn. unfold parse_inline. destruct (text =? ""); [exact Hn|].
  pose proof (parse_inline_loop_kids_ok b (length text) text 0 n Hn) as H.
  destruct (children (parse_inline_loop (length text) text 0 n)) eqn:E;
    [|exact H].
  destruct (negb _); [|exact H].
  apply push_child_kids_ok; [exact H | destruct b; reflexivity].
Qed.

(** A container filled by the inline tokenizer is renderable. *)
Lemma parse_inline_renderable (b : bool) (text : string) (n : Node) :
  visits_children (type n) = true -> children n = [] ->
  renderable b (parse_inline text n) = true.
Proof.
  intros Ht Hc.
  destruct (parse_inline_header text n) as (Htype & _).
  rewrite renderable_container by (rewrite Htype; exact Ht).
  apply parse_inline_kids_ok. unfold kids_ok. now rewrite Hc.
Qed.

Lemma list_item_renderable (b is_ordered : bool) (m : smatch) :
  renderable b (list_item is_ordered m) = true.
Proof.
  unfold list_item. apply parse_inline_renderable;
    destruct is_ordered; reflexivity.
Qed.

Lemma parse_list_items_kids_ok (b : bool) (fuel : nat) :
  forall lines pos is_ordered list_node,
    kids_ok b list_node ->
    kids_ok b (snd (parse_list_items fuel lines pos is_ordered list_node)).
Proof.
  induction fuel as [|fuel IH]; intros lines pos is_ordered list_node H;
    cbn [parse_list_items]; [exact H|].
  destruct (nth_error lines pos) as [l|]; [|exact H].
  destruct (item_match l) as [m|]; [|exact H].
  apply IH. apply push_child_kids_ok; [exact H|].
  apply list_item_renderable.
Qed.

Lemma parse_list_items_header (fuel : nat) :
  forall lines pos is_ordered list_node,
    same_header (snd (parse_list_items fuel lines pos is_ordered list_node))
      list_node.
Proof.
  induction fuel as [|fuel IH]; intros lines pos is_ordered list_node;
    cbn [parse_list_items]; [apply same_header_refl|].
  destruct (nth_error lines pos) as [l|]; [|apply same_header_refl].
  destruct (item_match l) as [m|]; [|apply same_header_refl].
  eapply same_header_trans; [apply IH | apply push_child_header].
Qed.

Lemma fold_left_invariant {A B : Type} (P : A -> Prop) (f : A -> B -> A)
    (l : list B) :
  (forall a x, P a -> P (f a x)) -> forall a, P a -> P (fold_left f l a).
Proof.
  intros Hf. induction l as [|x l IH]; intros a Ha; cbn [fold_left];
    [exact Ha | apply IH, Hf, Ha].
Qed.

Lemma parse_cell_row (b is_first : bool) (row_node : Node) (m : smatch) :
  type row_node = TableRow /\ kids_ok b row_node ->
  type (parse_cell is_first row_node m) = TableRow
  /\ kids_ok b (parse_cell is_first row_node m).
Proof.
  intros [Ht Hk]. unfold parse_cell.
  destruct (_ || _); [|now split].
  split; [exact Ht|]. apply push_child_kids_ok; [exact Hk|].
  apply parse_inline_renderable; reflexivity.
Qed.

Lemma parse_row_renderable (b : bool) (table_line : string) :
  renderable b (parse_row table_line) = true.
Proof.
  assert (H : type (parse_row table_line) = TableRow
              /\ kids_ok b (parse_row table_line)).
  { unfold parse_row.
    destruct (sregex_iterator table_line cell_regex) as [|m0 ms];
      [split; reflexivity|].
    apply (fold_left_invariant
             (fun n => type n = TableRow /\ kids_ok b n)).
    - intros a m H. now apply parse_cell_row.
    - apply parse_cell_row. split; reflexivity. }
  destruct H as [Ht Hk].
  rewrite renderable_container by (rewrite Ht; reflexivity). exact Hk.
Qed.

Lemma parse_table_rows_kids_ok (b : bool) (fuel : nat) :
  forall lines pos table_node,
    kids_ok b table_node ->
    kids_ok b (snd (parse_table_rows fuel lines pos table_node)).
Proof.
  induction fuel as [|fuel IH]; intros lines pos table_node H;
    cbn [parse_table_rows]; [exact H|].
  destruct (nth_error lines pos) as [l|]; [|exact H].
  destruct (contains_char "|" l); [|exact H].
  destruct (matches l table_separator_regex); [now apply IH|].
  apply IH. destruct (children (parse_row l)); [exact H|].
  apply push_child_kids_ok; [exact H | apply parse_row_renderable].
Qed.

Lemma parse_table_rows_header (fuel : nat) :
  forall lines pos table_node,
    same_header (snd (parse_table_rows fuel lines pos table_node)) table_node.
Proof.
  induction fuel as [|fuel IH]; intros lines pos table_node;
    cbn [parse_table_rows]; [apply same_header_refl|].
  destruct (nth_error lines pos) as [l|]; [|apply same_header_refl].
  destruct (contains_char "|" l); [|apply same_header_refl].
  destruct (matches l table_separator_regex); [apply IH|].
  eapply same_header_trans; [apply IH|].
  destruct (children (parse_row l));
    [apply same_header_refl | apply push_child_header].
Qed.

Lemma container_renderable (b : bool) (n n0 : Node) :
  same_header n n0 -> visits_children (type n0) = true -> kids_ok b n ->
  renderable b n = true.
Proof.
  intros (Ht & _) Hv Hk.
  rewrite renderable_container by (rewrite Ht; exact Hv). exact Hk.
Qed.

(** Whatever block [parse_block] appends is renderable, for both
    targets. *)
Lemma parse_block_kids_ok (b : bool) (lines : list string) (pos : nat)
    (parent : Node) :
  kids_ok b parent -> kids_ok b (snd (parse_block lines pos parent)).
Proof.
  intros H. unfold parse_block.
  destruct (nth_error lines pos) as [line|]; [|exact H].
  destruct (line =? ""); [exact H|].
  destruct (matches line hr_regex).
  { apply push_child_kids_ok; [exact H | destruct b; reflexivity]. }
  destruct (regex_match line heading_regex) as [hm|].
  { apply push_child_kids_ok; [exact H|].
    destruct b; cbn; [|reflexivity].
    rewrite andb_true_r. apply Z.leb_le. lia. }
  destruct (regex_match line fence_open_regex) as [cm|].
  { destruct (collect_code _ lines (pos + 1) "") as [p content].
    cbn [snd]. apply push_child_kids_ok; [exact H|].
    destruct (negb (sub cm 1 =? "")); destruct b; reflexivity. }
  destruct (regex_match line quote_regex) as [qm|].
  { apply push_child_kids_ok; [exact H|].
    apply parse_inline_renderable; reflexivity. }
  destruct (item_match line) as [im|].
  { pose proof (parse_list_items_kids_ok b (List.length lines - pos) lines pos
                  (matches line ordered_regex) (Node_of List)
                  (eq_refl : kids_ok b (Node_of List))) as K.
    pose proof (parse_list_items_header (List.length lines - pos) lines pos
                  (matches line ordered_regex) (Node_of List)) as Hd.
    destruct (parse_list_items _ lines pos _ (Node_of List)) as [p list_node].
    cbn [snd] in *. apply push_child_kids_ok; [exact H|].
    eapply container_renderable; eauto. }
  destruct (contains_char "|" line).
  { pose proof (parse_table_rows_kids_ok b (List.length lines - pos) lines pos
                  (Node_of Table) (eq_refl : kids_ok b (Node_of Table))) as K.
    pose proof (parse_table_rows_header (List.length lines - pos) lines pos
                  (Node_of Table)) as Hd.
    destruct (parse_table_rows _ lines pos (Node_of Table)) as [p table_node].
    cbn [snd] in *. apply push_child_kids_ok; [exact H|].
    eapply container_renderable; eauto. }
  destruct (collect_paragraph _ lines (pos + 1) line) as [p paragraph_text].
  cbn [snd]. apply push_child_kids_ok; [exact H|].
  apply parse_inline_renderable; reflexivity.
Qed.

Lemma parse_block_header (lines : list string) (pos : nat) (parent : Node) :
  same_header (snd (parse_block lines pos parent)) parent.
Proof.
  unfold parse_block.
  destruct (nth_error lines pos) as [line|]; [|apply same_header_refl].
  destruct (line =? ""); [apply same_header_refl|].
  destruct (matches line hr_regex); [apply push_child_header|].
  destruct (regex_match line heading_regex); [apply push_child_header|].
  destruct (regex_match line fence_open_regex).
  { destruct (collect_code _ lines (pos + 1) ""). apply push_child_header. }
  destruct (regex_match line quote_regex); [apply push_child_header|].
  destruct (item_match line).
  { destruct (parse_list_items _ lines pos _ (Node_of List)).
    apply push_child_header. }
  destruct (contains_char "|" line).
  { destruct (parse_table_rows _ lines pos (Node_of Table)).
    apply push_child_header. }
  destruct (collect_paragraph _ lines (pos + 1) line).
  apply push_child_header.
Qed.

Lemma parse_blocks_invariant (b : bool) (fuel : nat) :
  forall lines pos document,
    kids_ok b document ->
    kids_ok b (parse_blocks fuel lines pos document)
    /\ same_header (parse_blocks fuel lines pos document) document.
Proof.
  induction fuel as [|fuel IH]; intros lines pos document H;
    cbn [parse_blocks]; [split; [exact H | apply same_header_refl]|].
  destruct (Nat.ltb pos (List.length lines));
    [|split; [exact H | apply same_header_refl]].
  pose proof (parse_block_kids_ok b lines pos document H) as K.
  pose proof (parse_block_header lines pos document) as Hd.
  destruct (parse_block lines pos document) as [p d]. cbn [snd] in *.
  destruct (IH lines p d K) as [K' Hd'].
  split; [exact K' | eapply same_header_trans; eauto].
Qed.

(** X11: the root of every parse is a [Document] with no text, no attributes
    and level 0: blocks are only ever appended to it. *)
Theorem deserialize_root (md : string) :
  type (deserialize md) = Document
  /\ text (deserialize md) = ""
  /\ attributes (deserialize md) = []
  /\ level (deserialize md) = 0%Z.
Proof.
  unfold deserialize.
  destruct (parse_blocks_invariant true
              (List.length (getlines md "")) (getlines md "") 0
              (Node_of Document) eq_refl) as [_ H].
  exact H.
Qed.

(** Every tree the parser returns is renderable for both targets. *)
Lemma deserialize_renderable (md : string) (for_markdown : bool) :
  renderable for_markdown (deserialize md) = true.
Proof.
  unfold deserialize.
  destruct (parse_blocks_invariant for_markdown
              (List.length (getlines md "")) (getlines md "") 0
              (Node_of Document) eq_refl) as [K H].
  eapply container_renderable; eauto.
Qed.

(** X12: whatever text [ContentFile::parse_content] hands to
    [markdown::Deserializer::deserialize], the tree it stores is one on
    which [ContentFile::render_html] does not throw: both serializers
    return a string on every parsed tree. *)
Theorem render_parsed_returns (md : string) :
  (exists out, Serializer.html (deserialize md) = Ok out)
  /\ (exists out, Serializer.markdown (deserialize md) = Ok out).
Proof.
  split.
  - unfold Serializer.html.
    apply (RenderFacts.returns_bind_ok
             (Serializer.convert_to_html_node (deserialize md))
             (fun root => html.Serializer.serialize root 0)).
    apply RenderFacts.convert_to_html_node_returns.
    apply deserialize_renderable.
  - apply RenderFacts.serialize_markdown_node_returns.
    apply deserialize_renderable.
Qed.

End ParsedFacts.

(** ** The block loop *)

Module BlockFacts.
Import Cpp Regex markdown markdown.Deserializer Spec StringFacts MarkdownSpec.

Lemma collect_code_bounds (fuel : nat) (lines : list string) :
  forall pos content,
    pos <= List.length lines ->
    pos <= fst (collect_code fuel lines pos content)
    /\ fst (collect_code fuel lines pos content) <= List.length lines.
Proof.
  induction fuel as [|fuel IH]; intros pos content Hpos;
    cbn [collect_code]; [cbn; lia|].
  destruct (nth_error lines pos) as [l|] eqn:E; [|cbn; lia].
  assert (pos < List.length lines) by (apply nth_error_Some; congruence).
  destruct (matches l fence_close_regex); [cbn; lia|].
  match goal with
  | |- context [collect_code fuel lines (pos + 1) ?c] =>
      specialize (IH (pos + 1) c)
  end. lia.
Qed.

Lemma collect_paragraph_bounds (fuel : nat) (lines : list string) :
  forall pos text,
    pos <= List.length lines ->
    pos <= fst (collect_paragraph fuel lines pos text)
    /\ fst (collect_paragraph fuel lines pos text) <= List.length lines.
Proof.
  induction fuel as [|fuel IH]; intros pos text Hpos;
    cbn [collect_paragraph]; [cbn; lia|].
  destruct (nth_error lines pos) as [l|] eqn:E; [|cbn; lia].
  assert (pos < List.length lines) by (apply nth_error_Some; congruence).
  destruct (_ && _); [|cbn; lia].
  specialize (IH (pos + 1) (text ++ " " ++ l)). lia.
Qed.

Lemma parse_list_items_bounds (fuel : nat) (lines : list string) :
  forall pos is_ordered node,
    pos <= List.length lines ->
    pos <= fst (parse_list_items fuel lines pos is_ordered node)
    /\ fst (parse_list_items fuel lines pos is_ordered node)
       <= List.length lines.
Proof.
  induction fuel as [|fuel IH]; intros pos is_ordered node Hpos;
    cbn [parse_list_items]; [cbn; lia|].
  destruct (nth_error lines pos) as [l|] eqn:E; [|cbn; lia].
  assert (pos < List.length lines) by (apply nth_error_Some; congruence).
  destruct (item_match l) as [m|]; [|cbn; lia].
  match goal with
  | |- context [parse_list_items fuel lines (pos + 1) ?o ?n] =>
      specialize (IH (pos + 1) o n)
  end. lia.
Qed.

Lemma parse_table_rows_bounds (fuel : nat) (lines : list string) :
  forall pos node,
    pos <= List.length lines ->
    pos <= fst (parse_table_rows fuel lines pos node)
    /\ fst (parse_table_rows fuel lines pos node) <= List.length lines.
Proof.
  induction fuel as [|fuel IH]; intros pos node Hpos;
    cbn [parse_table_rows]; [cbn; lia|].
  destruct (nth_error lines pos) as [l|] eqn:E; [|cbn; lia].
  assert (pos < List.length lines) by (apply nth_error_Some; congruence).
  destruct (contains_char "|" l); [|cbn; lia].
  destruct (matches l table_separator_regex).
  - specialize (IH (pos + 1) node). lia.
  - match goal with
    | |- context [parse_table_rows fuel lines (pos + 1) ?n] =>
        specialize (IH (pos + 1) n)
    end. lia.
Qed.

Lemma parse_block_advances (lines : list string) (pos : nat)
    (parent : Node) :
  pos < List.length lines ->
  pos < fst (parse_block lines pos parent)
  /\ fst (parse_block lines pos parent) <= List.length lines.
Proof.
  intros Hpos. unfold parse_block.
  destruct (nth_error lines pos) as [line|] eqn:Hnth;
    [|apply nth_error_None in Hnth; lia].
  destruct (line =? ""); [cbn; lia|].
  destruct (matches line hr_regex); [cbn; lia|].
  destruct (regex_match line heading_regex); [cbn; lia|].
  destruct (regex_match line fence_open_regex).
  { pose proof (collect_code_bounds (List.length lines - (pos + 1)) lines
                  (pos + 1) "") as B.
    destruct (collect_code _ lines (pos + 1) "") as [p content].
    cbn [fst] in *.
    destruct (Nat.ltb_spec p (List.length lines)); cbn [fst]; lia. }
  destruct (regex_match line quote_regex); [cbn; lia|].
  destruct (item_match line) as [m|] eqn:Hitem.
  { destruct (List.length lines - pos) as [|fuel] eqn:Hfuel; [lia|].
    cbn [parse_list_items]. rewrite Hnth, Hitem.
    match goal with
    | |- context [parse_list_items fuel lines (pos + 1) ?o ?n] =>
        pose proof (parse_list_items_bounds fuel lines (pos + 1) o n) as B;
        destruct (parse_list_items fuel lines (pos + 1) o n) as [p list_node]
    end.
    cbn [fst] in *. lia. }
  destruct (contains_char "|" line) eqn:Hbar.
  { destruct (List.length lines - pos) as [|fuel] eqn:Hfuel; [lia|].
    cbn [parse_table_rows]. rewrite Hnth, Hbar.
    destruct (matches line table_separator_regex);
      match goal with
      | |- context [parse_table_rows fuel lines (pos + 1) ?n] =>
          pose proof (parse_table_rows_bounds fuel lines (pos + 1) n) as B;
          destruct (parse_table_rows fuel lines (pos + 1) n) as [p table_node]
      end; cbn [fst] in *; lia. }
  pose proof (collect_paragraph_bounds (List.length lines - (pos + 1)) lines
                (pos + 1) line) as B.
  destruct (collect_paragraph _ lines (pos + 1) line) as [p text].
  cbn [fst] in *. lia.
Qed.

(** X13: every call of [parse_block] with the cursor inside the input
    consumes at least one line and leaves the cursor inside the input or at
    its end, whichever rule applies. *)
Theorem parse_block_progress (lines : list string) (pos : nat)
    (parent : Node) :
  pos < List.length lines ->
  pos < fst (parse_block lines pos parent)
  /\ fst (parse_block lines pos parent) <= List.length lines.
Proof. apply parse_block_advances. Qed.

Lemma parse_block_progress_witness :
  0 < List.length ["```"; "let x"; "```"; "tail"]
  /\ 0 < fst (parse_block ["```"; "let x"; "```"; "tail"] 0 (Node_of Document))
  /\ fst (parse_block ["```"; "let x"; "```"; "tail"] 0 (Node_of Document))
     <= List.length ["```"; "let x"; "```"; "tail"].
Proof.
  split; [cbn; lia|].
  apply (parse_block_progress ["```"; "let x"; "```"; "tail"] 0
           (Node_of Document)).
  cbn; lia.
Defined.

(** The loop of [deserialize] needs no more rounds than there are lines
    left: a larger bound gives the same document. *)
Lemma parse_blocks_enough (fuel : nat) :
  forall lines pos document extra,
    List.length lines - pos <= fuel ->
    parse_blocks (fuel + extra) lines pos document
    = parse_blocks fuel lines pos document.
Proof.
  induction fuel as [|fuel IH]; intros lines pos document extra Hfuel.
  - cbn [parse_blocks Nat.add]. destruct extra; [reflexivity|].
    cbn [parse_blocks].
    destruct (Nat.ltb_spec pos (List.length lines)); [lia | reflexivity].
  - cbn [parse_blocks Nat.add].
    destruct (Nat.ltb_spec pos (List.length lines)); [|reflexivity].
    pose proof (parse_block_advances lines pos document H) as P.
    destruct (parse_block lines pos document) as [p d]. cbn [fst] in P.
    apply IH. lia.
Qed.

(** *** [getlines] *)

Lemma last_is_newline_append (a b : string) :
  b <> "" -> last_is_newline (a ++ b) = last_is_newline b.
Proof.
  intros Hb. induction a as [|c a IH]; [reflexivity|].
  cbn [append]. destruct (a ++ b) eqn:E.
  - destruct a; [cbn in E; congruence | discriminate].
  - cbn [last_is_newline]. exact IH.
Qed.

Lemma last_is_newline_plain (line : string) :
  contains_char lf line = false -> last_is_newline line = false.
Proof.
  induction line as [|c line IH]; [reflexivity|].
  cbn [contains_char]. intros H. apply orb_false_elim in H.
  destruct H as [Hc Hl]. destruct line; [exact Hc | now apply IH].
Qed.

Lemma contains_char_append (c : ascii) (a b : string) :
  contains_char c (a ++ b) = contains_char c a || contains_char c b.
Proof.
  induction a as [|d a IH]; [reflexivity|].
  cbn [append contains_char]. now rewrite IH, orb_assoc.
Qed.

Lemma append_empty (a b : string) : a ++ b = "" -> a = "" /\ b = "".
Proof. destruct a; [cbn; intros ->; split; reflexivity | discriminate]. Qed.

Lemma getlines_join (s : string) :
  forall line,
    contains_char lf line = false ->
    join_lines (getlines s line) = terminated (line ++ s).
Proof.
  induction s as [|c s IH]; intros line Hline; cbn [getlines].
  - rewrite append_nil_r. unfold terminated.
    rewrite (last_is_newline_plain line Hline), orb_false_r.
    destruct (String.eqb_spec line "") as [->|N]; cbn [join_lines];
      [reflexivity|].
    cbn [append]. reflexivity.
  - destruct (Ascii.eqb_spec c lf) as [->|Hc].
    + cbn [join_lines]. rewrite (IH "" eq_refl). cbn [append].
      unfold terminated.
      assert (Hne : (line ++ String lf s =? "") = false).
      { apply String.eqb_neq. intros E. apply append_empty in E.
        destruct E; discriminate. }
      rewrite Hne. cbn [orb].
      rewrite last_is_newline_append by discriminate.
      destruct s as [|d s]; [reflexivity|].
      cbn [String.eqb orb].
      change (last_is_newline (String lf (String d s)))
        with (last_is_newline (String d s)).
      destruct (last_is_newline (String d s));
        unfold nl, str; cbn [append]; rewrite ?append_assoc; reflexivity.
    + rewrite IH.
      * rewrite append_assoc. reflexivity.
      * rewrite contains_char_append, Hline. cbn.
        rewrite orb_false_r. now apply Ascii.eqb_neq.
Qed.

(** X14: joining the lines [deserialize] works on, each with its newline,
    gives the input back, with a final newline added when the input is not
    empty and lacks one; and no line contains a newline. *)
Theorem getlines_roundtrip (s : string) :
  join_lines (getlines s "") = terminated s
  /\ Forall (fun l => contains_char lf l = false) (getlines s "").
Proof.
  split; [apply (getlines_join s "" eq_refl)|].
  assert (G : forall line, contains_char lf line = false ->
              Forall (fun l => contains_char lf l = false) (getlines s line)).
  { induction s as [|c s IH]; intros line Hline; cbn [getlines].
    - destruct (line =? ""); constructor; auto.
    - destruct (Ascii.eqb_spec c lf) as [->|Hc].
      + constructor; [exact Hline | apply IH; reflexivity].
      + apply IH. rewrite contains_char_append, Hline. cbn.
        rewrite orb_false_r. now apply Ascii.eqb_neq. }
  apply G. reflexivity.
Qed.

(** *** The fence rule and the paragraph rule *)

Lemma skipn_nth_error {A : Type} (l : list A) (n : nat) :
  skipn n l =
    match nth_error l n with
    | Some x => x :: skipn (S n) l
    | None => []
    end.
Proof.
  revert l. induction n as [|n IH]; intros [|x l]; try reflexivity.
  cbn [nth_error]. rewrite <- IH. reflexivity.
Qed.

Lemma length_take_until (stop : string -> bool) (ls : list string) :
  List.length (take_until stop ls) <= List.length ls.
Proof.
  induction ls as [|l ls IH]; cbn [take_until]; [lia|].
  destruct (stop l); cbn [List.length]; lia.
Qed.

Lemma collect_code_run (fuel : nat) (lines : list string) :
  forall pos content,
    List.length lines - pos <= fuel ->
    collect_code fuel lines pos content =
      (pos + List.length
               (take_until (fun l => matches l fence_close_regex)
                  (skipn pos lines)),
       code_after content
         (take_until (fun l => matches l fence_close_regex)
            (skipn pos lines))).
Proof.
  induction fuel as [|fuel IH]; intros pos content Hfuel;
    cbn [collect_code]; rewrite (skipn_nth_error lines pos).
  - assert (Hnone : nth_error lines pos = None)
      by (apply nth_error_None; lia).
    rewrite Hnone. cbn [take_until List.length]. rewrite Nat.add_0_r.
    unfold code_after, prefixed. cbn [drop_blank newline_separated map join].
    destruct (content =? "") eqn:E;
      [apply String.eqb_eq in E; now subst | now rewrite append_nil_r].
  - destruct (nth_error lines pos) as [l|] eqn:Hnth.
    + cbn [take_until].
      destruct (matches l fence_close_regex).
      * cbn [List.length]. rewrite Nat.add_0_r.
        unfold code_after, prefixed.
        cbn [drop_blank newline_separated map join].
        destruct (content =? "") eqn:E;
          [apply String.eqb_eq in E; now subst | now rewrite append_nil_r].
      * assert (Hlt : pos < List.length lines)
          by (apply nth_error_Some; congruence).
        rewrite IH by lia.
        replace (pos + 1) with (S pos) by lia. cbn [List.length].
        f_equal; [lia|].
        set (body := take_until _ (skipn (S pos) lines)).
        unfold code_after, prefixed.
        destruct (String.eqb_spec content "") as [->|Hc]; cbn [negb append].
        -- cbn [drop_blank].
           destruct (String.eqb_spec l "") as [->|Hl]; [reflexivity|].
           cbn [newline_separated]. reflexivity.
        -- cbn [map join].
           destruct (String.eqb_spec ((content ++ nl) ++ l) "") as [E|_].
           ++ apply append_empty in E. destruct E as [E _].
              apply append_empty in E. destruct E; contradiction.
           ++ rewrite !append_assoc. reflexivity.
    + cbn [take_until List.length]. rewrite Nat.add_0_r.
      unfold code_after, prefixed.
      cbn [drop_blank newline_separated map join].
      destruct (content =? "") eqn:E;
        [apply String.eqb_eq in E; now subst | now rewrite append_nil_r].
Qed.

(** X15: the fence rule: the block takes the lines after the opening fence
    up to the first closing fence, or to the end of the input when there is
    none; its text is those lines separated by newlines, without the empty
    lines at their head; the closing fence is consumed; [language] is set
    exactly when the opening fence names one. *)
Theorem fence_rule (lines : list string) (pos : nat) (parent : Node)
    (line : string) (m : smatch) :
  nth_error lines pos = Some line ->
  reaches_fence_rule line = true ->
  regex_match line fence_open_regex = Some m ->
  let body :=
    take_until (fun l => matches l fence_close_regex) (skipn (pos + 1) lines)
  in
  parse_block lines pos parent =
    (Nat.min (pos + List.length body + 2) (List.length lines),
     push_child parent
       (mkNode CodeBlock (newline_separated (drop_blank body))
          (if sub m 1 =? "" then [] else [("language", sub m 1)]) [] 0)).
Proof.
  intros Hnth Hrule Hm body.
  unfold reaches_fence_rule in Hrule.
  repeat (apply andb_prop in Hrule; destruct Hrule as [Hrule ?]).
  repeat
    match goal with
    | H : negb _ = true |- _ => apply negb_true_iff in H
    | H : is_none ?o = true |- _ => destruct o eqn:?; [discriminate H|clear H]
    end.
  unfold parse_block. rewrite Hnth.
  repeat match goal with H : _ = _ |- _ => rewrite H end.
  assert (Hlt : pos < List.length lines)
    by (apply nth_error_Some; congruence).
  rewrite collect_code_run by lia. fold body.
  pose proof (length_take_until (fun l => matches l fence_close_regex)
                (skipn (pos + 1) lines)) as Hlen.
  fold body in Hlen. rewrite length_skipn in Hlen.
  unfold code_after. cbn [String.eqb].
  f_equal.
  - destruct (Nat.ltb_spec (pos + 1 + List.length body) (List.length lines));
      lia.
  - f_equal. unfold Node_text, set_attribute.
    destruct (sub m 1 =? ""); reflexivity.
Qed.

Lemma fence_rule_witness :
  nth_error ["```c"; ""; "a"; ""; "b"; "```"; "x"] 0 = Some "```c"
  /\ reaches_fence_rule "```c" = true
  /\ parse_block ["```c"; ""; "a"; ""; "b"; "```"; "x"] 0 (Node_of Document)
     = (6, mkNode Document "" [] [
             mkNode CodeBlock ("a" ++ nl ++ nl ++ "b") [("language", "c")] [] 0
           ] 0).
Proof.
  assert (Hnth : nth_error ["```c"; ""; "a"; ""; "b"; "```"; "x"] 0
                 = Some "```c") by reflexivity.
  assert (Hrule : reaches_fence_rule "```c" = true) by (vm_compute; reflexivity).
  destruct (regex_match "```c" fence_open_regex) as [m|] eqn:Hm;
    [|vm_compute in Hm; discriminate Hm].
  split; [exact Hnth|]. split; [exact Hrule|].
  rewrite (fence_rule _ 0 (Node_of Document) _ m Hnth Hrule Hm).
  vm_compute in Hm. injection Hm as <-. vm_compute. reflexivity.
Defined.

Lemma collect_paragraph_run (fuel : nat) (lines : list string) :
  forall pos text,
    List.length lines - pos <= fuel ->
    collect_paragraph fuel lines pos text =
      (pos + List.length (take_until ends_paragraph (skipn pos lines)),
       text ++ prefixed " " (take_until ends_paragraph (skipn pos lines))).
Proof.
  induction fuel as [|fuel IH]; intros pos text Hfuel;
    cbn [collect_paragraph]; rewrite (skipn_nth_error lines pos).
  - assert (Hnone : nth_error lines pos = None)
      by (apply nth_error_None; lia).
    rewrite Hnone. cbn [take_until List.length]. unfold prefixed.
    cbn [map join]. now rewrite Nat.add_0_r, append_nil_r.
  - destruct (nth_error lines pos) as [l|] eqn:Hnth.
    + cbn [take_until]. unfold ends_paragraph at 1 3.
      rewrite <- negb_orb.
      destruct ((l =? "") || matches l heading_prefix_regex); cbn [negb].
      * cbn [List.length]. unfold prefixed. cbn [map join].
        now rewrite Nat.add_0_r, append_nil_r.
      * assert (Hlt : pos < List.length lines)
          by (apply nth_error_Some; congruence).
        rewrite IH by lia. replace (pos + 1) with (S pos) by lia.
        cbn [List.length]. unfold prefixed. cbn [map join].
        f_equal; [lia|]. rewrite !append_assoc. reflexivity.
    + cbn [take_until List.length]. unfold prefixed.
      cbn [map join]. now rewrite Nat.add_0_r, append_nil_r.
Qed.

Lemma paragraph_rule_at (lines : list string) (pos : nat) (parent : Node)
    (line : string) :
  nth_error lines pos = Some line ->
  reaches_paragraph_rule line = true ->
  let more := take_until ends_paragraph (skipn (pos + 1) lines) in
  parse_block lines pos parent =
    (pos + 1 + List.length more,
     push_child parent
       (parse_inline (line ++ prefixed " " more) (Node_of Paragraph))).
Proof.
  intros Hnth Hrule more.
  unfold reaches_paragraph_rule, reaches_fence_rule in Hrule.
  repeat (apply andb_prop in Hrule; destruct Hrule as [Hrule ?]).
  repeat
    match goal with
    | H : negb _ = true |- _ => apply negb_true_iff in H
    | H : is_none ?o = true |- _ => destruct o eqn:?; [discriminate H|clear H]
    end.
  unfold parse_block. rewrite Hnth.
  repeat match goal with H : _ = _ |- _ => rewrite H end.
  assert (Hlt : pos < List.length lines)
    by (apply nth_error_Some; congruence).
  rewrite collect_paragraph_run by lia. reflexivity.
Qed.

(** X16: the paragraph rule as the code has it: the paragraph takes the line
    at the cursor and every following line up to the first that is empty or
    is nothing but one to six hashes and white space; the lines are joined
    by single spaces and tokenized as one text. *)
Theorem paragraph_rule (lines : list string) (pos : nat) (parent : Node)
    (line : string) :
  nth_error lines pos = Some line ->
  reaches_paragraph_rule line = true ->
  let more := take_until ends_paragraph (skipn (pos + 1) lines) in
  parse_block lines pos parent =
    (pos + 1 + List.length more,
     push_child parent
       (parse_inline (line ++ prefixed " " more) (Node_of Paragraph))).
Proof. exact (paragraph_rule_at lines pos parent line). Qed.

Lemma paragraph_rule_witness :
  nth_error ["one"; "- two"; "# three"; "#  "; "four"] 0 = Some "one"
  /\ reaches_paragraph_rule "one" = true
  /\ parse_block ["one"; "- two"; "# three"; "#  "; "four"] 0
       (Node_of Document)
     = (3, mkNode Document "" [] [
             mkNode Paragraph "" [] [Node_text Text "one - two # three"] 0
           ] 0).
Proof.
  assert (Hnth : nth_error ["one"; "- two"; "# three"; "#  "; "four"] 0
                 = Some "one") by reflexivity.
  assert (Hrule : reaches_paragraph_rule "one" = true)
    by (vm_compute; reflexivity).
  split; [exact Hnth|]. split; [exact Hrule|].
  rewrite (paragraph_rule _ 0 (Node_of Document) _ Hnth Hrule).
  vm_compute. reflexivity.
Defined.

Lemma parse_table_rows_run (fuel : nat) (lines : list string) :
  forall pos table_node,
    List.length lines - pos <= fuel ->
    let run :=
      take_until (fun l => negb (contains_char "|" l)) (skipn pos lines) in
    parse_table_rows fuel lines pos table_node =
      (pos + List.length run,
       mkNode (type table_node) (text table_node) (attributes table_node)
         (children table_node ++ table_rows run)%list (level table_node)).
Proof.
  induction fuel as [|fuel IH]; intros pos table_node Hfuel;
    cbn zeta; cbn [parse_table_rows]; rewrite (skipn_nth_error lines pos).
  - assert (Hnone : nth_error lines pos = None)
      by (apply nth_error_None; lia).
    rewrite Hnone. cbn [take_until List.length].
    unfold table_rows. cbn [filter map].
    rewrite Nat.add_0_r, app_nil_r. destruct table_node; reflexivity.
  - destruct (nth_error lines pos) as [l|] eqn:Hnth.
    + cbn [take_until]. destruct (contains_char "|" l); cbn [negb].
      * assert (Hlt : pos < List.length lines)
          by (apply nth_error_Some; congruence).
        replace (pos + 1) with (S pos) by lia.
        unfold table_rows. cbn [filter List.length].
        destruct (matches l table_separator_regex); cbn [negb].
        -- rewrite (IH (S pos) table_node) by lia. cbn zeta.
           f_equal. lia.
        -- cbn [map filter].
           destruct (children (parse_row l)) as [|cell cells] eqn:Hrow;
             cbn [List.length Nat.eqb negb].
           ++ rewrite (IH (S pos) table_node) by lia. cbn zeta.
              f_equal. lia.
           ++ rewrite (IH (S pos) (push_child table_node (parse_row l)))
                by lia.
              cbn zeta.
              cbn [push_child type text attributes children level].
              rewrite <- app_assoc. cbn [app]. f_equal. lia.
      * cbn [List.length]. unfold table_rows. cbn [filter map].
        rewrite Nat.add_0_r, app_nil_r. destruct table_node; reflexivity.
    + cbn [take_until List.length]. unfold table_rows. cbn [filter map].
      rewrite Nat.add_0_r, app_nil_r. destruct table_node; reflexivity.
Qed.

End BlockFacts.

(** ** Headings and inline text *)

Module InlineFacts.
Import Cpp Regex markdown markdown.Deserializer Spec StringFacts RegexFacts
  ListFacts ParsedFacts MarkdownSpec RegexSpec.

Lemma length_substring_0 (s : string) :
  forall j, j <= length s -> length (substring 0 j s) = j.
Proof.
  induction s as [|c s IH]; intros [|j] Hj; cbn in *; try lia.
  rewrite IH; lia.
Qed.

Lemma substring_0_length (s : string) : substring 0 (length s) s = s.
Proof. induction s as [|c s IH]; cbn; [reflexivity | now rewrite IH]. Qed.

(** The first group of the heading pattern holds one to six characters. *)
Lemma heading_match_level (line : string) (m : smatch) :
  regex_match line heading_regex = Some m ->
  1 <= length (sub m 1) <= 6.
Proof.
  unfold regex_match.
  destruct (run heading_regex true line 0 no_captures) as [[e caps]|] eqn:R;
    [|discriminate].
  intros E. injection E as <-.
  unfold heading_regex, between, plus in R.
  change (run (Bol :: ?re) true line 0 no_captures)
    with (run re true line 0 no_captures) in R.
  change (rep_from (chr "#") 1 (Some 6) true
            (fun rest pos =>
               run [GroupClose 1; Rep space 1 None true; GroupOpen 2;
                    Rep dot 1 None true; GroupClose 2; Eol]
                 true rest pos (mkCaptures [(1, 0)] []))
            line 0 0 = Some (e, caps)) in R.
  destruct (rep_from_inv _ _ _ _ _ _ _ _ _ R)
    as (j & Hj & Hmin & Hmax & _ & Hnext).
  cbn beta in Hnext.
  change (run [Rep space 1 None true; GroupOpen 2; Rep dot 1 None true;
               GroupClose 2; Eol]
            true (drop j line) (0 + j) (mkCaptures [(1, 0)] [(1, 0 + j)])
          = Some (e, caps)) in Hnext.
  destruct (run_inv _ _ _ _ _ _ _ Hnext) as (_ & _ & Keep).
  destruct (Keep 1) as [Ks Ke].
  { cbn. intros [H|[H|[]]]; discriminate. }
  cbn [starts ends lookup Nat.eqb] in Ks, Ke.
  unfold sub. cbn [groups subject]. rewrite Ks, Ke.
  unfold substr. cbn [Nat.add]. rewrite Nat.sub_0_r.
  rewrite length_substring_0 by exact Hj.
  destruct Hmax as [->|Hmax]; cbn [within] in *; lia.
Qed.

Lemma parse_block_levels (lines : list string) (pos : nat) (parent : Node) :
  forallb heading_level_ok (children parent) = true ->
  forallb heading_level_ok (children (snd (parse_block lines pos parent)))
  = true.
Proof.
  intros H.
  assert (Push : forall c, heading_level_ok c = true ->
            forallb heading_level_ok (children (push_child parent c)) = true).
  { intros c Hc. cbn [push_child children]. rewrite forallb_app, H.
    cbn. now rewrite Hc. }
  assert (Other : forall c c0, same_header c c0 -> type c0 <> Heading ->
            heading_level_ok c = true).
  { intros c c0 (Ht & _) Hn. unfold heading_level_ok. rewrite Ht.
    destruct (type c0); try reflexivity. congruence. }
  unfold parse_block.
  destruct (nth_error lines pos) as [line|]; [|exact H].
  destruct (line =? ""); [exact H|].
  destruct (matches line hr_regex); [apply Push; reflexivity|].
  destruct (regex_match line heading_regex) as [hm|] eqn:Hm.
  { apply Push. unfold heading_level_ok. cbn [Node_level type level].
    pose proof (heading_match_level line hm Hm).
    apply andb_true_intro. split; apply Z.leb_le; lia. }
  destruct (regex_match line fence_open_regex) as [cm|].
  { destruct (collect_code _ lines (pos + 1) "") as [p content].
    apply Push. destruct (negb (sub cm 1 =? "")); reflexivity. }
  destruct (regex_match line quote_regex) as [qm|].
  { apply Push. eapply Other; [apply parse_inline_header | discriminate]. }
  destruct (item_match line) as [im|].
  { pose proof (parse_list_items_header (List.length lines - pos) lines pos
                  (matches line ordered_regex) (Node_of List)) as Hd.
    destruct (parse_list_items _ lines pos _ (Node_of List)) as [p list_node].
    apply Push. eapply Other; [exact Hd | discriminate]. }
  destruct (contains_char "|" line).
  { pose proof (parse_table_rows_header (List.length lines - pos) lines pos
                  (Node_of Table)) as Hd.
    destruct (parse_table_rows _ lines pos (Node_of Table)) as [p table_node].
    apply Push. eapply Other; [exact Hd | discriminate]. }
  destruct (collect_paragraph _ lines (pos + 1) line) as [p paragraph_text].
  apply Push. eapply Other; [apply parse_inline_header | discriminate].
Qed.

Lemma parse_blocks_levels (fuel : nat) :
  forall lines pos document,
    forallb heading_level_ok (children document) = true ->
    forallb heading_level_ok
      (children (parse_blocks fuel lines pos document)) = true.
Proof.
  induction fuel as [|fuel IH]; intros lines pos document H;
    cbn [parse_blocks]; [exact H|].
  destruct (Nat.ltb pos (List.length lines)); [|exact H].
  pose proof (parse_block_levels lines pos document H) as K.
  destruct (parse_block lines pos document) as [p d]. now apply IH.
Qed.

(** X18: every [Heading] block of a parsed document has a level from 1 to 6.
    *)
Theorem deserialize_heading_levels (md : string) :
  forallb heading_level_ok (children (deserialize md)) = true.
Proof. unfold deserialize. now apply parse_blocks_levels. Qed.

Lemma all_chars_impl (p q : ascii -> bool) (s : string) :
  (forall c, p c = true -> q c = true) ->
  all_chars p s = true -> all_chars q s = true.
Proof.
  intros Hpq. induction s as [|c s IH]; [reflexivity|].
  cbn [all_chars]. intros H. apply andb_prop in H. destruct H as [Hc Hs].
  now rewrite (Hpq c Hc), (IH Hs).
Qed.

Lemma not_mem_not_chr (set : string) (d : ascii) :
  mem_char d set = true ->
  forall c, negb (mem_char c set) = true -> negb (chr d c) = true.
Proof.
  intros Hd c Hc. unfold chr. apply negb_true_iff.
  apply Ascii.eqb_neq. intros ->. rewrite Hd in Hc. discriminate.
Qed.

Lemma parse_inline_plain_text (text : string) (parent : Node) :
  text <> "" ->
  all_chars (fun c => negb (mem_char c "*`[")) text = true ->
  parse_inline text parent = push_child parent (Node_text Text text).
Proof.
  intros Hne Hplain.
  assert (Absent : forall d, mem_char d "*`[" = true ->
            all_chars (fun c => negb (chr d c)) text = true).
  { intros d Hd. eapply all_chars_impl; [|exact Hplain].
    apply not_mem_not_chr. exact Hd. }
  unfold parse_inline. apply String.eqb_neq in Hne. rewrite Hne.
  assert (Hlt : Nat.ltb 0 (length text) = true).
  { apply Nat.ltb_lt. destruct text; [discriminate Hne | cbn; lia]. }
  remember (length text) as fuel eqn:Hfuel.
  destruct fuel as [|n]; [discriminate Hlt|].
  cbn [parse_inline_loop].
  assert (Hlt' : Nat.ltb 0 (length text) = true) by now rewrite <- Hfuel.
  rewrite Hlt'.
  unfold substr_from. rewrite Nat.sub_0_r, substring_0_length.
  unfold regex_search, bold_regex, italic_regex, code_regex, link_regex,
    img_regex.
  rewrite (search_from_first_absent text (chr "*") _ text 0)
    by (apply Absent; reflexivity).
  rewrite (search_from_first_absent text (chr "*") _ text 0)
    by (apply Absent; reflexivity).
  rewrite (search_from_first_absent text (chr "`") _ text 0)
    by (apply Absent; reflexivity).
  rewrite (search_from_first_absent text (chr "[") _ text 0)
    by (apply Absent; reflexivity).
  rewrite (search_from_second_absent text (chr "!") (chr "[") _ text 0)
    by (apply Absent; reflexivity).
  rewrite Hne. cbn [negb].
  cbn [push_child children].
  destruct (children parent); reflexivity.
Qed.

(** X19: text without an asterisk, a backtick or an opening square bracket is
    kept whole as one [Text] child. *)
Theorem parse_inline_plain (text : string) (parent : Node) :
  text <> "" ->
  all_chars (fun c => negb (mem_char c "*`[")) text = true ->
  parse_inline text parent = push_child parent (Node_text Text text).
Proof. exact (parse_inline_plain_text text parent). Qed.

Lemma parse_inline_plain_witness :
  "Hello, world! (1 < 2)" <> ""
  /\ all_chars (fun c => negb (mem_char c "*`[")) "Hello, world! (1 < 2)" = true
  /\ parse_inline "Hello, world! (1 < 2)" (Node_of Paragraph)
     = mkNode Paragraph "" [] [Node_text Text "Hello, world! (1 < 2)"] 0.
Proof.
  assert (Hne : "Hello, world! (1 < 2)" <> "") by discriminate.
  assert (Hp : all_chars (fun c => negb (mem_char c "*`["))
                 "Hello, world! (1 < 2)" = true) by reflexivity.
  split; [exact Hne|]. split; [exact Hp|].
  rewrite (parse_inline_plain _ (Node_of Paragraph) Hne Hp). reflexivity.
Defined.

(** Every inline pattern takes at least two characters. *)
Lemma inline_patterns_min_length :
  2 <= min_length bold_regex /\ 2 <= min_length italic_regex
  /\ 2 <= min_length code_regex /\ 2 <= min_length link_regex
  /\ 2 <= min_length img_regex.
Proof. cbn. lia. Qed.

Lemma regex_search_advances (s : string) (re : regex) (m : smatch) :
  regex_search s re = Some m ->
  min_length re <= prefix_length m + match_length m.
Proof.
  unfold regex_search, prefix_length, match_length. intros H.
  apply search_from_inv in H. lia.
Qed.

(** X20: a round of the inline loop that finds a span moves the cursor
    forward, so the loop is over after at most [remaining.length() - pos]
    rounds: with a larger bound the result is the same. *)
Theorem parse_inline_loop_enough (fuel : nat) :
  forall remaining pos parent extra,
    length remaining - pos <= fuel ->
    parse_inline_loop (fuel + extra) remaining pos parent
    = parse_inline_loop fuel remaining pos parent.
Proof.
  destruct inline_patterns_min_length as (Hb & Hi & Hc & Hl & Hg).
  induction fuel as [|fuel IH]; intros remaining pos parent extra Hfuel.
  - cbn [Nat.add parse_inline_loop]. destruct extra; [reflexivity|].
    cbn [parse_inline_loop].
    destruct (Nat.ltb_spec pos (length remaining)); [lia | reflexivity].
  - cbn [Nat.add parse_inline_loop].
    destruct (Nat.ltb_spec pos (length remaining)); [|reflexivity].
    repeat
      match goal with
      | |- match ?o with Some _ => _ | None => _ end
           = match ?o with Some _ => _ | None => _ end =>
          let E := fresh "E" in
          destruct o eqn:E;
            [apply regex_search_advances in E; apply IH; lia|]
      end.
    reflexivity.
Qed.

Lemma parse_inline_loop_enough_witness :
  length "a **b** c" - 0 <= 9
  /\ parse_inline_loop (9 + 100) "a **b** c" 0 (Node_of Paragraph)
     = parse_inline_loop 9 "a **b** c" 0 (Node_of Paragraph).
Proof.
  assert (H : length "a **b** c" - 0 <= 9) by (cbn; lia).
  split; [exact H|].
  exact (parse_inline_loop_enough 9 "a **b** c" 0 (Node_of Paragraph) 100 H).
Defined.

End InlineFacts.

(** ** Writing a leaf element and reading it back *)

Module RoundTrip.
Import Cpp html html.Serializer html.Deserializer Spec StringFacts
  CodecFacts SerializerFacts ParserFacts CodecSpec SerializerSpec ParserSpec.

Lemma collect_while_segment (p : ascii -> bool) (f : ascii -> ascii)
    (rest : string) :
  match rest with
  | EmptyString => True
  | String c _ => p c = false
  end ->
  forall s pre acc fuel,
    all_chars p s = true ->
    length s <= fuel ->
    collect_while fuel p f (pre ++ s ++ rest) (length pre) acc
    = (acc ++ map_string f s, length pre + length s).
Proof.
  intros Hrest. induction s as [|c s IH]; intros pre acc fuel Hs Hfuel.
  - cbn [append map_string length]. rewrite append_nil_r, Nat.add_0_r.
    destruct fuel; cbn [collect_while]; [reflexivity|].
    rewrite get_at_length.
    destruct rest as [|d rest]; cbn [get]; [reflexivity|].
    now rewrite Hrest.
  - cbn [all_chars] in Hs. apply andb_prop in Hs. destruct Hs as [Hc Hs].
    cbn [length] in Hfuel. destruct fuel as [|fuel]; [lia|].
    cbn [collect_while]. rewrite get_at_length. cbn [append get].
    rewrite Hc.
    replace (pre ++ String c (s ++ rest)) with ((pre ++ str c) ++ s ++ rest)
      by (rewrite append_assoc; reflexivity).
    replace (length pre + 1) with (length (pre ++ str c))
      by (rewrite length_append; reflexivity).
    rewrite IH by (auto; lia).
    rewrite length_append, append_assoc. cbn [map_string length str append].
    f_equal. lia.
Qed.

Lemma collect_segment (p : ascii -> bool) (f : ascii -> ascii)
    (pre s rest : string) :
  match rest with
  | EmptyString => True
  | String c _ => p c = false
  end ->
  all_chars p s = true ->
  collect p f (pre ++ s ++ rest) (length pre)
  = (map_string f s, length pre + length s).
Proof.
  intros Hrest Hs. unfold collect.
  rewrite (collect_while_segment p f rest Hrest s pre "") by
    (auto; rewrite !length_append; lia).
  reflexivity.
Qed.

Lemma map_string_tolower (s : string) :
  all_chars (fun c => negb (isupper c)) s = true -> map_string tolower s = s.
Proof.
  induction s as [|c s IH]; [reflexivity|].
  cbn [all_chars map_string]. intros H. apply andb_prop in H.
  destruct H as [Hc Hs]. rewrite (IH Hs). unfold tolower.
  apply negb_true_iff in Hc. now rewrite Hc.
Qed.

Lemma all_chars_and (p q : ascii -> bool) (s : string) :
  all_chars (fun c => p c && q c) s = true ->
  all_chars p s = true /\ all_chars q s = true.
Proof.
  induction s as [|c s IH]; [split; reflexivity|].
  cbn [all_chars]. intros H. apply andb_prop in H. destruct H as [Hc Hs].
  apply andb_prop in Hc. destruct Hc as [Hp Hq].
  destruct (IH Hs) as [Ip Iq]. now rewrite Hp, Hq, Ip, Iq.
Qed.

Lemma all_chars_weaken (p q : ascii -> bool) (s : string) :
  (forall c, p c = true -> q c = true) ->
  all_chars p s = true -> all_chars q s = true.
Proof.
  intros Hpq. induction s as [|c s IH]; [reflexivity|].
  cbn [all_chars]. intros H. apply andb_prop in H. destruct H as [Hc Hs].
  now rewrite (Hpq c Hc), (IH Hs).
Qed.

(** The body loop on text without a less-than sign, up to a closing tag. *)
Lemma parse_body_text (rest : string) (node : Node) :
  forall s pre acc fuel,
    all_chars (fun c => negb (Ascii.eqb c "<")) s = true ->
    length s < fuel ->
    parse_body fuel (pre ++ s ++ String "<" (String "/" rest)) (length pre)
      acc node
    = Ok (node, acc ++ s, length pre + length s).
Proof.
  induction s as [|c s IH]; intros pre acc fuel Hs Hfuel.
  - destruct fuel as [|fuel]; [cbn in Hfuel; lia|].
    cbn [append length]. rewrite append_nil_r, Nat.add_0_r.
    assert (G1 : get (length pre) (pre ++ String "<" (String "/" rest))
                 = Some "<"%char)
      by (rewrite get_at_length; reflexivity).
    assert (G2 : get (length pre + 1) (pre ++ String "<" (String "/" rest))
                 = Some "/"%char)
      by (rewrite get_append_right; reflexivity).
    cbn [parse_body]. rewrite G1.
    change (Ascii.eqb "<" "<") with true. cbn iota.
    unfold at_pos. rewrite G2. unfold is_char.
    change (Ascii.eqb "/" "/") with true. cbn iota. reflexivity.
  - cbn [all_chars] in Hs. apply andb_prop in Hs. destruct Hs as [Hc Hs].
    cbn [length] in Hfuel. destruct fuel as [|fuel]; [lia|].
    assert (G : get (length pre)
                  (pre ++ String c s ++ String "<" (String "/" rest))
                = Some c)
      by (rewrite get_at_length; reflexivity).
    cbn [parse_body]. rewrite G.
    apply negb_true_iff in Hc. rewrite Hc.
    replace (pre ++ String c s ++ String "<" (String "/" rest))
      with ((pre ++ str c) ++ s ++ String "<" (String "/" rest))
      by (rewrite append_assoc; reflexivity).
    replace (length pre + 1) with (length (pre ++ str c))
      by (rewrite length_append; reflexivity).
    rewrite IH by (auto; lia).
    rewrite length_append, append_assoc. cbn [length str append].
    replace (length pre + 1 + length s) with (length pre + S (length s))
      by lia.
    reflexivity.
Qed.

(** *** Trimming *)

Lemma find_last_not_of_end (set : string) (s : string) :
  match last_char s with
  | Some d => mem_char d set = false
  | None => False
  end ->
  find_last_not_of s set = Some (length s - 1).
Proof.
  induction s as [|c s IH]; [intros []|].
  destruct s as [|d s].
  - cbn. intros ->. reflexivity.
  - intros H. change (last_char (String c (String d s)))
      with (last_char (String d s)) in H.
    specialize (IH H).
    change (find_last_not_of (String c (String d s)) set)
      with (match find_last_not_of (String d s) set with
            | Some i => Some (S i)
            | None => if mem_char c set then None else Some 0
            end).
    rewrite IH. cbn [length]. f_equal. lia.
Qed.

Lemma last_char_nonempty (s : string) : s <> "" -> last_char s <> None.
Proof.
  induction s as [|c s IH]; [congruence|]. intros _.
  destruct s as [|d s]; [discriminate|].
  change (last_char (String c (String d s))) with (last_char (String d s)).
  apply IH. discriminate.
Qed.

Lemma substring_all (s : string) : substring 0 (length s) s = s.
Proof. induction s as [|c s IH]; cbn; [reflexivity | now rewrite IH]. Qed.

(** Text that neither begins nor ends with a trimmed character is left as
    it is by the trimming. *)
Lemma trim_no_outer_space (s : string) :
  no_outer_space s = true -> trim s = s.
Proof.
  destruct s as [|c s]; [reflexivity|].
  unfold no_outer_space, is_trim_char. intros H.
  apply andb_prop in H. destruct H as [Hc Hl].
  apply negb_true_iff in Hc.
  unfold trim. cbn [find_first_not_of]. rewrite Hc.
  rewrite (find_last_not_of_end trim_chars (String c s)).
  - unfold substr. cbn [length].
    replace (S (length s) - 1 - 0 + 1) with (length (String c s))
      by (cbn [length]; lia).
    apply substring_all.
  - destruct (last_char (String c s)) as [d|] eqn:E.
    + now apply negb_true_iff in Hl.
    + exfalso. revert E. apply last_char_nonempty. discriminate.
Qed.

Lemma last_char_append (a b : string) :
  b <> "" -> last_char (a ++ b) = last_char b.
Proof.
  intros Hb. induction a as [|c a IH]; [reflexivity|].
  cbn [append]. destruct (a ++ b) eqn:E.
  - destruct a; [cbn in E; congruence | discriminate].
  - change (last_char (String c (String a0 s))) with (last_char (String a0 s)).
    exact IH.
Qed.

Lemma escape_html_nonempty (t : string) : t <> "" -> escape_html t <> "".
Proof.
  intros Ht E. apply (f_equal length) in E.
  pose proof (length_escape_html t). destruct t; [congruence|].
  cbn [length] in *. lia.
Qed.

Lemma last_ok_escape_char (c : ascii) :
  is_trim_char c = false -> last_ok (escape_char c) = true.
Proof.
  intros H. split_escape_char c; try reflexivity.
  unfold last_ok. cbn [str last_char]. now rewrite H.
Qed.

Lemma last_ok_escape (t : string) :
  last_ok t = true -> last_ok (escape_html t) = true.
Proof.
  induction t as [|c t IH]; [reflexivity|].
  destruct t as [|d t].
  - unfold last_ok at 1. cbn [last_char]. intros H.
    apply negb_true_iff in H. cbn [escape_html].
    rewrite append_nil_r. now apply last_ok_escape_char.
  - intros H. change (last_ok (String d t) = true) in H.
    specialize (IH H).
    change (escape_html (String c (String d t)))
      with (escape_char c ++ escape_html (String d t)).
    unfold last_ok in *.
    rewrite last_char_append by (apply escape_html_nonempty; discriminate).
    exact IH.
Qed.

Lemma first_escape_char (c : ascii) :
  is_trim_char c = false ->
  exists d rest, escape_char c = String d rest /\ is_trim_char d = false.
Proof.
  intros H. split_escape_char c;
    try (eexists; eexists; split; [reflexivity | reflexivity]).
  exists c, "". split; [reflexivity | exact H].
Qed.

Lemma escape_no_outer_space (t : string) :
  no_outer_space t = true -> no_outer_space (escape_html t) = true.
Proof.
  destruct t as [|c t]; [reflexivity|].
  unfold no_outer_space at 1. intros H.
  apply andb_prop in H. destruct H as [Hc Hl].
  apply negb_true_iff in Hc.
  pose proof (last_ok_escape (String c t) Hl) as L.
  cbn [escape_html] in *.
  destruct (first_escape_char c Hc) as (d & rest & E & Hd).
  rewrite E in *. cbn [append] in *.
  unfold no_outer_space. rewrite Hd. cbn [negb andb]. exact L.
Qed.

(** *** What the escaped text is free of *)

Lemma escape_html_no_less_than (t : string) :
  all_chars (fun c => negb (Ascii.eqb c "<")) (escape_html t) = true.
Proof.
  induction t as [|c t IH]; [reflexivity|].
  cbn [escape_html].
  assert (A : forall a b, all_chars (fun c => negb (Ascii.eqb c "<")) a = true ->
                all_chars (fun c => negb (Ascii.eqb c "<")) b = true ->
                all_chars (fun c => negb (Ascii.eqb c "<")) (a ++ b) = true).
  { induction a as [|x a IHa]; intros b Ha Hb; [exact Hb|].
    cbn [append all_chars] in *. apply andb_prop in Ha.
    destruct Ha as [Hx Ha]. now rewrite Hx, (IHa b Ha Hb). }
  apply A; [|exact IH].
  split_escape_char c; try reflexivity.
  cbn [str all_chars]. apply Ascii.eqb_neq in Hlt. now rewrite Hlt.
Qed.

Lemma parse_attributes_stop (fuel : nat) (html : string) (pos : nat)
    (node : Node) :
  at_pos html pos
    (fun c => negb (Ascii.eqb c ">") && negb (Ascii.eqb c "/")) = false ->
  parse_attributes fuel html pos node = Ok (node, pos).
Proof. intros H. destruct fuel; cbn [parse_attributes]; now rewrite H. Qed.

Lemma get_cursor (html pre : string) (c : ascii) (rest : string) :
  html = pre ++ String c rest -> get (length pre) html = Some c.
Proof. intros ->. rewrite get_at_length. reflexivity. Qed.

Lemma at_cursor (html pre : string) (c : ascii) (rest : string)
    (p : ascii -> bool) :
  html = pre ++ String c rest -> at_pos html (length pre) p = p c.
Proof. intros H. unfold at_pos. now rewrite (get_cursor _ _ _ _ H). Qed.

Lemma collect_cursor (p : ascii -> bool) (f : ascii -> ascii)
    (html pre s rest : string) :
  html = pre ++ s ++ rest ->
  match rest with
  | EmptyString => True
  | String c _ => p c = false
  end ->
  all_chars p s = true ->
  collect p f html (length pre) = (map_string f s, length (pre ++ s)).
Proof.
  intros -> Hrest Hs. rewrite length_append.
  now apply collect_segment.
Qed.

Lemma skip_cursor (html pre : string) (c : ascii) (rest : string) :
  html = pre ++ String c rest -> isspace c = false ->
  skip_whitespace html (length pre) = length pre.
Proof.
  intros H Hc. eapply skip_whitespace_stay; [|exact Hc].
  eapply get_cursor; eauto.
Qed.

Lemma map_string_id (s : string) : map_string (fun c => c) s = s.
Proof. induction s as [|c s IH]; cbn; [reflexivity | now rewrite IH]. Qed.

(** One space before a character that is none is skipped. *)
Lemma skip_one_space (html pre : string) (c : ascii) (rest : string) :
  html = pre ++ String " " (String c rest) -> isspace c = false ->
  skip_whitespace html (length pre) = length pre + 1.
Proof.
  intros H Hc. unfold skip_whitespace.
  rewrite (collect_cursor isspace (fun c => c) html pre " " (String c rest));
    [|exact H|exact Hc|reflexivity].
  cbn [snd]. rewrite length_append. reflexivity.
Qed.

Lemma all_chars_append (p : ascii -> bool) (a b : string) :
  all_chars p a = true -> all_chars p b = true ->
  all_chars p (a ++ b) = true.
Proof.
  induction a as [|x a IH]; intros Ha Hb; [exact Hb|].
  cbn [append all_chars] in *. apply andb_prop in Ha.
  destruct Ha as [Hx Ha]. now rewrite Hx, (IH Ha Hb).
Qed.

Lemma escape_html_no_quote (t : string) :
  all_chars (fun c => negb (Ascii.eqb c dquote)) (escape_html t) = true.
Proof.
  induction t as [|c t IH]; [reflexivity|].
  cbn [escape_html]. apply all_chars_append; [|exact IH].
  split_escape_char c; try reflexivity.
  cbn [str all_chars]. apply Ascii.eqb_neq in Hquot. now rewrite Hquot.
Qed.

Ltac norm_length := rewrite ?length_append; cbn [length str append]; try lia.
Ltac cursor_eq H :=
  rewrite H; unfold str; norm_append; reflexivity.

Lemma parse_quoted_value (html pre value rest : string) :
  html = pre ++ "=" ++ str dquote ++ value ++ str dquote ++ rest ->
  all_chars (fun c => negb (Ascii.eqb c dquote)) value = true ->
  parse_attribute_value html (length pre)
  = (value, length (pre ++ "=" ++ str dquote ++ value ++ str dquote)).
Proof.
  intros H Hv. unfold parse_attribute_value.
  rewrite (at_cursor html pre "="
             (str dquote ++ value ++ str dquote ++ rest)) by exact H.
  change (is_char "=" "=") with true. cbn iota.
  assert (H1 : html = (pre ++ "=") ++ String dquote (value ++ str dquote ++ rest))
    by cursor_eq H.
  replace (length pre + 1) with (length (pre ++ "=")) by norm_length.
  rewrite (skip_cursor html _ _ _ H1) by reflexivity.
  rewrite (at_cursor html _ _ _ _ H1).
  change (is_char dquote dquote) with true. cbn iota.
  assert (H2 : html = (pre ++ "=" ++ str dquote) ++ value ++ str dquote ++ rest)
    by cursor_eq H.
  replace (length (pre ++ "=") + 1) with (length (pre ++ "=" ++ str dquote))
    by norm_length.
  rewrite (collect_cursor _ _ html _ value _ H2) by (auto; reflexivity).
  rewrite map_string_id.
  assert (Hlen : length ((pre ++ "=" ++ str dquote) ++ value) < length html).
  { rewrite H. norm_length. }
  destruct (Nat.ltb_spec (length ((pre ++ "=" ++ str dquote) ++ value))
              (length html)); [|lia].
  f_equal. norm_length.
Qed.

Lemma attribute_name_parts (k : string) :
  attribute_name k = true ->
  k <> "" /\ all_chars key_char k = true
  /\ all_chars (fun c => negb (isupper c)) k = true.
Proof.
  unfold attribute_name. intros H. apply andb_prop in H.
  destruct H as [Hne Hall]. apply negb_true_iff, String.eqb_neq in Hne.
  apply all_chars_and in Hall. tauto.
Qed.

Lemma parse_attribute_quoted (html pre k value rest : string) (node : Node) :
  html = pre ++ k ++ "=" ++ str dquote ++ value ++ str dquote ++ rest ->
  attribute_name k = true ->
  all_chars (fun c => negb (Ascii.eqb c dquote)) value = true ->
  parse_attribute html (length pre) node
  = (set_attribute node k value,
     skip_whitespace html
       (length (pre ++ k ++ "=" ++ str dquote ++ value ++ str dquote))).
Proof.
  intros H Hk Hv. destruct (attribute_name_parts k Hk) as (Hne & Hkey & Hlow).
  unfold parse_attribute.
  rewrite (collect_cursor key_char tolower html pre k
             ("=" ++ str dquote ++ value ++ str dquote ++ rest) H)
    by (auto; reflexivity).
  rewrite (map_string_tolower k Hlow).
  assert (H1 : html = (pre ++ k)
                      ++ "=" ++ str dquote ++ value ++ str dquote ++ rest)
    by cursor_eq H.
  rewrite (skip_cursor html (pre ++ k) "="
             (str dquote ++ value ++ str dquote ++ rest) H1) by reflexivity.
  rewrite (parse_quoted_value html (pre ++ k) value rest H1 Hv).
  apply String.eqb_neq in Hne. rewrite Hne. cbn [negb].
  f_equal. f_equal. norm_length.
Qed.

Lemma join_shown_attributes (k v : string) (l : StdMap.t) :
  join (map shown_attribute ((k, v) :: l)) = " " ++ attrs_text ((k, v) :: l).
Proof.
  cbn [map join attrs_text]. unfold shown_attribute. cbn [fst snd].
  norm_append. reflexivity.
Qed.

Lemma parse_attributes_run (rest : string) :
  forall l pre node fuel html,
    html = pre ++ attrs_text l ++ ">" ++ rest ->
    forallb attribute_name (StdMap.keys l) = true ->
    length (attrs_text l) <= fuel ->
    parse_attributes fuel html (length pre) node
    = Ok (fold_left
            (fun n kv => set_attribute n (fst kv) (escape_html (snd kv)))
            l node,
          length (pre ++ attrs_text l)).
Proof.
  induction l as [|[k v] l IH]; intros pre node fuel html H Hkeys Hfuel.
  - cbn [attrs_text append] in *. rewrite append_nil_r.
    rewrite parse_attributes_stop; [reflexivity|].
    rewrite (at_cursor html pre ">" rest) by exact H. reflexivity.
  - cbn [StdMap.keys map fst forallb] in Hkeys. apply andb_prop in Hkeys.
    destruct Hkeys as [Hk Hkeys].
    destruct (attribute_name_parts k Hk) as (Hne & Hkey & Hlow).
    set (tail := join (map shown_attribute l) ++ ">" ++ rest).
    assert (H1 : html = pre ++ k ++ "=" ++ str dquote ++ escape_html v
                        ++ str dquote ++ tail).
    { rewrite H. unfold tail. cbn [attrs_text]. norm_append. reflexivity. }
    destruct k as [|c k']; [congruence|].
    destruct fuel as [|fuel]; [cbn [attrs_text append length] in Hfuel; lia|].
    cbn [parse_attributes].
    assert (Hc : key_char c = true).
    { cbn [all_chars] in Hkey. apply andb_prop in Hkey. tauto. }
    rewrite (at_cursor html pre c
               (k' ++ "=" ++ str dquote ++ escape_html v ++ str dquote ++ tail))
      by exact H1.
    assert (Hc' : negb (Ascii.eqb c ">") && negb (Ascii.eqb c "/") = true).
    { unfold key_char in Hc. repeat (apply andb_prop in Hc; destruct Hc as [Hc ?]).
      apply andb_true_intro. split; assumption. }
    rewrite Hc'.
    rewrite (parse_attribute_quoted html pre (String c k') (escape_html v) tail
               node H1 Hk (escape_html_no_quote v)).
    set (seen := pre ++ String c k' ++ "=" ++ str dquote ++ escape_html v
                 ++ str dquote).
    cbn [fold_left fst snd].
    destruct l as [|[k2 v2] l].
    + assert (H2 : html = seen ++ String ">" rest).
      { rewrite H1. unfold seen, tail. cbn [map join]. norm_append. reflexivity. }
      rewrite (skip_cursor html seen ">" rest H2) by reflexivity.
      rewrite (IH seen _ fuel html); [| |reflexivity|cbn; lia].
      * cbn [fold_left attrs_text map join]. f_equal. f_equal.
        unfold seen. norm_append. reflexivity.
      * rewrite H2. reflexivity.
    + assert (Hk2 : attribute_name k2 = true).
      { cbn [StdMap.keys map fst forallb] in Hkeys. apply andb_prop in Hkeys. tauto. }
      destruct (attribute_name_parts k2 Hk2) as (Hne2 & Hkey2 & _).
      destruct k2 as [|c2 k2']; [congruence|].
      assert (Hc2 : isspace c2 = false).
      { cbn [all_chars] in Hkey2. apply andb_prop in Hkey2.
        destruct Hkey2 as [Hkey2 _]. unfold key_char in Hkey2.
        apply andb_prop in Hkey2. destruct Hkey2 as [_ Hkey2].
        now apply negb_true_iff in Hkey2. }
      set (more := attrs_text ((String c2 k2', v2) :: l)) in *.
      assert (H2 : html = seen ++ " " ++ more ++ ">" ++ rest).
      { rewrite H1. unfold seen, tail. rewrite join_shown_attributes.
        fold more. norm_append. reflexivity. }
      rewrite (skip_one_space html seen c2
                 (k2' ++ "=" ++ str dquote ++ escape_html v2 ++ str dquote
                  ++ join (map shown_attribute l) ++ ">" ++ rest)) .
      * replace (length seen + 1) with (length (seen ++ " ")) by norm_length.
        rewrite (IH (seen ++ " ") _ fuel html).
        -- f_equal. f_equal. unfold seen. cbn [attrs_text].
           rewrite join_shown_attributes. fold more. norm_append. reflexivity.
        -- rewrite H2. norm_append. reflexivity.
        -- exact Hkeys.
        -- cbn [attrs_text] in Hfuel. rewrite join_shown_attributes in Hfuel.
           fold more in Hfuel. revert Hfuel. norm_length.
      * rewrite H2. unfold more. cbn [attrs_text]. norm_append. reflexivity.
      * exact Hc2.
Qed.

(** *** Entries inserted in increasing key order *)

Lemma ltb_trans (a b c : string) :
  String.ltb a b = true -> String.ltb b c = true -> String.ltb a c = true.
Proof.
  unfold String.ltb. intros Hab Hbc.
  destruct (String.compare a b) eqn:Eab; try discriminate.
  destruct (String.compare b c) eqn:Ebc; try discriminate.
  apply String_as_OT.cmp_lt in Eab, Ebc.
  pose proof (String_as_OT.lt_trans _ _ _ Eab Ebc) as L.
  apply String_as_OT.cmp_lt in L. unfold String_as_OT.cmp in L.
  now rewrite L.
Qed.

Lemma sorted_before (ks1 : list string) (k : string) (ks2 : list string) :
  StdMap.sorted (ks1 ++ k :: ks2)%list ->
  Forall (fun a => String.ltb a k = true) ks1.
Proof.
  induction ks1 as [|a ks1 IH]; intros H; [constructor|].
  cbn [app StdMap.sorted] in H. destruct H as [Hhd Htl].
  specialize (IH Htl). constructor; [|exact IH].
  destruct ks1 as [|a' ks1]; [exact Hhd|].
  cbn [app] in Hhd. inversion IH; subst. eapply ltb_trans; eauto.
Qed.

Lemma insert_last (k v : string) (m : StdMap.t) :
  Forall (fun a => String.ltb a k = true) (StdMap.keys m) ->
  StdMap.insert k v m = (m ++ [(k, v)])%list.
Proof.
  induction m as [|[a w] m IH]; intros H; [reflexivity|].
  cbn [StdMap.keys map fst] in H. inversion H as [|? ? Ha Hm]; subst.
  cbn [StdMap.insert app]. unfold String.ltb in Ha.
  rewrite String.compare_antisym.
  destruct (String.compare a k); try discriminate. cbn [CompOpp].
  f_equal. apply IH. exact Hm.
Qed.

Lemma fold_insert_sorted (f : string -> string) :
  forall (l acc : StdMap.t),
    StdMap.sorted (StdMap.keys (acc ++ l)%list) ->
    fold_left (fun m kv => StdMap.insert (fst kv) (f (snd kv)) m) l acc
    = (acc ++ map (fun kv => (fst kv, f (snd kv))) l)%list.
Proof.
  induction l as [|[k v] l IH]; intros acc H; cbn [fold_left map fst snd].
  - now rewrite app_nil_r.
  - rewrite insert_last.
    + rewrite IH.
      * rewrite <- app_assoc. reflexivity.
      * unfold StdMap.keys in *. rewrite <- app_assoc. cbn [app].
        rewrite map_app in *. cbn [map fst] in *. exact H.
    + unfold StdMap.keys in H. rewrite map_app in H. cbn [map fst] in H.
      eapply sorted_before. exact H.
Qed.

Lemma fold_set_attribute (f : string -> string) :
  forall (l : StdMap.t) (node : Node),
    fold_left (fun n kv => set_attribute n (fst kv) (f (snd kv))) l node
    = mkNode (tag node) (text node)
        (fold_left (fun m kv => StdMap.insert (fst kv) (f (snd kv)) m) l
           (attributes node))
        (children node).
Proof.
  induction l as [|[k v] l IH]; intros node; cbn [fold_left].
  - now destruct node.
  - rewrite IH. reflexivity.
Qed.

(** *** The round trip *)

Lemma element_html_unfold (tag : string) (attrs : StdMap.t) (text : string) :
  element_html tag attrs text
  = "<" ++ tag ++ join (map shown_attribute attrs) ++ ">"
    ++ escape_html text ++ "</" ++ tag ++ ">".
Proof.
  unfold element_html, opening_tag. cbn [Nat.mul repeat_char].
  norm_append. reflexivity.
Qed.

Lemma serialize_element (tag text : string) (attrs : StdMap.t) :
  tag <> "" -> set_count self_closing_tags tag = false ->
  language_code (mkNode tag text attrs []) = false ->
  serialize (mkNode tag text attrs []) 0 = element_html tag attrs text.
Proof.
  intros Hne Hsc Hlang. rewrite serialize_tagged by exact Hne.
  cbn [html.tag attributes children]. rewrite Hsc.
  unfold shown_text. rewrite Hlang. unfold children_and_closing, element_html.
  cbn [html.text map join append]. reflexivity.
Qed.

Lemma parse_opening_element (tag text : string) (attrs : StdMap.t) :
  tag <> "" ->
  all_chars tag_char tag = true ->
  all_chars (fun c => negb (isupper c)) tag = true ->
  forallb attribute_name (StdMap.keys attrs) = true ->
  parse_opening (element_html tag attrs text) 0
  = Ok (Opened
          (fold_left
             (fun n kv => set_attribute n (fst kv) (escape_html (snd kv)))
             attrs (mkNode tag "" [] []))
          tag
          (length ("<" ++ tag ++ join (map shown_attribute attrs) ++ ">"))).
Proof.
  intros Hne Htag Hlow Hkeys.
  set (rest := escape_html text ++ "</" ++ tag ++ ">").
  set (html := element_html tag attrs text).
  assert (Hhtml : html = "<" ++ tag ++ join (map shown_attribute attrs)
                         ++ ">" ++ rest) by apply element_html_unfold.
  assert (G0 : get 0 html = Some "<"%char) by (rewrite Hhtml; reflexivity).
  assert (Hlen : 2 <= length html).
  { rewrite Hhtml. destruct tag; [congruence|]. cbn [append length]. lia. }
  assert (G1 : at_pos html 1 (is_char "/") = false).
  { unfold at_pos. rewrite Hhtml. destruct tag as [|t0 tag']; [congruence|].
    cbn [append get]. cbn [all_chars] in Htag.
    apply andb_prop in Htag. destruct Htag as [Ht0 _].
    unfold tag_char in Ht0. unfold is_char.
    apply andb_prop in Ht0. destruct Ht0 as [_ Ht0].
    now apply negb_true_iff in Ht0. }
  assert (Hcollect : collect tag_char tolower html 1
                     = (tag, length ("<" ++ tag))).
  { pose proof (collect_cursor tag_char tolower html "<" tag
                  (join (map shown_attribute attrs) ++ ">" ++ rest) Hhtml)
      as C.
    change (length "<") with 1 in C.
    rewrite C; [now rewrite (map_string_tolower tag Hlow)| |exact Htag].
    destruct attrs as [|[k v] l]; [reflexivity|].
    rewrite join_shown_attributes. reflexivity. }
  unfold parse_opening. fold html.
  rewrite (skip_whitespace_stay _ 0 "<" G0 eq_refl).
  assert (A0 : at_pos html 0 (is_char "<") = true)
    by (unfold at_pos; rewrite G0; reflexivity).
  rewrite A0. cbn [negb Nat.add].
  destruct (Nat.leb_spec (length html) 1); [lia|].
  rewrite G1, Hcollect.
  apply String.eqb_neq in Hne. rewrite Hne.
  unfold set_tag, Node_default. cbn [html.text attributes children].
  destruct attrs as [|[k v] l].
  - cbn [map join append] in Hhtml.
    assert (H1 : html = ("<" ++ tag) ++ String ">" rest) by cursor_eq Hhtml.
    rewrite (skip_cursor html _ _ _ H1) by reflexivity.
    rewrite (parse_attributes_run rest [] ("<" ++ tag) _ _ html);
      [|cursor_eq Hhtml|reflexivity|cbn; lia].
    cbn [bind attrs_text fold_left]. rewrite append_nil_r.
    rewrite !(at_cursor html _ _ _ _ H1).
    change (is_char "/" ">") with false. change (is_char ">" ">") with true.
    cbn iota. cbn [map join]. f_equal. f_equal. norm_length.
  - rewrite join_shown_attributes in Hhtml.
    set (more := attrs_text ((k, v) :: l)) in *.
    assert (Hk : attribute_name k = true).
    { cbn [StdMap.keys map fst forallb] in Hkeys. apply andb_prop in Hkeys.
      tauto. }
    destruct (attribute_name_parts k Hk) as (Hnek & Hkey & _).
    assert (H1 : exists c tail,
               html = ("<" ++ tag) ++ String " " (String c tail)
               /\ isspace c = false).
    { destruct k as [|c k']; [congruence|].
      exists c. eexists. split.
      - rewrite Hhtml. unfold more. cbn [attrs_text]. norm_append. reflexivity.
      - cbn [all_chars] in Hkey. apply andb_prop in Hkey.
        destruct Hkey as [Hc _]. unfold key_char in Hc.
        apply andb_prop in Hc. destruct Hc as [_ Hc].
        now apply negb_true_iff in Hc. }
    destruct H1 as (c & tail & H1 & Hc).
    rewrite (skip_one_space html _ c tail H1 Hc).
    replace (length ("<" ++ tag) + 1) with (length ("<" ++ tag ++ " "))
      by norm_length.
    rewrite (parse_attributes_run rest ((k, v) :: l) ("<" ++ tag ++ " ") _ _
               html); [|cursor_eq Hhtml|exact Hkeys|].
    + cbn [bind]. fold more.
      assert (H2 : html = (("<" ++ tag ++ " ") ++ more) ++ String ">" rest)
        by cursor_eq Hhtml.
      rewrite !(at_cursor html _ _ _ _ H2).
      change (is_char "/" ">") with false. change (is_char ">" ">") with true.
      cbn iota. f_equal. f_equal.
      rewrite join_shown_attributes. fold more. norm_length.
    + fold more. rewrite Hhtml. norm_length.
Qed.

Lemma parse_closing_at (html pre tag shown : string) (node : Node) :
  html = pre ++ "</" ++ tag ++ ">" ->
  all_chars tag_char tag = true ->
  all_chars (fun c => negb (isupper c)) tag = true ->
  parse_closing html tag node shown (length pre)
  = Ok (if negb (shown =? "")
        then set_text node (unescape_html (trim shown))
        else node,
        length html).
Proof.
  intros Hhtml Htag Hlow.
  assert (G1 : at_pos html (length pre) (is_char "<") = true).
  { unfold at_pos. rewrite Hhtml, get_at_length. reflexivity. }
  assert (G2 : at_pos html (length pre + 1) (is_char "/") = true).
  { unfold at_pos. rewrite Hhtml, get_append_right. reflexivity. }
  assert (Hgt : all_chars (fun c => negb (Ascii.eqb c ">")) tag = true).
  { eapply all_chars_weaken; [|exact Htag]. intros c Hc.
    unfold tag_char in Hc. apply andb_prop in Hc. destruct Hc as [Hc _].
    apply andb_prop in Hc. now destruct Hc as [_ Hc]. }
  assert (Hcollect :
    collect (fun c => negb (Ascii.eqb c ">")) tolower html (length pre + 2)
    = (tag, length pre + 2 + length tag)).
  { replace (length pre + 2) with (length (pre ++ "</")) by norm_length.
    rewrite (collect_cursor _ tolower html (pre ++ "</") tag ">");
      [|cursor_eq Hhtml|reflexivity|exact Hgt].
    rewrite (map_string_tolower tag Hlow). f_equal. norm_length. }
  assert (Hlen : length html = length pre + 2 + length tag + 1).
  { rewrite Hhtml, !length_append. cbn [length]. lia. }
  unfold parse_closing.
  rewrite G1, G2, Hcollect. cbn [andb].
  rewrite String.eqb_refl. cbn [negb].
  destruct (Nat.ltb_spec (length pre + 2 + length tag) (length html)); [|lia].
  rewrite Hlen. reflexivity.
Qed.

(** X21: an element without children that is written and read back keeps
    its tag and its text, and every attribute value comes back escaped:
    the serializer escapes the values and the parser does not decode
    them.  This holds for a tag in parsed form outside the self-closing
    set, keys in parsed form, and a text that is escaped on output and
    neither begins nor ends with white space. *)
Theorem element_roundtrip (tag text : string) (attrs : StdMap.t) :
  parsed_name tag = true ->
  set_count self_closing_tags tag = false ->
  no_outer_space text = true ->
  StdMap.sorted (StdMap.keys attrs) ->
  forallb attribute_name (StdMap.keys attrs) = true ->
  language_code (mkNode tag text attrs []) = false ->
  deserialize (serialize (mkNode tag text attrs []) 0)
  = Ok (mkNode tag text (escape_values attrs) []).
Proof.
  intros Hname Hsc Hspace Hsorted Hkeys Hlang.
  unfold parsed_name in Hname. apply andb_prop in Hname.
  destruct Hname as [Hne Hall]. apply negb_true_iff, String.eqb_neq in Hne.
  apply all_chars_and in Hall. destruct Hall as [Htag Hlow].
  rewrite (serialize_element tag text attrs Hne Hsc Hlang).
  unfold deserialize. cbn [parse_node].
  rewrite (parse_opening_element tag text attrs Hne Htag Hlow Hkeys).
  cbn [bind].
  rewrite fold_set_attribute. cbn [html.tag html.text attributes children].
  rewrite (fold_insert_sorted escape_html attrs []) by exact Hsorted.
  cbn [app]. fold (escape_values attrs).
  set (opened := "<" ++ tag ++ join (map shown_attribute attrs) ++ ">").
  set (html := element_html tag attrs text).
  assert (Hhtml : html = opened ++ escape_html text
                         ++ String "<" (String "/" (tag ++ ">"))).
  { unfold html, opened. rewrite element_html_unfold. norm_append.
    reflexivity. }
  assert (Hbody :
    parse_body (length html) html (length opened) ""
      (mkNode tag "" (escape_values attrs) [])
    = Ok (mkNode tag "" (escape_values attrs) [], escape_html text,
          length opened + length (escape_html text))).
  { rewrite Hhtml at 2.
    rewrite (parse_body_text (tag ++ ">") _ (escape_html text) opened ""
               (length html) (escape_html_no_less_than text)).
    - reflexivity.
    - rewrite Hhtml. norm_length. }
  rewrite Hbody. cbn [bind].
  replace (length opened + length (escape_html text))
    with (length (opened ++ escape_html text)) by norm_length.
  rewrite (parse_closing_at html (opened ++ escape_html text) tag
             (escape_html text) _) by (auto; cursor_eq Hhtml).
  cbn [bind].
  destruct (String.eqb_spec (escape_html text) "") as [E|N]; cbn [negb].
  - cbn [html.tag]. apply String.eqb_neq in Hne. rewrite Hne.
    destruct text as [|c t]; [reflexivity|].
    exfalso. revert E. apply escape_html_nonempty. discriminate.
  - rewrite (trim_no_outer_space _ (escape_no_outer_space text Hspace)).
    rewrite unescape_escape.
    cbn [set_text html.tag html.text attributes children].
    apply String.eqb_neq in Hne. rewrite Hne. reflexivity.
Qed.

Lemma element_roundtrip_witness :
  parsed_name "a" = true
  /\ set_count self_closing_tags "a" = false
  /\ no_outer_space "x < y" = true
  /\ StdMap.sorted (StdMap.keys [("href", "?a=1&b=2"); ("title", "it's")])
  /\ forallb attribute_name
       (StdMap.keys [("href", "?a=1&b=2"); ("title", "it's")]) = true
  /\ language_code
       (mkNode "a" "x < y" [("href", "?a=1&b=2"); ("title", "it's")] [])
     = false
  /\ deserialize
       (serialize
          (mkNode "a" "x < y" [("href", "?a=1&b=2"); ("title", "it's")] []) 0)
     = Ok (mkNode "a" "x < y"
             [("href", "?a=1&amp;b=2"); ("title", "it&#39;s")] []).
Proof.
  assert (H1 : parsed_name "a" = true) by reflexivity.
  assert (H2 : set_count self_closing_tags "a" = false) by reflexivity.
  assert (H3 : no_outer_space "x < y" = true) by reflexivity.
  assert (H4 : StdMap.sorted
                 (StdMap.keys [("href", "?a=1&b=2"); ("title", "it's")]))
    by (cbn; auto).
  assert (H5 : forallb attribute_name
                 (StdMap.keys [("href", "?a=1&b=2"); ("title", "it's")])
               = true) by reflexivity.
  assert (H6 : language_code
                 (mkNode "a" "x < y"
                    [("href", "?a=1&b=2"); ("title", "it's")] [])
               = false) by reflexivity.
  repeat (split; [assumption|]).
  exact (element_roundtrip "a" "x < y"
           [("href", "?a=1&b=2"); ("title", "it's")] H1 H2 H3 H4 H5 H6).
Defined.

End RoundTrip.

(** ** Writing a tree of inline elements and reading it back *)

Module TreeFacts.
Import Cpp html html.Serializer html.Deserializer Spec StringFacts
  CodecFacts SerializerFacts ParserFacts CodecSpec SerializerSpec ParserSpec
  RoundTrip.

(** Induction over a tree, with the property available for every child. *)
Fixpoint element_forall_ind (P : Node -> Prop)
    (step : forall tag text attributes children,
        Forall P children -> P (mkNode tag text attributes children))
    (n : Node) {struct n} : P n :=
  match n with
  | mkNode tag text attributes children =>
      step tag text attributes children
        ((fix all (cs : list Node) : Forall P cs :=
            match cs with
            | [] => Forall_nil P
            | c :: cs' => Forall_cons c (element_forall_ind P step c) (all cs')
            end) children)
  end.

Lemma inline_tag_facts (tag : string) :
  set_count inline_tags tag = true ->
  tag <> ""
  /\ set_count self_closing_tags tag = false
  /\ all_chars tag_char tag = true
  /\ all_chars (fun c => negb (isupper c)) tag = true
  /\ exists c0 rest, tag = String c0 rest /\ Ascii.eqb c0 "/" = false.
Proof.
  intros H. apply set_count_spec in H. cbn [inline_tags In] in H.
  destruct H as [H|[H|[H|[H|[H|[]]]]]]; subst tag;
    (split; [discriminate|]); repeat (split; [reflexivity|]);
    eexists; eexists; split; reflexivity.
Qed.

Lemma inline_tree_unfold (tag text : string) (attrs : StdMap.t)
    (cs : list Node) :
  inline_tree (mkNode tag text attrs cs) = true ->
  set_count inline_tags tag = true /\ attrs = []
  /\ (cs = [] -> no_outer_space text = true)
  /\ forallb inline_tree cs = true.
Proof.
  cbn [inline_tree]. intros H.
  apply andb_prop in H. destruct H as [H Hcs].
  apply andb_prop in H. destruct H as [H Htext].
  apply andb_prop in H. destruct H as [Htag Hattrs].
  split; [exact Htag|]. split; [|split].
  - destruct attrs; [reflexivity | discriminate].
  - intros ->. exact Htext.
  - exact Hcs.
Qed.

Lemma serialize_inline (tag text : string) (cs : list Node) :
  set_count inline_tags tag = true ->
  serialize (mkNode tag text [] cs) 0 = inline_html tag text cs.
Proof.
  intros Htag. destruct (inline_tag_facts tag Htag) as (Hne & Hsc & _).
  rewrite serialize_tagged by exact Hne.
  cbn [html.tag attributes children]. rewrite Hsc.
  unfold opening_tag, shown_text, language_code, children_and_closing,
    inline_html.
  cbn [html.tag html.text attributes StdMap.find map join repeat_char
         Nat.mul]. rewrite andb_false_r, Htag.
  destruct cs; norm_append; reflexivity.
Qed.

Lemma parsed_name_facts (tag : string) :
  parsed_name tag = true ->
  tag <> ""
  /\ all_chars tag_char tag = true
  /\ all_chars (fun c => negb (isupper c)) tag = true
  /\ exists c0 rest, tag = String c0 rest /\ Ascii.eqb c0 "/" = false.
Proof.
  unfold parsed_name. intros H. apply andb_prop in H.
  destruct H as [Hne Hall]. apply negb_true_iff, String.eqb_neq in Hne.
  apply all_chars_and in Hall. destruct Hall as [Hchars Hlow].
  split; [exact Hne|]. split; [exact Hchars|]. split; [exact Hlow|].
  destruct tag as [|c0 rest]; [congruence|].
  exists c0, rest. split; [reflexivity|].
  cbn [all_chars] in Hchars. apply andb_prop in Hchars.
  destruct Hchars as [Hc0 _]. unfold tag_char in Hc0.
  apply andb_prop in Hc0. destruct Hc0 as [_ Hc0].
  now apply negb_true_iff in Hc0.
Qed.

Lemma inline_tag_parsed (tag : string) :
  set_count inline_tags tag = true -> parsed_name tag = true.
Proof.
  intros H. apply set_count_spec in H. cbn [inline_tags In] in H.
  destruct H as [H|[H|[H|[H|[H|[]]]]]]; subst tag; reflexivity.
Qed.

Lemma parse_opening_at (html pre tag rest : string) :
  html = pre ++ "<" ++ tag ++ ">" ++ rest ->
  parsed_name tag = true ->
  parse_opening html (length pre)
  = Ok (Opened (mkNode tag "" [] []) tag (length (pre ++ "<" ++ tag ++ ">"))).
Proof.
  intros Hhtml Htag.
  destruct (parsed_name_facts tag Htag)
    as (Hne & Hchars & Hlow & c0 & tl & Etag & Hc0).
  assert (H0 : html = pre ++ String "<" (tag ++ ">" ++ rest))
    by cursor_eq Hhtml.
  assert (H1 : html = (pre ++ "<") ++ String c0 (tl ++ ">" ++ rest)).
  { rewrite Hhtml, Etag. norm_append. reflexivity. }
  assert (H2 : html = (pre ++ "<") ++ tag ++ ">" ++ rest)
    by cursor_eq Hhtml.
  assert (H3 : html = (pre ++ "<" ++ tag) ++ String ">" rest)
    by cursor_eq Hhtml.
  unfold parse_opening.
  rewrite (skip_cursor html pre "<" _ H0) by reflexivity.
  rewrite (at_cursor html pre "<" _ _ H0).
  change (is_char "<" "<") with true. cbn [negb].
  replace (length pre + 1) with (length (pre ++ "<")) by norm_length.
  destruct (Nat.leb_spec (length html) (length (pre ++ "<"))) as [Hle|_].
  { exfalso. rewrite H1 in Hle. revert Hle. norm_length. }
  rewrite (at_cursor html _ c0 _ _ H1). unfold is_char at 1. rewrite Hc0.
  rewrite (collect_cursor tag_char tolower html (pre ++ "<") tag
             (">" ++ rest) H2 eq_refl Hchars).
  rewrite (map_string_tolower tag Hlow).
  apply String.eqb_neq in Hne. rewrite Hne.
  replace (length ((pre ++ "<") ++ tag)) with (length (pre ++ "<" ++ tag))
    by norm_length.
  rewrite (skip_cursor html _ ">" rest H3) by reflexivity.
  rewrite parse_attributes_stop
    by (rewrite (at_cursor html _ ">" rest _ H3); reflexivity).
  cbn [bind]. rewrite !(at_cursor html _ ">" rest _ H3).
  change (is_char "/" ">") with false. change (is_char ">" ">") with true.
  cbn iota. unfold set_tag, Node_default.
  cbn [html.text attributes children]. f_equal. f_equal. norm_length.
Qed.

(** The body loop over text that has no less-than sign. *)
Lemma parse_body_chars (rest : string) (node : Node) :
  forall s pre acc fuel,
    all_chars (fun c => negb (Ascii.eqb c "<")) s = true ->
    parse_body (length s + fuel) (pre ++ s ++ rest) (length pre) acc node
    = parse_body fuel (pre ++ s ++ rest) (length (pre ++ s)) (acc ++ s) node.
Proof.
  induction s as [|c s IH]; intros pre acc fuel Hs.
  - cbn [length append Nat.add]. now rewrite !append_nil_r.
  - cbn [all_chars] in Hs. apply andb_prop in Hs. destruct Hs as [Hc Hs].
    cbn [length Nat.add].
    assert (G : get (length pre) (pre ++ String c s ++ rest) = Some c)
      by (rewrite get_at_length; reflexivity).
    cbn [parse_body]. rewrite G.
    apply negb_true_iff in Hc. rewrite Hc.
    replace (pre ++ String c s ++ rest) with ((pre ++ str c) ++ s ++ rest)
      by (unfold str; norm_append; reflexivity).
    replace (length pre + 1) with (length (pre ++ str c)) by norm_length.
    rewrite IH by exact Hs.
    f_equal; [norm_length | unfold str; norm_append; reflexivity].
Qed.

Lemma parse_closing_in (html pre tag post shown : string) (node : Node) :
  html = pre ++ "</" ++ tag ++ ">" ++ post ->
  all_chars tag_char tag = true ->
  all_chars (fun c => negb (isupper c)) tag = true ->
  parse_closing html tag node shown (length pre)
  = Ok (if negb (shown =? "")
        then set_text node (unescape_html (trim shown))
        else node,
        length (pre ++ "</" ++ tag ++ ">")).
Proof.
  intros Hhtml Htag Hlow.
  assert (H0 : html = pre ++ String "<" (String "/" (tag ++ ">" ++ post)))
    by cursor_eq Hhtml.
  assert (H1 : html = (pre ++ "<") ++ String "/" (tag ++ ">" ++ post))
    by cursor_eq Hhtml.
  assert (H2 : html = (pre ++ "</") ++ tag ++ ">" ++ post)
    by cursor_eq Hhtml.
  assert (Hgt : all_chars (fun c => negb (Ascii.eqb c ">")) tag = true).
  { eapply all_chars_weaken; [|exact Htag]. intros c Hc.
    unfold tag_char in Hc. apply andb_prop in Hc. destruct Hc as [Hc _].
    apply andb_prop in Hc. now destruct Hc as [_ Hc]. }
  unfold parse_closing.
  rewrite (at_cursor html pre "<" _ _ H0).
  replace (length pre + 1) with (length (pre ++ "<")) by norm_length.
  rewrite (at_cursor html _ "/" _ _ H1).
  change (is_char "<" "<" && is_char "/" "/") with true. cbn iota.
  replace (length pre + 2) with (length (pre ++ "</")) by norm_length.
  rewrite (collect_cursor _ tolower html (pre ++ "</") tag (">" ++ post) H2
             eq_refl Hgt).
  rewrite (map_string_tolower tag Hlow), String.eqb_refl. cbn [negb].
  destruct (Nat.ltb_spec (length ((pre ++ "</") ++ tag)) (length html))
    as [_|Hge].
  - f_equal. f_equal. norm_length.
  - exfalso. rewrite H2 in Hge. revert Hge. norm_length.
Qed.

Lemma fold_push_element (cs : list Node) :
  forall node,
    fold_left push_child cs node
    = mkNode (tag node) (text node) (attributes node) (children node ++ cs).
Proof.
  induction cs as [|c cs IH]; intros node; cbn [fold_left].
  - rewrite app_nil_r. now destruct node.
  - rewrite IH. unfold push_child. cbn [tag text attributes children].
    now rewrite <- app_assoc.
Qed.

Lemma serialize_inline_head (c : Node) :
  inline_tree c = true ->
  tag c <> ""
  /\ exists c0 rest,
       serialize c 0 = String "<" (String c0 rest)
       /\ Ascii.eqb c0 "/" = false.
Proof.
  destruct c as [tg tx attrs cs]. intros H.
  destruct (inline_tree_unfold _ _ _ _ H) as (Htag & -> & _ & _).
  destruct (inline_tag_facts tg Htag) as (Hne & _ & _ & _ & c0 & tl & E & Hc0).
  split; [exact Hne|].
  rewrite (serialize_inline tg tx cs Htag). unfold inline_html.
  rewrite E. exists c0. eexists. split; [|exact Hc0].
  cbn [append]. reflexivity.
Qed.

(** The body loop over the children of a node, up to its closing tag. *)
Lemma parse_body_children (tail : string) :
  forall cs,
    Forall roundtrip_at cs ->
    forallb inline_tree cs = true ->
    forall pre text node fuel html,
      html = pre ++ join (map (fun c => serialize c 0) cs)
             ++ String "<" (String "/" tail) ->
      length (join (map (fun c => serialize c 0) cs)) + 2 <= fuel ->
      parse_body fuel html (length pre) text node
      = match cs with
        | [] => Ok (node, text, length pre)
        | _ :: _ =>
            Ok (fold_left push_child cs (flush node text), "",
                length (pre ++ join (map (fun c => serialize c 0) cs)))
        end.
Proof.
  induction cs as [|c cs IH]; intros Hall Htree pre text node fuel html
    Hhtml Hfuel.
  - cbn [map join append] in Hhtml.
    destruct fuel as [|fuel]; [lia|]. cbn [parse_body].
    rewrite (get_cursor html pre "<" _ Hhtml).
    change (Ascii.eqb "<" "<") with true. cbn iota.
    assert (H1 : html = (pre ++ "<") ++ String "/" tail) by cursor_eq Hhtml.
    replace (length pre + 1) with (length (pre ++ "<")) by norm_length.
    rewrite (at_cursor html _ "/" _ _ H1). reflexivity.
  - apply Forall_cons_iff in Hall. destruct Hall as [Hc Hcs].
    cbn [forallb] in Htree. apply andb_prop in Htree.
    destruct Htree as [Htc Htcs].
    destruct (serialize_inline_head c Htc) as (Hne & c0 & rest & Ehead & Hc0).
    set (more := join (map (fun c => serialize c 0) cs)) in *.
    assert (Hhtml' : html = pre ++ serialize c 0 ++ more
                            ++ String "<" (String "/" tail)).
    { rewrite Hhtml. cbn [map join]. fold more. norm_append. reflexivity. }
    assert (Hlen : length (join (map (fun c => serialize c 0) (c :: cs)))
                   = length (serialize c 0) + length more).
    { cbn [map join]. fold more. apply length_append. }
    rewrite Hlen in Hfuel.
    assert (Hpos : 2 <= length (serialize c 0))
      by (rewrite Ehead; cbn [length]; lia).
    destruct fuel as [|fuel]; [lia|]. cbn [parse_body].
    assert (H0 : html = pre ++ String "<" (String c0 (rest ++ more
                          ++ String "<" (String "/" tail)))).
    { rewrite Hhtml', Ehead. cbn [append]. reflexivity. }
    rewrite (get_cursor html pre "<" _ H0).
    change (Ascii.eqb "<" "<") with true. cbn iota.
    assert (H1 : html = (pre ++ "<") ++ String c0 (rest ++ more
                          ++ String "<" (String "/" tail)))
      by cursor_eq H0.
    replace (length pre + 1) with (length (pre ++ "<")) by norm_length.
    rewrite (at_cursor html _ c0 _ _ H1). unfold is_char at 1. rewrite Hc0.
    fold (flush node text).
    assert (Hflush :
      (if negb (text =? "") then (set_text node (unescape_html text), "")
       else (node, text)) = (flush node text, "")).
    { unfold flush. destruct (String.eqb_spec text "") as [->|_];
        reflexivity. }
    rewrite Hflush.
    rewrite Hhtml' at 1.
    rewrite (Hc pre _ fuel) by lia.
    cbn [bind]. apply String.eqb_neq in Hne. rewrite Hne. cbn [negb].
    rewrite (IH Hcs Htcs (pre ++ serialize c 0) "" _ fuel html);
      [| rewrite Hhtml'; fold more; norm_append; reflexivity
       | fold more; lia].
    fold more. cbn [fold_left].
    replace (length ((pre ++ serialize c 0) ++ more))
      with (length (pre ++ join (map (fun c => serialize c 0) (c :: cs))))
      by (cbn [map join]; fold more; norm_length).
    destruct cs as [|c' cs']; [|reflexivity].
    cbn [fold_left]. f_equal. f_equal. unfold more. cbn [map join].
    norm_length.
Qed.

Lemma flush_escaped (tag text : string) :
  flush (mkNode tag "" [] []) (escape_html text) = mkNode tag text [] [].
Proof.
  unfold flush. destruct (String.eqb_spec (escape_html text) "") as [E|N];
    cbn [negb].
  - destruct text as [|c t]; [reflexivity|].
    exfalso. revert E. apply escape_html_nonempty. discriminate.
  - unfold set_text. cbn [html.tag attributes children].
    now rewrite unescape_escape.
Qed.

Lemma inline_tree_roundtrip_at (n : Node) :
  inline_tree n = true -> roundtrip_at n.
Proof.
  induction n as [tg tx attrs cs IH] using element_forall_ind.
  intros Htree.
  destruct (inline_tree_unfold _ _ _ _ Htree) as (Htag & -> & Htext & Hcs).
  destruct (inline_tag_facts tg Htag) as (Hne & _ & Hchars & Hlow & _).
  assert (Hkids : Forall roundtrip_at cs).
  { clear - IH Hcs. induction cs as [|c cs IHcs]; [constructor|].
    cbn [forallb] in Hcs. apply andb_prop in Hcs. destruct Hcs as [Hc Hcs].
    apply Forall_cons_iff in IH. destruct IH as [IHc IH].
    constructor; [exact (IHc Hc) | exact (IHcs IH Hcs)]. }
  intros pre post fuel. rewrite (serialize_inline tg tx cs Htag).
  unfold inline_html.
  set (esc := escape_html tx).
  set (kids := join (map (fun c => serialize c 0) cs)).
  set (opened := pre ++ "<" ++ tg ++ ">").
  set (html := pre ++ ("<" ++ tg ++ ">" ++ esc ++ kids ++ "</" ++ tg ++ ">")
               ++ post).
  intros Hfuel.
  assert (Hlen : length ("<" ++ tg ++ ">" ++ esc ++ kids ++ "</" ++ tg ++ ">")
                 = length tg + length esc + length kids + length tg + 5).
  { norm_length. }
  rewrite Hlen in Hfuel.
  assert (H0 : html = pre ++ "<" ++ tg ++ ">"
                      ++ (esc ++ kids ++ "</" ++ tg ++ ">" ++ post)).
  { unfold html. norm_append. reflexivity. }
  assert (H1 : html = opened ++ esc
                      ++ (kids ++ String "<" (String "/" (tg ++ ">" ++ post)))).
  { unfold html, opened. norm_append. reflexivity. }
  assert (H2 : html = (opened ++ esc) ++ kids
                      ++ String "<" (String "/" (tg ++ ">" ++ post))).
  { unfold html, opened. norm_append. reflexivity. }
  assert (H3 : html = ((opened ++ esc) ++ kids) ++ "</" ++ tg ++ ">" ++ post).
  { unfold html, opened. norm_append. reflexivity. }
  destruct fuel as [|fuel]; [lia|]. cbn [parse_node].
  rewrite (parse_opening_at html pre tg _ H0 (inline_tag_parsed tg Htag)). cbn [bind].
  fold opened.
  replace fuel with (length esc + (fuel - length esc)) by lia.
  rewrite H1 at 1.
  rewrite (parse_body_chars _ _ esc opened "" _ (escape_html_no_less_than tx)).
  rewrite <- H1. cbn [append].
  rewrite (parse_body_children (tg ++ ">" ++ post) cs Hkids Hcs
             (opened ++ esc) esc _ _ html H2) by (fold kids; lia).
  fold kids.
  assert (Hend : length (((opened ++ esc) ++ kids) ++ "</" ++ tg ++ ">")
                 = length (pre ++ "<" ++ tg ++ ">" ++ esc ++ kids
                           ++ "</" ++ tg ++ ">")).
  { unfold opened. norm_append. reflexivity. }
  destruct cs as [|c cs'].
  - cbn [bind]. unfold kids in H3. cbn [map join] in H3.
    rewrite append_nil_r in H3.
    rewrite (parse_closing_in html (opened ++ esc) tg post esc _ H3
               Hchars Hlow).
    unfold kids in Hend. cbn [map join] in Hend.
    rewrite append_nil_r in Hend. unfold kids. cbn [map join].
    rewrite Hend. f_equal. f_equal.
    fold (flush (mkNode tg "" [] []) esc).
    destruct (String.eqb_spec esc "") as [E|N]; cbn [negb].
    + destruct tx as [|c t]; [reflexivity|].
      exfalso. revert E. apply escape_html_nonempty. discriminate.
    + unfold esc.
      rewrite (trim_no_outer_space _
                 (escape_no_outer_space tx (Htext eq_refl))).
      rewrite unescape_escape. reflexivity.
  - cbn [bind].
    rewrite (parse_closing_in html ((opened ++ esc) ++ kids) tg post "" _ H3
               Hchars Hlow).
    cbn [String.eqb negb]. rewrite Hend. f_equal. f_equal.
    unfold esc. rewrite flush_escaped, fold_push_element. reflexivity.
Qed.

(** X24: a tree of inline elements ([strong], [em], [a], [code], [span])
    without attributes that is written and read back is the same tree,
    at any depth.  The text of a node that has children comes back as it
    is, white space included; the text of a node without children must
    neither begin nor end with white space. *)
Theorem inline_tree_roundtrip (n : Node) :
  inline_tree n = true ->
  deserialize (serialize n 0) = Ok n.
Proof.
  intros Htree.
  pose proof (inline_tree_roundtrip_at n Htree ""
                "" (S (length (serialize n 0)))) as R.
  cbn [append length] in R. rewrite append_nil_r in R.
  unfold deserialize. rewrite R by lia. cbn [bind].
  destruct (serialize_inline_head n Htree) as [Hne _].
  apply String.eqb_neq in Hne. now rewrite Hne.
Qed.

Lemma inline_tree_roundtrip_witness :
  inline_tree
    (mkNode "span" " a & b " []
       [mkNode "em" "x<y" [] [];
        mkNode "a" "" [] [mkNode "code" "z" [] []]]) = true
  /\ deserialize
       (serialize
          (mkNode "span" " a & b " []
             [mkNode "em" "x<y" [] [];
              mkNode "a" "" [] [mkNode "code" "z" [] []]]) 0)
     = Ok (mkNode "span" " a & b " []
             [mkNode "em" "x<y" [] [];
              mkNode "a" "" [] [mkNode "code" "z" [] []]]).
Proof.
  split; [reflexivity|].
  apply (inline_tree_roundtrip
           (mkNode "span" " a & b " []
              [mkNode "em" "x<y" [] [];
               mkNode "a" "" [] [mkNode "code" "z" [] []]])).
  reflexivity.
Defined.

End TreeFacts.

(** ** A block element with children, written and read back *)

Module BlockTreeFacts.
Import Cpp html html.Serializer html.Deserializer Spec StringFacts
  CodecFacts SerializerFacts ParserFacts CodecSpec SerializerSpec ParserSpec
  RoundTrip TreeFacts.

Lemma serialize_inline_indented (c : Node) (indent_level : nat) :
  inline_tree c = true ->
  serialize c indent_level
  = repeat_char (indent_level * 2) " " ++ serialize c 0.
Proof.
  destruct c as [tg tx attrs cs]. intros H.
  destruct (inline_tree_unfold _ _ _ _ H) as (Htag & -> & _ & _).
  destruct (inline_tag_facts tg Htag) as (Hne & Hsc & _).
  rewrite !serialize_tagged by exact Hne.
  cbn [html.tag attributes children]. rewrite Hsc.
  unfold opening_tag, children_and_closing. rewrite Htag.
  cbn [Nat.mul repeat_char map join append]. norm_append.
  destruct cs; reflexivity.
Qed.

Lemma serialize_block (tag text : string) (cs : list Node) :
  tag <> "" ->
  set_count self_closing_tags tag = false ->
  set_count inline_tags tag = false ->
  cs <> [] ->
  forallb inline_tree cs = true ->
  serialize (mkNode tag text [] cs) 0
  = "<" ++ tag ++ ">" ++ escape_html text ++ indented_children cs
    ++ "</" ++ tag ++ ">".
Proof.
  intros Hne Hsc Hinl Hcs Htrees. rewrite serialize_tagged by exact Hne.
  cbn [html.tag attributes children]. rewrite Hsc.
  unfold opening_tag, shown_text, language_code, children_and_closing,
    indented_children.
  cbn [html.tag html.text attributes StdMap.find map join repeat_char
         Nat.mul Nat.add]. rewrite andb_false_r, Hinl.
  assert (Hkids :
    join (map (fun child => nl ++ serialize child 1) cs)
    = join (map (fun c => nl ++ "  " ++ serialize c 0) cs)).
  { clear Hcs. induction cs as [|c cs IH]; [reflexivity|].
    cbn [forallb] in Htrees. apply andb_prop in Htrees.
    destruct Htrees as [Hc Htrees]. cbn [map join].
    rewrite (IH Htrees), (serialize_inline_indented c 1 Hc). reflexivity. }
  rewrite Hkids. destruct cs as [|c cs]; [congruence|].
  norm_append. reflexivity.
Qed.

Lemma indented_children_cons (c : Node) (cs : list Node) :
  indented_children (c :: cs)
  = (nl ++ "  ") ++ serialize c 0 ++ indented_children cs.
Proof.
  unfold indented_children. cbn [map join]. norm_append. reflexivity.
Qed.

(** The body loop over the indented children of a block element: every
    child is appended, and the text of the node is whatever was read
    before the last child. *)
Lemma parse_body_indented (tail : string) :
  forall cs,
    Forall roundtrip_at cs ->
    forallb inline_tree cs = true ->
    forall pre text node fuel html,
      html = pre ++ indented_children cs ++ String "<" (String "/" tail) ->
      length (indented_children cs) + 2 <= fuel ->
      exists tx,
        parse_body fuel html (length pre) text node
        = Ok (mkNode (tag node) tx (attributes node) (children node ++ cs),
              match cs with [] => text ++ nl | _ :: _ => nl end,
              length (pre ++ indented_children cs)).
Proof.
  induction cs as [|c cs IH]; intros Hall Htree pre text node fuel html
    Hhtml Hfuel.
  - exists (html.text node).
    unfold indented_children in *. cbn [map join append] in *.
    change (length nl) with 1 in Hfuel.
    replace fuel with (length nl + (fuel - 1)) by (cbn [length nl str]; lia).
    assert (H0 : html = pre ++ nl ++ String "<" (String "/" tail))
      by (rewrite Hhtml; reflexivity).
    rewrite H0 at 1.
    rewrite (parse_body_chars _ node nl pre text _ eq_refl).
    rewrite <- H0.
    destruct (fuel - 1) as [|f] eqn:Ef; [lia|]. cbn [parse_body].
    assert (H1 : html = (pre ++ nl) ++ String "<" (String "/" tail))
      by cursor_eq Hhtml.
    rewrite (get_cursor html _ "<" _ H1).
    change (Ascii.eqb "<" "<") with true. cbn iota.
    assert (H2 : html = ((pre ++ nl) ++ "<") ++ String "/" tail)
      by cursor_eq Hhtml.
    replace (length (pre ++ nl) + 1) with (length ((pre ++ nl) ++ "<"))
      by norm_length.
    rewrite (at_cursor html _ "/" _ _ H2).
    change (is_char "/" "/") with true. cbn iota.
    rewrite app_nil_r. now destruct node.
  - apply Forall_cons_iff in Hall. destruct Hall as [Hc Hcs].
    cbn [forallb] in Htree. apply andb_prop in Htree.
    destruct Htree as [Htc Htcs].
    destruct (serialize_inline_head c Htc) as (Hne & c0 & rest & Ehead & Hc0).
    rewrite indented_children_cons in Hhtml, Hfuel |- *.
    set (sep := nl ++ "  ") in *.
    set (more := indented_children cs) in *.
    assert (Hlen : length (sep ++ serialize c 0 ++ more)
                   = 3 + length (serialize c 0) + length more)
      by (rewrite !length_append; reflexivity).
    rewrite Hlen in Hfuel.
    assert (Hpos : 2 <= length (serialize c 0))
      by (rewrite Ehead; cbn [length]; lia).
    assert (Hmore : 1 <= length more).
    { unfold more, indented_children. rewrite length_append.
      cbn [length nl str]. lia. }
    assert (H0 : html = pre ++ sep ++ (serialize c 0 ++ more
                                       ++ String "<" (String "/" tail))).
    { rewrite Hhtml. norm_append. reflexivity. }
    assert (H3 : html = (pre ++ sep) ++ serialize c 0
                        ++ (more ++ String "<" (String "/" tail))).
    { rewrite H0. norm_append. reflexivity. }
    destruct (fuel - 3) as [|f] eqn:Ef; [lia|].
    destruct (IH Hcs Htcs ((pre ++ sep) ++ serialize c 0) ""
                (push_child (set_text node (unescape_html (text ++ sep))) c)
                f html) as [tx Hrest].
    { rewrite H3. norm_append. reflexivity. }
    { fold more. lia. }
    exists tx.
    replace fuel with (length sep + S f)
      by (unfold sep; cbn [length nl str append]; lia).
    rewrite H0 at 1.
    rewrite (parse_body_chars _ node sep pre text _ eq_refl).
    rewrite <- H0. cbn [parse_body].
    assert (H1 : html = (pre ++ sep)
                        ++ String "<" (String c0 (rest ++ more
                             ++ String "<" (String "/" tail)))).
    { rewrite H0, Ehead. norm_append. reflexivity. }
    rewrite (get_cursor html _ "<" _ H1).
    change (Ascii.eqb "<" "<") with true. cbn iota.
    assert (H2 : html = ((pre ++ sep) ++ "<")
                        ++ String c0 (rest ++ more
                             ++ String "<" (String "/" tail)))
      by cursor_eq H1.
    replace (length (pre ++ sep) + 1) with (length ((pre ++ sep) ++ "<"))
      by norm_length.
    rewrite (at_cursor html _ c0 _ _ H2). unfold is_char at 1. rewrite Hc0.
    assert (Hchunk : negb (text ++ sep =? "") = true).
    { apply negb_true_iff, String.eqb_neq. intros E.
      apply (f_equal length) in E. rewrite length_append in E.
      cbn [length sep nl str append] in E. lia. }
    rewrite Hchunk.
    rewrite H3 at 1.
    rewrite (Hc (pre ++ sep) _ f) by lia.
    cbn [bind]. apply String.eqb_neq in Hne. rewrite Hne. cbn [negb].
    rewrite Hrest. fold more.
    unfold push_child, set_text.
    cbn [html.tag html.text attributes children].
    rewrite <- app_assoc. cbn [app].
    f_equal. f_equal; [f_equal|].
    + destruct cs; reflexivity.
    + norm_append. reflexivity.
Qed.

(** X25: an element with a block tag and at least one child loses its
    text when it is written and read back: the serializer puts every
    child on an indented line of its own, and the parser stores the white
    space before the closing tag, trimmed to nothing, as the text.  The
    children, trees of inline elements, come back unchanged. *)
Theorem block_children_roundtrip (tag text : string) (cs : list Node) :
  parsed_name tag = true ->
  set_count self_closing_tags tag = false ->
  set_count inline_tags tag = false ->
  cs <> [] ->
  forallb inline_tree cs = true ->
  deserialize (serialize (mkNode tag text [] cs) 0)
  = Ok (mkNode tag "" [] cs).
Proof.
  intros Hname Hsc Hinl Hcs Htrees.
  destruct (parsed_name_facts tag Hname) as (Hne & Hchars & Hlow & _).
  assert (Hkids : Forall roundtrip_at cs).
  { clear - Htrees. induction cs as [|c cs IH]; [constructor|].
    cbn [forallb] in Htrees. apply andb_prop in Htrees.
    destruct Htrees as [Hc Htrees].
    constructor; [now apply inline_tree_roundtrip_at | exact (IH Htrees)]. }
  rewrite (serialize_block tag text cs Hne Hsc Hinl Hcs Htrees).
  set (esc := escape_html text).
  set (kids := indented_children cs).
  set (opened := "<" ++ tag ++ ">").
  set (html := "<" ++ tag ++ ">" ++ esc ++ kids ++ "</" ++ tag ++ ">").
  assert (Hlen : length html
                 = length tag + length esc + length kids + length tag + 5).
  { unfold html. norm_length. }
  assert (H0 : html = "" ++ "<" ++ tag ++ ">"
                      ++ (esc ++ kids ++ "</" ++ tag ++ ">"))
    by reflexivity.
  assert (H1 : html = opened ++ esc
                      ++ (kids ++ String "<" (String "/" (tag ++ ">")))).
  { unfold html, opened. norm_append. reflexivity. }
  assert (H2 : html = (opened ++ esc) ++ kids
                      ++ String "<" (String "/" (tag ++ ">"))).
  { unfold html, opened. norm_append. reflexivity. }
  assert (H3 : html = ((opened ++ esc) ++ kids) ++ "</" ++ tag ++ ">" ++ "").
  { unfold html, opened. norm_append. reflexivity. }
  unfold deserialize. cbn [parse_node].
  pose proof (parse_opening_at html "" tag _ H0 Hname) as O.
  change (length "") with 0 in O.
  change ("" ++ "<" ++ tag ++ ">") with opened in O.
  rewrite O. cbn [bind].
  assert (Hfuel : length html = length esc + (length html - length esc))
    by lia.
  pose proof (parse_body_chars
                (kids ++ String "<" (String "/" (tag ++ ">")))
                (mkNode tag "" [] []) esc opened ""
                (length html - length esc)
                (escape_html_no_less_than text)) as C.
  rewrite <- H1, <- Hfuel in C. rewrite C. cbn [append].
  destruct (parse_body_indented (tag ++ ">") cs Hkids Htrees
              (opened ++ esc) esc (mkNode tag "" [] [])
              (length html - length esc) html H2) as [tx B].
  { fold kids. lia. }
  rewrite B. cbn [bind html.tag attributes children app].
  destruct cs as [|c cs']; [congruence|].
  fold kids.
  rewrite (parse_closing_in html ((opened ++ esc) ++ kids) tag "" nl _ H3
             Hchars Hlow).
  change (negb (nl =? "")) with true.
  change (unescape_html (trim nl)) with "".
  cbn [bind]. unfold set_text. cbn [html.tag attributes children].
  apply String.eqb_neq in Hne. rewrite Hne. reflexivity.
Qed.

Lemma block_children_roundtrip_witness :
  parsed_name "div" = true
  /\ set_count self_closing_tags "div" = false
  /\ set_count inline_tags "div" = false
  /\ [mkNode "em" "x" [] []; mkNode "span" "" [] [mkNode "a" "y" [] []]]
     <> []
  /\ forallb inline_tree
       [mkNode "em" "x" [] []; mkNode "span" "" [] [mkNode "a" "y" [] []]]
     = true
  /\ deserialize
       (serialize
          (mkNode "div" "intro" []
             [mkNode "em" "x" [] [];
              mkNode "span" "" [] [mkNode "a" "y" [] []]]) 0)
     = Ok (mkNode "div" "" []
             [mkNode "em" "x" [] [];
              mkNode "span" "" [] [mkNode "a" "y" [] []]]).
Proof.
  assert (H1 : parsed_name "div" = true) by reflexivity.
  assert (H2 : set_count self_closing_tags "div" = false) by reflexivity.
  assert (H3 : set_count inline_tags "div" = false) by reflexivity.
  assert (H4 : [mkNode "em" "x" [] [];
                mkNode "span" "" [] [mkNode "a" "y" [] []]] <> [])
    by discriminate.
  assert (H5 : forallb inline_tree
                 [mkNode "em" "x" [] [];
                  mkNode "span" "" [] [mkNode "a" "y" [] []]] = true)
    by reflexivity.
  repeat (split; [assumption|]).
  exact (block_children_roundtrip "div" "intro"
           [mkNode "em" "x" [] [];
            mkNode "span" "" [] [mkNode "a" "y" [] []]] H1 H2 H3 H4 H5).
Defined.

End BlockTreeFacts.

(** ** Around the root element *)

Module RootFacts.
Import Cpp html html.Serializer html.Deserializer Spec StringFacts
  CodecFacts SerializerFacts ParserFacts CodecSpec SerializerSpec ParserSpec
  RoundTrip TreeFacts.

(** White space before a character that is none is skipped. *)
Lemma skip_whitespace_run (ws rest : string) :
  all_chars isspace ws = true ->
  match rest with
  | EmptyString => True
  | String c _ => isspace c = false
  end ->
  skip_whitespace (ws ++ rest) 0 = length ws.
Proof.
  intros Hws Hrest. unfold skip_whitespace.
  pose proof (collect_cursor isspace (fun c => c) (ws ++ rest) "" ws rest
                eq_refl Hrest Hws) as C.
  cbn [length append] in C. now rewrite C.
Qed.

(** [parse_node] looks at its cursor only after skipping white space. *)
Lemma parse_node_skips (fuel : nat) (html : string) (pos : nat) :
  skip_whitespace html (skip_whitespace html pos) = skip_whitespace html pos ->
  parse_node fuel html pos = parse_node fuel html (skip_whitespace html pos).
Proof.
  intros H. destruct fuel as [|fuel]; [reflexivity|].
  cbn [parse_node]. unfold parse_opening. now rewrite H.
Qed.

(** X29: [deserialize] skips white space before the root element and
    never looks at what follows it: around the text of a tree of inline
    elements, any white space before and any text after leave the result
    unchanged, and nothing is thrown. *)
Theorem deserialize_ignores_surroundings (ws junk : string) (n : Node) :
  all_chars isspace ws = true ->
  inline_tree n = true ->
  deserialize (ws ++ serialize n 0 ++ junk) = Ok n.
Proof.
  intros Hws Htree.
  destruct (serialize_inline_head n Htree) as (Hne & c0 & rest & Ehead & _).
  set (html := ws ++ serialize n 0 ++ junk).
  assert (Hskip : skip_whitespace html 0 = length ws).
  { unfold html. apply skip_whitespace_run; [exact Hws|].
    rewrite Ehead. reflexivity. }
  assert (Hstay : skip_whitespace html (length ws) = length ws).
  { apply (skip_cursor html ws "<" (String c0 rest ++ junk)); [|reflexivity].
    unfold html. rewrite Ehead. reflexivity. }
  unfold deserialize.
  rewrite parse_node_skips by (rewrite Hskip; exact Hstay).
  rewrite Hskip.
  pose proof (inline_tree_roundtrip_at n Htree ws junk (S (length html)))
    as R.
  fold html in R. rewrite R.
  - cbn [bind]. apply String.eqb_neq in Hne. now rewrite Hne.
  - unfold html. rewrite !length_append. lia.
Qed.

Lemma deserialize_ignores_surroundings_witness :
  all_chars isspace "  " = true
  /\ inline_tree (mkNode "em" "x" [] []) = true
  /\ deserialize ("  " ++ serialize (mkNode "em" "x" [] []) 0 ++ "</p> & <")
     = Ok (mkNode "em" "x" [] []).
Proof.
  split; [reflexivity|]. split; [reflexivity|].
  apply (deserialize_ignores_surroundings "  " "</p> & <"
           (mkNode "em" "x" [] [])); reflexivity.
Defined.

(** X30: an input whose first character after the leading white space is
    not a less-than sign, or that is white space only, is rejected with
    [std::invalid_argument] and the message that no root element was
    found. *)
Theorem deserialize_without_element (ws rest : string) :
  all_chars isspace ws = true ->
  match rest with
  | EmptyString => True
  | String c _ => isspace c = false /\ c <> "<"%char
  end ->
  deserialize (ws ++ rest)
  = Throw (invalid_argument "Invalid HTML: No root element found").
Proof.
  intros Hws Hrest.
  assert (Hskip : skip_whitespace (ws ++ rest) 0 = length ws).
  { apply skip_whitespace_run; [exact Hws|].
    destruct rest; [exact I | tauto]. }
  assert (Hat : at_pos (ws ++ rest) (length ws) (is_char "<") = false).
  { unfold at_pos. rewrite get_at_length.
    destruct rest as [|c rest]; [reflexivity|]. cbn [get]. unfold is_char.
    apply Ascii.eqb_neq. tauto. }
  unfold deserialize. cbn [parse_node]. unfold parse_opening.
  rewrite Hskip, Hat. reflexivity.
Qed.

Lemma deserialize_without_element_witness :
  all_chars isspace " " = true
  /\ (isspace "h" = false /\ "h"%char <> "<"%char)
  /\ deserialize (" " ++ "hello <b>x</b>")
     = Throw (invalid_argument "Invalid HTML: No root element found").
Proof.
  assert (H1 : all_chars isspace " " = true) by reflexivity.
  assert (H2 : isspace "h" = false /\ "h"%char <> "<"%char)
    by (split; [reflexivity | discriminate]).
  split; [exact H1|]. split; [exact H2|].
  exact (deserialize_without_element " " "hello <b>x</b>" H1 H2).
Defined.

End RootFacts.

(** ** From a line of text to the page *)

Module PipelineFacts.
Import Cpp Regex markdown markdown.Deserializer Spec StringFacts RegexFacts
  ListFacts ParsedFacts MarkdownSpec RegexSpec BlockFacts InlineFacts
  SerializerFacts.

Lemma contains_char_all (d : ascii) (s : string) :
  all_chars (fun c => negb (Ascii.eqb c d)) s = true ->
  contains_char d s = false.
Proof.
  induction s as [|c s IH]; [reflexivity|].
  cbn [all_chars contains_char]. intros H. apply andb_prop in H.
  destruct H as [Hc Hs]. apply negb_true_iff in Hc. now rewrite Hc, IH.
Qed.

Lemma plain_start_tests (c : ascii) :
  plain_start c = true ->
  isspace c = false /\ isdigit c = false
  /\ Ascii.eqb c "-" = false /\ Ascii.eqb c "_" = false
  /\ Ascii.eqb c "#" = false /\ Ascii.eqb c ">" = false
  /\ Ascii.eqb c "+" = false.
Proof.
  unfold plain_start. cbn [mem_char]. intros H.
  repeat (apply andb_prop in H; destruct H as [H ?]).
  repeat match goal with
         | E : negb _ = true |- _ => apply negb_true_iff in E
         end.
  repeat match goal with
         | E : _ || _ = false |- _ =>
             apply orb_false_elim in E; destruct E
         end.
  repeat split; assumption.
Qed.

Lemma plain_line_reaches_paragraph (t : string) :
  plain_line t = true -> reaches_paragraph_rule t = true.
Proof.
  destruct t as [|c rest]; [discriminate|].
  unfold plain_line. intros H. apply andb_prop in H. destruct H as [Hc Hall].
  destruct (plain_start_tests c Hc) as (Hsp & Hdig & H1 & H2 & H3 & H4 & H5).
  assert (Hall' := Hall).
  cbn [all_chars mem_char] in Hall'. apply andb_prop in Hall'.
  destruct Hall' as [Hc' _]. apply andb_prop in Hc'. destruct Hc' as [Hc' _].
  apply negb_true_iff in Hc'.
  repeat match goal with
         | E : _ || _ = false |- _ =>
             apply orb_false_elim in E; destruct E
         end.
  assert (Hbar : contains_char "|" (String c rest) = false).
  { apply contains_char_all. eapply all_chars_impl; [|exact Hall].
    intros d Hd. apply andb_prop in Hd. destruct Hd as [Hd _].
    cbn [mem_char] in Hd. apply negb_true_iff in Hd.
    repeat match goal with
           | E : _ || _ = false |- _ =>
               apply orb_false_elim in E; destruct E
           end.
    apply negb_true_iff. assumption. }
  unfold reaches_paragraph_rule, reaches_fence_rule. rewrite Hbar.
  unfold item_match, matches, regex_match.
  unfold hr_regex, heading_regex, fence_open_regex, quote_regex,
    unordered_regex, ordered_regex, star, plus, at_least, between,
    space, digit, chr, any_of.
  repeat (progress (cbn -[isspace isdigit Ascii.eqb];
                    rewrite ?Hsp, ?Hdig, ?H1, ?H2, ?H3, ?H4, ?H5));
  repeat match goal with
         | E : Ascii.eqb c _ = false |- _ => rewrite E
         end.
  reflexivity.
Qed.

Lemma getlines_no_newline (t : string) :
  forall line,
    all_chars (fun d => negb (Ascii.eqb d lf)) t = true ->
    getlines t line = if line ++ t =? "" then [] else [line ++ t].
Proof.
  induction t as [|c t IH]; intros line H; cbn [getlines].
  - now rewrite append_nil_r.
  - cbn [all_chars] in H. apply andb_prop in H. destruct H as [Hc Ht].
    apply negb_true_iff in Hc. rewrite Hc, (IH _ Ht), append_assoc.
    reflexivity.
Qed.

Lemma getlines_first_line (t rest : string) :
  forall line,
    all_chars (fun d => negb (Ascii.eqb d lf)) t = true ->
    getlines (t ++ String lf rest) line = (line ++ t) :: getlines rest "".
Proof.
  induction t as [|c t IH]; intros line H; cbn [append getlines].
  - rewrite Ascii.eqb_refl. now rewrite append_nil_r.
  - cbn [all_chars] in H. apply andb_prop in H. destruct H as [Hc Ht].
    apply negb_true_iff in Hc. rewrite Hc, (IH _ Ht), append_assoc.
    reflexivity.
Qed.

Lemma plain_line_parts (t : string) :
  plain_line t = true ->
  t <> ""
  /\ all_chars (fun d => negb (Ascii.eqb d lf)) t = true
  /\ all_chars (fun c => negb (mem_char c "*`[")) t = true.
Proof.
  destruct t as [|c rest]; [discriminate|].
  unfold plain_line. intros H. apply andb_prop in H. destruct H as [_ Hall].
  split; [discriminate|]. split.
  - eapply all_chars_impl; [|exact Hall]. intros d Hd.
    apply andb_prop in Hd. tauto.
  - eapply all_chars_impl; [|exact Hall]. intros d Hd.
    apply andb_prop in Hd. destruct Hd as [Hd _].
    cbn [mem_char] in *. apply negb_true_iff in Hd. apply negb_true_iff.
    repeat match goal with
           | E : _ || _ = false |- _ =>
               apply orb_false_elim in E; destruct E
           end.
    repeat match goal with
           | E : Ascii.eqb d _ = false |- _ => rewrite E
           end.
    reflexivity.
Qed.

Lemma deserialize_plain_line (t : string) :
  plain_line t = true ->
  deserialize t
  = mkNode Document "" []
      [mkNode Paragraph "" [] [Node_text Text t] 0] 0.
Proof.
  intros Hplain.
  destruct (plain_line_parts t Hplain) as (Hne & Hlf & Hinline).
  unfold deserialize.
  rewrite (getlines_no_newline t "" Hlf). cbn [append].
  apply String.eqb_neq in Hne. rewrite Hne. apply String.eqb_neq in Hne.
  cbn [List.length parse_blocks Nat.ltb Nat.leb].
  rewrite (paragraph_rule_at [t] 0 (Node_of Document) t eq_refl
             (plain_line_reaches_paragraph t Hplain)).
  cbn [skipn Nat.add take_until prefixed map join List.length].
  rewrite append_nil_r.
  rewrite (parse_inline_plain_text t (Node_of Paragraph) Hne Hinline).
  reflexivity.
Qed.

(** X22: a single line of plain text is parsed as a document of one
    paragraph holding one [Text] node, and [Serializer::html] writes that
    document as a [div] around one indented [p] of class [paragraph]
    around the escaped line. *)
Theorem plain_line_pipeline (t : string) :
  plain_line t = true ->
  deserialize t
  = mkNode Document "" [] [mkNode Paragraph "" [] [Node_text Text t] 0] 0
  /\ Serializer.html (deserialize t)
     = Ok ("<div>" ++ nl
           ++ "  <p class=" ++ str dquote ++ "paragraph" ++ str dquote ++ ">"
           ++ nl ++ "    " ++ html.escape_html t ++ nl
           ++ "  </p>" ++ nl ++ "</div>").
Proof.
  intros Hplain. pose proof (deserialize_plain_line t Hplain) as D.
  destruct (plain_line_parts t Hplain) as (Hne & Hlf & Hinline).
  split; [exact D|]. rewrite D.
  unfold Serializer.html, nl, str, dquote. cbn.
  apply String.eqb_neq in Hne. rewrite Hne. cbn.
  norm_append. reflexivity.
Qed.

Lemma plain_line_pipeline_witness :
  plain_line "Tom & Jerry <at> home" = true
  /\ deserialize "Tom & Jerry <at> home"
     = mkNode Document "" []
         [mkNode Paragraph "" [] [Node_text Text "Tom & Jerry <at> home"] 0] 0
  /\ Serializer.html (deserialize "Tom & Jerry <at> home")
     = Ok ("<div>" ++ nl
           ++ "  <p class=" ++ str dquote ++ "paragraph" ++ str dquote ++ ">"
           ++ nl ++ "    " ++ html.escape_html "Tom & Jerry <at> home" ++ nl
           ++ "  </p>" ++ nl ++ "</div>").
Proof.
  split; [reflexivity|].
  apply (plain_line_pipeline "Tom & Jerry <at> home"). reflexivity.
Defined.

End PipelineFacts.

(** ** Writing a simple document and reading it back *)

Module DocumentFacts.
Import Cpp Regex markdown markdown.Deserializer Spec StringFacts RegexFacts
  ListFacts ParsedFacts MarkdownSpec RegexSpec BlockFacts InlineFacts
  SerializerFacts PipelineFacts RoundTrip.

(** A greedy quantifier whose class holds on all of [a] and not on what
    follows takes all of [a], when the rest of the pattern then matches. *)
Lemma rep_from_greedy_run (p : ascii -> bool) (min : nat) (max : option nat)
    (next : string -> nat -> option (nat * captures)) (b : string)
    (r : nat * captures) :
  match b with
  | EmptyString => True
  | String c _ => p c = false
  end ->
  forall a pos count,
    all_chars p a = true ->
    within max (count + length a) ->
    min <= count + length a ->
    next b (pos + length a) = Some r ->
    rep_from p min max true next (a ++ b) pos count = Some r.
Proof.
  intros Hb. induction a as [|c a IH]; intros pos count Ha Hmax Hmin Hnext.
  - cbn [append length] in *. rewrite Nat.add_0_r in *.
    destruct b as [|d b]; cbn [rep_from].
    + destruct (Nat.leb_spec min count); [exact Hnext | lia].
    + rewrite Hb. cbn [andb].
      destruct (Nat.leb_spec min count); [exact Hnext | lia].
  - cbn [all_chars] in Ha. apply andb_prop in Ha. destruct Ha as [Hc Ha].
    cbn [append length] in *. cbn [rep_from]. rewrite Hc.
    assert (Hbelow : below max count = true).
    { destruct max as [m|]; [|reflexivity]. cbn [below within] in *.
      apply Nat.ltb_lt. lia. }
    rewrite Hbelow. cbn [andb].
    fold (rep_from p min max true next).
    rewrite (IH (S pos) (S count)); [reflexivity|exact Ha| | |].
    + destruct max; cbn [within] in *; [lia|exact I].
    + lia.
    + rewrite <- Hnext. f_equal. lia.
Qed.

Lemma rep_from_greedy_all (p : ascii -> bool) (min : nat) (max : option nat)
    (next : string -> nat -> option (nat * captures))
    (r : nat * captures) (a : string) (pos count : nat) :
  all_chars p a = true ->
  within max (count + length a) ->
  min <= count + length a ->
  next "" (pos + length a) = Some r ->
  rep_from p min max true next a pos count = Some r.
Proof.
  intros Ha Hmax Hmin Hnext.
  pose proof (rep_from_greedy_run p min max next "" r I a pos count
                Ha Hmax Hmin Hnext) as H.
  now rewrite append_nil_r in H.
Qed.

Lemma run_Bol (re : regex) (full : bool) (rest : string) (caps : captures) :
  run (Bol :: re) full rest 0 caps = run re full rest 0 caps.
Proof. reflexivity. Qed.

Lemma run_GroupOpen (n : nat) (re : regex) (full : bool) (rest : string)
    (pos : nat) (caps : captures) :
  run (GroupOpen n :: re) full rest pos caps
  = run re full rest pos (mkCaptures ((n, pos) :: starts caps) (ends caps)).
Proof. reflexivity. Qed.

Lemma run_GroupClose (n : nat) (re : regex) (full : bool) (rest : string)
    (pos : nat) (caps : captures) :
  run (GroupClose n :: re) full rest pos caps
  = run re full rest pos (mkCaptures (starts caps) ((n, pos) :: ends caps)).
Proof. reflexivity. Qed.

Lemma length_repeat_char (n : nat) (c : ascii) :
  length (repeat_char n c) = n.
Proof. induction n as [|n IH]; cbn; [reflexivity | now rewrite IH]. Qed.

Lemma all_chars_repeat_char (n : nat) (c : ascii) :
  all_chars (chr c) (repeat_char n c) = true.
Proof.
  induction n as [|n IH]; [reflexivity|].
  cbn [repeat_char all_chars]. unfold chr at 1.
  now rewrite Ascii.eqb_refl, IH.
Qed.

Lemma substring_prefix (a rest : string) :
  substring 0 (length a) (a ++ rest) = a.
Proof.
  induction a as [|c a IH]; cbn [append length substring].
  - apply substring_0_0.
  - now rewrite IH.
Qed.

Lemma substring_suffix (a b : string) :
  substring (length a) (length b) (a ++ b) = b.
Proof.
  induction a as [|c a IH]; cbn [append length substring].
  - apply substring_0_length.
  - exact IH.
Qed.

(** The heading pattern on a line the serializer wrote. *)
Lemma heading_line_match (k : nat) (text : string) :
  1 <= k <= 6 -> heading_text text = true ->
  exists m,
    regex_match (repeat_char k "#" ++ " " ++ text) heading_regex = Some m
    /\ sub m 1 = repeat_char k "#" /\ sub m 2 = text.
Proof.
  intros Hk Htext.
  destruct text as [|c rest] eqn:Et; [discriminate|]. rewrite <- Et in *.
  assert (Hc : isspace c = false /\ all_chars dot text = true).
  { unfold heading_text in Htext. rewrite Et in Htext.
    apply andb_prop in Htext. destruct Htext as [Hc Hd].
    apply negb_true_iff in Hc. rewrite Et. tauto. }
  destruct Hc as [Hc Hdot].
  set (hashes := repeat_char k "#").
  set (e := 0 + length hashes + length " " + length text).
  set (caps := mkCaptures [(2, 0 + length hashes + length " "); (1, 0)]
                 [(2, e); (1, 0 + length hashes)]).
  assert (R : run heading_regex true (hashes ++ " " ++ text) 0 no_captures
              = Some (e, caps)).
  { unfold heading_regex, between, plus.
    rewrite run_Bol, run_GroupOpen, run_Rep.
    apply rep_from_greedy_run.
    - reflexivity.
    - apply all_chars_repeat_char.
    - unfold hashes. rewrite length_repeat_char. cbn [within]. lia.
    - unfold hashes. rewrite length_repeat_char. lia.
    - cbn beta. rewrite run_GroupClose, run_Rep.
      apply rep_from_greedy_run.
      + rewrite Et. exact Hc.
      + reflexivity.
      + exact I.
      + cbn [length]. lia.
      + cbn beta. rewrite run_GroupOpen, run_Rep.
        apply rep_from_greedy_all.
        * exact Hdot.
        * exact I.
        * rewrite Et. cbn [length]. lia.
        * reflexivity. }
  unfold regex_match. rewrite R. eexists. split; [reflexivity|].
  unfold sub, caps. cbn [groups subject starts ends lookup Nat.eqb].
  unfold substr. split.
  - rewrite Nat.sub_0_r. cbn [Nat.add]. apply substring_prefix.
  - unfold e.
    replace (0 + length hashes + length " " + length text
             - (0 + length hashes + length " ")) with (length text) by lia.
    replace (0 + length hashes + length " ")
      with (length (hashes ++ " ")) by (rewrite length_append; reflexivity).
    replace (hashes ++ " " ++ text) with ((hashes ++ " ") ++ text)
      by (rewrite append_assoc; reflexivity).
    apply substring_suffix.
Qed.

Lemma heading_text_dot (t : string) :
  heading_text t = true -> t <> "" /\ all_chars dot t = true.
Proof.
  destruct t as [|c t]; [discriminate|]. unfold heading_text.
  intros H. apply andb_prop in H. split; [discriminate | tauto].
Qed.

(** No line of a simple block has a newline in it. *)
Lemma line_of_no_newline (b : block) :
  simple b = true ->
  all_chars (fun d => negb (Ascii.eqb d lf)) (line_of b) = true.
Proof.
  destruct b as [|k text|text]; cbn [simple line_of]; intros H.
  - reflexivity.
  - apply andb_prop in H. destruct H as [_ H].
    destruct (heading_text_dot text H) as [_ Hdot].
    apply all_chars_append.
    + eapply all_chars_impl; [|apply (all_chars_repeat_char k "#")].
      intros d Hd. unfold chr in Hd. apply Ascii.eqb_eq in Hd. now subst d.
    + cbn [append all_chars]. cbn [Ascii.eqb Bool.eqb lf negb andb].
      eapply all_chars_impl; [|exact Hdot].
      intros d Hd. unfold dot in Hd. apply andb_prop in Hd. tauto.
  - destruct (plain_line_parts text H) as (_ & Hlf & _). exact Hlf.
Qed.

Lemma getlines_document (bs : list block) :
  forallb simple bs = true ->
  getlines (document_text bs) "" = document_lines bs.
Proof.
  induction bs as [|b bs IH]; [reflexivity|].
  cbn [forallb]. intros H. apply andb_prop in H. destruct H as [Hb Hbs].
  unfold document_text, document_lines. cbn [map join flat_map].
  fold (document_text bs). fold (document_lines bs).
  replace ((line_of b ++ nl ++ nl) ++ document_text bs)
    with (line_of b ++ String lf (String lf (document_text bs)))
    by (unfold nl, str; norm_append; reflexivity).
  rewrite (getlines_first_line _ _ "" (line_of_no_newline b Hb)).
  cbn [append getlines]. rewrite Ascii.eqb_refl. rewrite (IH Hbs).
  reflexivity.
Qed.

Lemma nth_error_skipn_cons {A : Type} (l : list A) (n : nat) (x : A) :
  nth_error l n = Some x -> skipn n l = x :: skipn (S n) l.
Proof. intros H. now rewrite (skipn_nth_error l n), H. Qed.

(** The block parser on the line of a simple block that an empty line
    follows. *)
Lemma parse_block_simple (b : block) (lines : list string) (pos : nat)
    (parent : Node) :
  simple b = true ->
  nth_error lines pos = Some (line_of b) ->
  nth_error lines (pos + 1) = Some "" ->
  parse_block lines pos parent = (pos + 1, push_child parent (node_of b)).
Proof.
  intros Hb Hline Hnext.
  destruct b as [|k text|text]; cbn [simple line_of node_of] in *.
  - unfold parse_block. rewrite Hline. reflexivity.
  - apply andb_prop in Hb. destruct Hb as [Hk Htext].
    apply andb_prop in Hk. destruct Hk as [Hk1 Hk6].
    apply Nat.leb_le in Hk1, Hk6.
    destruct (heading_line_match k text (conj Hk1 Hk6) Htext)
      as (m & Hm & Hs1 & Hs2).
    unfold parse_block. rewrite Hline.
    destruct k as [|k]; [lia|].
    cbn [repeat_char append] in *.
    change (String "#" (repeat_char k "#" ++ String " " text) =? "")
      with false.
    change (matches (String "#" (repeat_char k "#" ++ String " " text))
              hr_regex) with false.
    cbn iota. rewrite Hm, Hs1, Hs2.
    cbn [length]. rewrite length_repeat_char. reflexivity.
  - unfold parse_block at 1. fold (parse_block lines pos parent).
    rewrite (paragraph_rule_at lines pos parent text Hline
               (plain_line_reaches_paragraph text Hb)).
    rewrite (nth_error_skipn_cons lines (pos + 1) "" Hnext).
    cbn [take_until ends_paragraph String.eqb orb prefixed map join
           List.length].
    rewrite append_nil_r, Nat.add_0_r.
    destruct (plain_line_parts text Hb) as (Hne & _ & Hinline).
    rewrite (parse_inline_plain_text text (Node_of Paragraph) Hne Hinline).
    reflexivity.
Qed.

Lemma fold_push_child (nodes : list Node) :
  forall doc,
    fold_left push_child nodes doc
    = mkNode (type doc) (text doc) (attributes doc)
        (children doc ++ nodes) (level doc).
Proof.
  induction nodes as [|n nodes IH]; intros doc; cbn [fold_left].
  - rewrite app_nil_r. now destruct doc.
  - rewrite IH. unfold push_child.
    cbn [type text attributes children level].
    now rewrite <- app_assoc.
Qed.

Lemma parse_blocks_document (bs : list block) :
  forall pre doc fuel,
    forallb simple bs = true ->
    2 * List.length bs <= fuel ->
    parse_blocks fuel (pre ++ document_lines bs) (List.length pre) doc
    = fold_left push_child (map node_of bs) doc.
Proof.
  induction bs as [|b bs IH]; intros pre doc fuel Hbs Hfuel.
  - cbn [document_lines flat_map map fold_left]. rewrite app_nil_r.
    destruct fuel; cbn [parse_blocks]; [reflexivity|].
    now rewrite Nat.ltb_irrefl.
  - cbn [forallb] in Hbs. apply andb_prop in Hbs. destruct Hbs as [Hb Hbs].
    cbn [List.length] in Hfuel.
    destruct fuel as [|[|fuel]]; [lia|lia|].
    set (lines := (pre ++ document_lines (b :: bs))%list).
    assert (Hlines : lines
                     = (pre ++ line_of b :: "" :: document_lines bs)%list)
      by reflexivity.
    assert (H0 : nth_error lines (List.length pre) = Some (line_of b)).
    { rewrite Hlines, nth_error_app2, Nat.sub_diag by lia. reflexivity. }
    assert (H1 : nth_error lines (List.length pre + 1) = Some "").
    { rewrite Hlines, nth_error_app2 by lia.
      replace (List.length pre + 1 - List.length pre) with 1 by lia.
      reflexivity. }
    assert (Hlen : List.length lines
                   = List.length pre + 2 + List.length (document_lines bs)).
    { rewrite Hlines, length_app. cbn [List.length]. lia. }
    cbn [parse_blocks].
    destruct (Nat.ltb_spec (List.length pre) (List.length lines)); [|lia].
    rewrite (parse_block_simple b lines (List.length pre) doc Hb H0 H1).
    destruct (Nat.ltb_spec (List.length pre + 1) (List.length lines)); [|lia].
    unfold parse_block at 1. rewrite H1. cbn [String.eqb].
    replace (List.length pre + 1 + 1)
      with (List.length (pre ++ [line_of b; ""])%list)
      by (rewrite length_app; cbn [List.length]; lia).
    replace lines with ((pre ++ [line_of b; ""]) ++ document_lines bs)%list
      by (rewrite Hlines, <- app_assoc; reflexivity).
    rewrite IH by (auto; lia). reflexivity.
Qed.

Lemma length_document_lines (bs : list block) :
  List.length (document_lines bs) = 2 * List.length bs.
Proof.
  induction bs as [|b bs IH]; [reflexivity|].
  cbn [document_lines flat_map app List.length].
  fold (document_lines bs). rewrite IH. lia.
Qed.

Lemma deserialize_document (bs : list block) :
  forallb simple bs = true ->
  deserialize (document_text bs) = document bs.
Proof.
  intros Hbs. unfold deserialize. rewrite (getlines_document bs Hbs).
  rewrite (parse_blocks_document bs [] (Node_of Document) _ Hbs)
    by (rewrite length_document_lines; lia).
  rewrite fold_push_child. reflexivity.
Qed.

Lemma markdown_of_block (b : block) (depth : nat) :
  simple b = true ->
  Serializer.serialize_markdown_node (node_of b) depth
  = Ok (line_of b ++ nl)
  /\ Serializer.is_block (type (node_of b)) = true.
Proof.
  destruct b as [|k text|text]; cbn [simple node_of line_of]; intros H.
  - split; reflexivity.
  - split; [|reflexivity].
    unfold Node_level. cbn [Serializer.serialize_markdown_node].
    destruct (Z.ltb_spec (Z.of_nat k) 0); [lia|].
    rewrite Nat2Z.id. norm_append. reflexivity.
  - split; [|reflexivity].
    cbn [Serializer.serialize_markdown_node Node_text bind].
    norm_append. reflexivity.
Qed.

Lemma markdown_document (bs : list block) :
  forallb simple bs = true ->
  Serializer.markdown (document bs) = Ok (document_text bs).
Proof.
  unfold Serializer.markdown, document.
  induction bs as [|b bs IH]; intros Hbs; [reflexivity|].
  cbn [forallb] in Hbs. apply andb_prop in Hbs. destruct Hbs as [Hb Hbs].
  specialize (IH Hbs).
  destruct (markdown_of_block b 0 Hb) as [Hs Hblock].
  cbn [map]. cbn [Serializer.serialize_markdown_node] in *.
  rewrite Hs, Hblock. cbn [bind]. rewrite IH. cbn [bind].
  unfold document_text. cbn [map join]. norm_append. reflexivity.
Qed.

(** X23: a document made of rules, headings of level 1 to 6 and
    paragraphs of one plain line is written by [Serializer::markdown] as
    one line per block with an empty line after each, and
    [Deserializer::deserialize] reads that text back as the same
    document. *)
Theorem simple_document_roundtrip (bs : list block) :
  forallb simple bs = true ->
  Serializer.markdown (document bs) = Ok (document_text bs)
  /\ deserialize (document_text bs) = document bs.
Proof.
  intros Hbs. split;
    [apply markdown_document | apply deserialize_document]; exact Hbs.
Qed.

Lemma simple_document_roundtrip_witness :
  forallb simple [Head 2 "Release notes"; Para "Nothing new."; Rule] = true
  /\ Serializer.markdown
       (document [Head 2 "Release notes"; Para "Nothing new."; Rule])
     = Ok (document_text [Head 2 "Release notes"; Para "Nothing new."; Rule])
  /\ deserialize
       (document_text [Head 2 "Release notes"; Para "Nothing new."; Rule])
     = document [Head 2 "Release notes"; Para "Nothing new."; Rule].
Proof.
  split; [reflexivity|].
  apply (simple_document_roundtrip
           [Head 2 "Release notes"; Para "Nothing new."; Rule]).
  reflexivity.
Defined.

End DocumentFacts.

(** ** A bold span *)

Module SpanFacts.
Import Cpp Regex markdown markdown.Deserializer Spec StringFacts RegexFacts
  ListFacts ParsedFacts MarkdownSpec RegexSpec BlockFacts InlineFacts
  SerializerFacts PipelineFacts RoundTrip DocumentFacts.

(** A lazy quantifier takes all of [a] when the rest of the pattern cannot
    match at any character of [a] and matches after it. *)
Lemma rep_from_lazy_run (p blocks : ascii -> bool) (min : nat)
    (max : option nat) (next : string -> nat -> option (nat * captures))
    (b : string) (r : nat * captures) :
  (forall c s pos, blocks c = true -> next (String c s) pos = None) ->
  forall a pos count,
    all_chars (fun c => p c && blocks c) a = true ->
    within max (count + length a) ->
    min <= count + length a ->
    next b (pos + length a) = Some r ->
    rep_from p min max false next (a ++ b) pos count = Some r.
Proof.
  intros Hfail. induction a as [|c a IH]; intros pos count Ha Hmax Hmin Hnext.
  - cbn [append length] in *. rewrite Nat.add_0_r in *.
    destruct (Nat.leb_spec min count) as [_|]; [|lia].
    destruct b as [|d b]; cbn [rep_from];
      (destruct (Nat.leb_spec min count) as [_|]; [|lia]);
      now rewrite Hnext.
  - cbn [all_chars] in Ha. apply andb_prop in Ha. destruct Ha as [Hc Ha].
    apply andb_prop in Hc. destruct Hc as [Hp Hb].
    cbn [append length] in *. cbn [rep_from].
    rewrite (Hfail c (a ++ b) pos Hb).
    assert (Hnone : (if Nat.leb min count then @None (nat * captures)
                     else None) = None) by (destruct (Nat.leb min count);
                                            reflexivity).
    rewrite Hnone, Hp.
    assert (Hbelow : below max count = true).
    { destruct max as [m|]; [|reflexivity]. cbn [below within] in *.
      apply Nat.ltb_lt. lia. }
    rewrite Hbelow. cbn [andb].
    fold (rep_from p min max false next).
    apply IH; [exact Ha| | |].
    + destruct max; cbn [within] in *; [lia|exact I].
    + lia.
    + rewrite <- Hnext. f_equal. lia.
Qed.

(** A pattern that begins with a single character is not found before the
    first occurrence of that character. *)
Lemma search_from_skip (s : string) (p : ascii -> bool) (re : regex)
    (b : string) :
  forall a from,
    all_chars (fun c => negb (p c)) a = true ->
    search_from s (One p :: re) (a ++ b) from
    = search_from s (One p :: re) b (from + length a).
Proof.
  induction a as [|c a IH]; intros from Ha.
  - cbn [append length]. now rewrite Nat.add_0_r.
  - cbn [all_chars] in Ha. apply andb_prop in Ha. destruct Ha as [Hc Ha].
    apply negb_true_iff in Hc.
    cbn [append length search_from run]. rewrite Hc.
    rewrite (IH (S from) Ha). f_equal. lia.
Qed.

Lemma substring_middle (a t b : string) :
  substring (length a) (length t) (a ++ t ++ b) = t.
Proof.
  induction a as [|c a IH]; cbn [append length substring].
  - apply substring_prefix.
  - exact IH.
Qed.

Lemma substr_from_0 (s : string) : substr_from s 0 = s.
Proof. unfold substr_from. rewrite Nat.sub_0_r. apply substring_0_length. Qed.

(** The bold pattern in a text whose first two asterisks open a span that
    the last two close. *)
Lemma bold_search (a t : string) :
  all_chars (fun c => negb (Ascii.eqb c "*")) a = true ->
  all_chars (fun c => dot c && negb (Ascii.eqb c "*")) t = true ->
  exists m,
    regex_search (a ++ "**" ++ t ++ "**") bold_regex = Some m
    /\ prefix_length m = length a
    /\ match_length m = length t + 4
    /\ sub m 1 = t.
Proof.
  intros Ha Ht. unfold regex_search, bold_regex.
  rewrite (search_from_skip _ (chr "*") _ ("**" ++ t ++ "**") a 0 Ha).
  cbn [Nat.add].
  set (text := a ++ "**" ++ t ++ "**").
  set (caps := mkCaptures [(1, S (S (length a)))]
                 [(1, S (S (length a)) + length t)]).
  assert (R : run [One (chr "*"); One (chr "*"); GroupOpen 1; lazy_star dot;
                   GroupClose 1; One (chr "*"); One (chr "*")]
                false (String "*" (String "*" (t ++ "**"))) (length a)
                no_captures
              = Some (S (S (S (S (length a)) + length t)), caps)).
  { unfold lazy_star.
    change (run (One (chr "*") :: One (chr "*") :: ?re) false
              (String "*" (String "*" ?s)) ?pos ?c)
      with (run re false s (S (S pos)) c).
    rewrite run_GroupOpen, run_Rep.
    apply (rep_from_lazy_run dot (fun c => negb (Ascii.eqb c "*"))).
    - intros c s pos Hc. cbn [run]. unfold chr.
      apply negb_true_iff in Hc. now rewrite Hc.
    - exact Ht.
    - exact I.
    - lia.
    - reflexivity. }
  change ("**" ++ t ++ "**") with (String "*" (String "*" (t ++ "**"))).
  cbn [search_from].
  rewrite R. eexists. split; [reflexivity|].
  unfold prefix_length, match_length, sub, caps.
  cbn [first last groups subject starts ends lookup Nat.eqb].
  split; [reflexivity|]. split; [lia|].
  unfold substr.
  replace (S (S (length a)) + length t - S (S (length a))) with (length t)
    by lia.
  replace (S (S (length a))) with (length (a ++ "**"))
    by (rewrite length_append; cbn [length]; lia).
  unfold text.
  replace (a ++ "**" ++ t ++ "**") with ((a ++ "**") ++ t ++ "**")
    by (norm_append; reflexivity).
  apply substring_middle.
Qed.

(** X28: in a text that ends with a bold span and has no asterisk before
    it, the inline tokenizer gives the part before the span as one [Text]
    child, if there is one, and the span as a [Bold] child.  Code spans
    and links in the part before the span stay plain text: the bold
    pattern is searched first, over all that is left. *)
Theorem parse_inline_bold (a t : string) (parent : Node) :
  all_chars (fun c => negb (Ascii.eqb c "*")) a = true ->
  all_chars (fun c => dot c && negb (Ascii.eqb c "*")) t = true ->
  parse_inline (a ++ "**" ++ t ++ "**") parent
  = push_child
      (if a =? "" then parent else push_child parent (Node_text Text a))
      (Node_text Bold t).
Proof.
  intros Ha Ht.
  destruct (bold_search a t Ha Ht) as (m & Hm & Hpre & Hlen & Hsub).
  set (text := a ++ "**" ++ t ++ "**") in *.
  assert (Hlength : length text = length a + (length t + 4)).
  { unfold text. rewrite !length_append. cbn [length]. lia. }
  assert (Hne : (text =? "") = false).
  { apply String.eqb_neq. intros E. rewrite E in Hlength.
    cbn [length] in Hlength. lia. }
  unfold parse_inline. rewrite Hne.
  destruct (length text) as [|fuel] eqn:Efuel; [lia|].
  cbn [parse_inline_loop]. rewrite Efuel.
  change (Nat.ltb 0 (S fuel)) with true. cbn iota.
  rewrite substr_from_0, Hm, Hpre, Hlen, Hsub. cbn [Nat.add].
  assert (Hflush : flush_before text 0 (length a) parent
                   = if a =? "" then parent
                     else push_child parent (Node_text Text a)).
  { unfold flush_before.
    destruct (String.eqb_spec a "") as [->|Hane]; [reflexivity|].
    assert (0 < length a) by (destruct a; [congruence | cbn [length]; lia]).
    destruct (Nat.ltb_spec 0 (length a)); [|lia].
    unfold substr. rewrite Nat.sub_0_r. unfold text.
    rewrite substring_prefix.
    apply String.eqb_neq in Hane. now rewrite Hane. }
  rewrite Hflush.
  assert (Hdone : forall f node,
            parse_inline_loop f text (length a + (length t + 4)) node = node).
  { intros [|f] node; cbn [parse_inline_loop]; [reflexivity|].
    rewrite Efuel, <- Hlength. now rewrite Nat.ltb_irrefl. }
  rewrite Hdone.
  unfold push_child at 1. cbn [children].
  destruct (children _ ++ [Node_text Bold t])%list eqn:E; [|reflexivity].
  apply app_eq_nil in E. destruct E as [_ E]. discriminate.
Qed.

Lemma parse_inline_bold_witness :
  all_chars (fun c => negb (Ascii.eqb c "*")) "see `x` and " = true
  /\ all_chars (fun c => dot c && negb (Ascii.eqb c "*")) "this" = true
  /\ parse_inline ("see `x` and " ++ "**" ++ "this" ++ "**")
       (Node_of Paragraph)
     = mkNode Paragraph "" []
         [Node_text Text "see `x` and "; Node_text Bold "this"] 0.
Proof.
  assert (H1 : all_chars (fun c => negb (Ascii.eqb c "*")) "see `x` and "
               = true) by reflexivity.
  assert (H2 : all_chars (fun c => dot c && negb (Ascii.eqb c "*")) "this"
               = true) by reflexivity.
  split; [exact H1|]. split; [exact H2|].
  rewrite (parse_inline_bold "see `x` and " "this" (Node_of Paragraph) H1 H2).
  reflexivity.
Defined.

End SpanFacts.

(** ** The rows and cells of a table *)

Module TableFacts.
Import Cpp Regex markdown markdown.Deserializer Spec StringFacts RegexFacts
  ListFacts ParsedFacts MarkdownSpec RegexSpec BlockFacts InlineFacts
  SerializerFacts PipelineFacts RoundTrip DocumentFacts SpanFacts TableSpec.

(** A line has no bar, or it is some text without a bar, a bar, more text
    without a bar, and then nothing or a bar and the rest. *)
Lemma first_bar (s : string) :
  no_bar s = true
  \/ exists a p r,
       s = a ++ "|" ++ p ++ r /\ no_bar a = true /\ no_bar p = true
       /\ match r with
          | EmptyString => True
          | String c _ => c = "|"%char
          end.
Proof.
  assert (Piece : forall t, exists p r,
            t = p ++ r /\ no_bar p = true
            /\ match r with
               | EmptyString => True
               | String c _ => c = "|"%char
               end).
  { induction t as [|c t IH].
    - exists "", "". repeat split.
    - destruct (Ascii.eqb_spec c "|") as [->|Hc].
      + exists "", (String "|" t). repeat split.
      + destruct IH as (p & r & -> & Hp & Hr).
        exists (String c p), r. split; [reflexivity|]. split; [|exact Hr].
        unfold no_bar in *. cbn [all_chars]. rewrite Hp.
        apply Ascii.eqb_neq in Hc. now rewrite Hc. }
  induction s as [|c s IH]; [left; reflexivity|].
  destruct (Ascii.eqb_spec c "|") as [->|Hc].
  - right. destruct (Piece s) as (p & r & -> & Hp & Hr).
    exists "", p, r. repeat split; assumption.
  - destruct IH as [Hs|(a & p & r & -> & Ha & Hp & Hr)].
    + left. unfold no_bar in *. cbn [all_chars]. rewrite Hs.
      apply Ascii.eqb_neq in Hc. now rewrite Hc.
    + right. exists (String c a), p, r. split; [reflexivity|].
      split; [|split; assumption].
      unfold no_bar in *. cbn [all_chars]. rewrite Ha.
      apply Ascii.eqb_neq in Hc. now rewrite Hc.
Qed.

Lemma bar_pieces_text (p : string) :
  forall q rest,
    no_bar p = true ->
    bar_pieces (p ++ rest) (Some q) = bar_pieces rest (Some (q ++ p)).
Proof.
  induction p as [|c p IH]; intros q rest Hp.
  - cbn [append]. now rewrite append_nil_r.
  - unfold no_bar in Hp. cbn [all_chars] in Hp. apply andb_prop in Hp.
    destruct Hp as [Hc Hp]. apply negb_true_iff in Hc.
    cbn [append bar_pieces]. rewrite Hc. cbn [option_map].
    rewrite (IH _ _ Hp). rewrite append_assoc. reflexivity.
Qed.

Lemma bar_pieces_before (a : string) :
  forall rest, no_bar a = true ->
  bar_pieces (a ++ rest) None = bar_pieces rest None.
Proof.
  induction a as [|c a IH]; intros rest Ha; [reflexivity|].
  unfold no_bar in Ha. cbn [all_chars] in Ha. apply andb_prop in Ha.
  destruct Ha as [Hc Ha]. apply negb_true_iff in Hc.
  cbn [append bar_pieces]. rewrite Hc. cbn [option_map]. exact (IH _ Ha).
Qed.

Lemma bar_pieces_none (s : string) :
  no_bar s = true -> bar_pieces s None = [].
Proof.
  intros H. rewrite <- (append_nil_r s).
  rewrite (bar_pieces_before s "" H). reflexivity.
Qed.

Lemma bar_pieces_cons (a p r : string) :
  no_bar a = true -> no_bar p = true ->
  match r with
  | EmptyString => True
  | String c _ => c = "|"%char
  end ->
  bar_pieces (a ++ "|" ++ p ++ r) None = p :: bar_pieces r None.
Proof.
  intros Ha Hp Hr. rewrite (bar_pieces_before a _ Ha).
  cbn [append bar_pieces]. change (Ascii.eqb "|" "|") with true. cbn iota.
  rewrite (bar_pieces_text p "" r Hp). cbn [append].
  destruct r as [|c r]; [reflexivity|]. subst c.
  cbn [bar_pieces]. change (Ascii.eqb "|" "|") with true. reflexivity.
Qed.


Lemma no_bar_none_of (s : string) :
  no_bar s = true -> all_chars (none_of "|") s = true.
Proof.
  unfold no_bar. induction s as [|c s IH]; cbn [all_chars]; [reflexivity|].
  intros H. apply andb_prop in H. destruct H as [Hc Hs].
  rewrite (IH Hs). unfold none_of. cbn [mem_char].
  rewrite orb_false_r, Hc. reflexivity.
Qed.

(** One match of the cell pattern at a bar: the bar and the text up to
    the next bar or the end. *)
Lemma cell_run (p r : string) (pos : nat) :
  no_bar p = true ->
  match r with
  | EmptyString => True
  | String c _ => c = "|"%char
  end ->
  run cell_regex false (String "|" (p ++ r)) pos no_captures
  = Some (S pos + length p,
          mkCaptures [(1, S pos)] [(1, S pos + length p)]).
Proof.
  intros Hp Hr. unfold cell_regex, star.
  change (run (One (chr "|") :: ?re) false (String "|" ?s) ?q ?c)
    with (run re false s (S q) c).
  rewrite run_GroupOpen, run_Rep.
  apply rep_from_greedy_run.
  - destruct r as [|c r]; [exact I|]. subst c. reflexivity.
  - apply no_bar_none_of, Hp.
  - exact I.
  - lia.
  - reflexivity.
Qed.

Lemma substr_from_append (pre rest : string) :
  substr_from (pre ++ rest) (length pre) = rest.
Proof.
  unfold substr_from. rewrite length_append.
  replace (length pre + length rest - length pre) with (length rest) by lia.
  pose proof (substring_middle pre rest "") as H.
  now rewrite append_nil_r in H.
Qed.

(** The iterator over the cell pattern gives one match for every bar, and
    the first group of each is the text that follows the bar. *)
Lemma iterate_cells (fuel : nat) :
  forall pre rest,
    length rest < fuel ->
    map (fun m => sub m 1)
      (iterate fuel (pre ++ rest) cell_regex (length pre))
    = bar_pieces rest None.
Proof.
  induction fuel as [|fuel IH]; intros pre rest Hfuel; [lia|].
  cbn [iterate]. rewrite substr_from_append.
  destruct (first_bar rest) as [Hnone|(a & p & r & -> & Ha & Hp & Hr)].
  - unfold cell_regex.
    rewrite (search_from_first_absent _ (chr "|") _ rest (length pre) Hnone).
    now rewrite (bar_pieces_none rest Hnone).
  - rewrite (bar_pieces_cons a p r Ha Hp Hr). unfold cell_regex at 1.
    rewrite (search_from_skip _ (chr "|") _ ("|" ++ p ++ r) a _ Ha).
    fold cell_regex.
    change ("|" ++ p ++ r) with (String "|" (p ++ r)).
    cbn [search_from]. rewrite (cell_run p r _ Hp Hr).
    cbn [last].
    destruct (Nat.ltb_spec (length pre) (S (length pre + length a) + length p))
      as [_|Hle]; [|lia].
    cbn [map]. f_equal.
    + unfold sub. cbn [groups starts ends lookup Nat.eqb subject].
      unfold substr.
      replace (S (length pre + length a) + length p
               - S (length pre + length a)) with (length p) by lia.
      replace (S (length pre + length a)) with (length (pre ++ a ++ "|"))
        by (rewrite !length_append; cbn [length]; lia).
      replace (pre ++ a ++ String "|" (p ++ r))
        with ((pre ++ a ++ "|") ++ p ++ r)
        by (rewrite !append_assoc; reflexivity).
      apply substring_middle.
    + replace (S (length pre + length a) + length p)
        with (length (pre ++ a ++ "|" ++ p))
        by (rewrite !length_append; cbn [length]; lia).
      replace (pre ++ a ++ String "|" (p ++ r))
        with ((pre ++ a ++ "|" ++ p) ++ r)
        by (rewrite !append_assoc; reflexivity).
      apply IH. rewrite !length_append in Hfuel. cbn [length] in Hfuel.
      lia.
Qed.

Lemma sregex_iterator_cells (line : string) :
  map (fun m => sub m 1) (sregex_iterator line cell_regex)
  = bar_pieces line None.
Proof.
  unfold sregex_iterator.
  exact (iterate_cells (S (length line)) "" line (Nat.lt_succ_diag_r _)).
Qed.

Lemma fold_parse_cell (ms : list smatch) :
  forall row_node,
    fold_left (parse_cell false) ms row_node
    = mkNode (type row_node) (text row_node) (attributes row_node)
        (children row_node ++ map (fun m => cell_of (sub m 1)) ms)
        (level row_node).
Proof.
  induction ms as [|m ms IH]; intros row_node; cbn [fold_left map].
  - rewrite app_nil_r. now destruct row_node.
  - rewrite IH. unfold parse_cell. rewrite orb_true_r.
    cbn [push_child type text attributes children level].
    now rewrite <- app_assoc.
Qed.

(** The row of a table line has the cells of [row_cells]. *)
Lemma parse_row_cells (line : string) :
  parse_row line = mkNode TableRow "" [] (row_cells line) 0.
Proof.
  unfold parse_row, row_cells. rewrite <- sregex_iterator_cells.
  destruct (sregex_iterator line cell_regex) as [|m ms]; [reflexivity|].
  cbn [map]. rewrite fold_parse_cell. unfold parse_cell.
  rewrite orb_false_r. rewrite map_map.
  destruct (trim_cell (sub m 1) =? ""); reflexivity.
Qed.

Lemma table_rows_rows_of (run : list string) :
  table_rows run = rows_of run.
Proof.
  unfold table_rows, rows_of.
  induction run as [|l run IH]; [reflexivity|].
  cbn [filter map].
  destruct (matches l table_separator_regex); cbn [negb andb]; [exact IH|].
  cbn [map filter]. rewrite parse_row_cells.
  cbn [children]. destruct (row_cells l) as [|cell cells] eqn:Hcells.
  - cbn [List.length Nat.eqb negb]. exact IH.
  - cbn [List.length Nat.eqb negb map]. unfold row_of at 1.
    rewrite Hcells, IH. reflexivity.
Qed.

(** X17: the table rule: the table takes the line at the cursor and every
    following line that contains a bar.  A separator line gives nothing.
    Any other line gives one row, unless the row has no cell.  The row has
    one cell for every bar of the line, made by the inline tokenizer from
    the text between that bar and the next one or the end of the line,
    without the spaces and tabs around it; only the cell of the first bar
    is left out when that text is empty, so a line written with a closing
    bar ends with an empty cell, and what stands before the first bar is
    in no cell. *)
Theorem table_rule (lines : list string) (pos : nat) (parent : Node)
    (line : string) :
  nth_error lines pos = Some line ->
  reaches_table_rule line = true ->
  let run :=
    take_until (fun l => negb (contains_char "|" l)) (skipn pos lines) in
  parse_block lines pos parent =
    (pos + List.length run,
     push_child parent (mkNode Table "" [] (rows_of run) 0))
  /\ rows_of run = table_rows run
  /\ Forall (fun row => children row <> []) (rows_of run)
  /\ (forall l, parse_row l = row_of l).
Proof.
  intros Hnth Hrule run. split; [|split; [|split]].
  - rewrite <- table_rows_rows_of.
    unfold reaches_table_rule, reaches_fence_rule in Hrule.
    repeat (apply andb_prop in Hrule; destruct Hrule as [Hrule ?]).
    repeat
      match goal with
      | H : negb _ = true |- _ => apply negb_true_iff in H
      | H : is_none ?o = true |- _ =>
          destruct o eqn:?; [discriminate H|clear H]
      end.
    unfold parse_block. rewrite Hnth.
    repeat match goal with H : _ = _ |- _ => rewrite H end.
    rewrite parse_table_rows_run by lia. reflexivity.
  - symmetry. apply table_rows_rows_of.
  - apply Forall_forall. intros row Hin. unfold rows_of in Hin.
    apply in_map_iff in Hin. destruct Hin as (l & <- & Hin).
    apply filter_In in Hin. destruct Hin as [_ Hrow].
    apply andb_prop in Hrow. destruct Hrow as [_ Hrow].
    unfold row_of. cbn [children].
    destruct (row_cells l); [discriminate Hrow | discriminate].
  - exact parse_row_cells.
Qed.

Lemma table_rule_witness :
  nth_error ["x||"; "| |a| |"; "|-|-|"; "|1|2|"; "end"] 0 = Some "x||"
  /\ reaches_table_rule "x||" = true
  /\ parse_block ["x||"; "| |a| |"; "|-|-|"; "|1|2|"; "end"] 0
       (Node_of Document)
     = (4,
        push_child (Node_of Document)
          (mkNode Table "" []
             [mkNode TableRow "" [] [Node_of TableCell] 0;
              mkNode TableRow "" []
                [mkNode TableCell "" [] [Node_text Text "a"] 0;
                 Node_of TableCell; Node_of TableCell] 0;
              mkNode TableRow "" []
                [mkNode TableCell "" [] [Node_text Text "1"] 0;
                 mkNode TableCell "" [] [Node_text Text "2"] 0;
                 Node_of TableCell] 0] 0)).
Proof.
  assert (Hnth : nth_error ["x||"; "| |a| |"; "|-|-|"; "|1|2|"; "end"] 0
                 = Some "x||") by reflexivity.
  assert (Hrule : reaches_table_rule "x||" = true)
    by (vm_compute; reflexivity).
  split; [exact Hnth|]. split; [exact Hrule|].
  rewrite (proj1 (table_rule _ 0 (Node_of Document) _ Hnth Hrule)).
  vm_compute. reflexivity.
Defined.

End TableFacts.

(** ** Trimming and the front matter *)

Module TrimFacts.
Import Cpp html html.Deserializer Spec StringFacts ParserSpec RoundTrip.

Lemma find_first_not_of_get (set : string) (s : string) :
  forall i, find_first_not_of s set = Some i ->
  exists c, get i s = Some c /\ mem_char c set = false.
Proof.
  induction s as [|a s IH]; intros i H; cbn [find_first_not_of] in H;
    [discriminate|].
  destruct (mem_char a set) eqn:Ha.
  - destruct (find_first_not_of s set) as [j|]; [|discriminate].
    injection H as <-. destruct (IH j eq_refl) as (c & G & M).
    exists c. split; [exact G | exact M].
  - injection H as <-. exists a. split; [reflexivity | exact Ha].
Qed.

Lemma find_first_not_of_least (set : string) (s : string) :
  forall i j c,
    find_first_not_of s set = Some i ->
    get j s = Some c -> mem_char c set = false -> i <= j.
Proof.
  induction s as [|a s IH]; intros i j c H G M; [discriminate|].
  cbn [find_first_not_of] in H. destruct (mem_char a set) eqn:Ha.
  - destruct (find_first_not_of s set) as [k|] eqn:E; [|discriminate].
    injection H as <-. destruct j as [|j].
    + cbn [get] in G. injection G as ->. congruence.
    + cbn [get] in G. specialize (IH k j c eq_refl G M). lia.
  - injection H as <-. lia.
Qed.

Lemma find_last_not_of_get (set : string) (s : string) :
  forall e, find_last_not_of s set = Some e ->
  exists c, get e s = Some c /\ mem_char c set = false.
Proof.
  induction s as [|a s IH]; intros e H; cbn [find_last_not_of] in H;
    [discriminate|].
  destruct (find_last_not_of s set) as [j|].
  - injection H as <-. destruct (IH j eq_refl) as (c & G & M).
    exists c. split; [exact G | exact M].
  - destruct (mem_char a set) eqn:Ha; [discriminate|].
    injection H as <-. exists a. split; [reflexivity | exact Ha].
Qed.

Lemma find_last_not_of_some (set : string) (s : string) :
  forall i, find_first_not_of s set = Some i ->
  find_last_not_of s set <> None.
Proof.
  induction s as [|a s IH]; intros i H; [discriminate|].
  cbn [find_first_not_of find_last_not_of] in *.
  destruct (mem_char a set) eqn:Ha.
  - destruct (find_first_not_of s set) as [j|]; [|discriminate].
    specialize (IH j eq_refl).
    destruct (find_last_not_of s set); [discriminate | congruence].
  - destruct (find_last_not_of s set); discriminate.
Qed.

Lemma substring_first (s : string) :
  forall i n c, get i s = Some c ->
  exists rest, substring i (S n) s = String c rest.
Proof.
  induction s as [|a s IH]; intros i n c G; [destruct i; discriminate|].
  destruct i as [|i]; cbn [get substring] in *.
  - injection G as ->. eexists. reflexivity.
  - exact (IH i n c G).
Qed.

Lemma substring_last (s : string) :
  forall i n c, get (i + n) s = Some c ->
  last_char (substring i (S n) s) = Some c.
Proof.
  induction s as [|a s IH]; intros i n c G; [destruct (i + n); discriminate|].
  destruct i as [|i].
  - cbn [Nat.add] in G. destruct n as [|n]; cbn [get] in G.
    + injection G as ->. cbn [substring]. now rewrite substring_0_0.
    + specialize (IH 0 n c G).
      change (substring 0 (S (S n)) (String a s))
        with (String a (substring 0 (S n) s)).
      destruct (substring 0 (S n) s) as [|b t]; [discriminate|].
      exact IH.
  - cbn [Nat.add get] in G. cbn [substring]. exact (IH i n c G).
Qed.

Lemma trim_is_trimmed (s : string) : no_outer_space (trim s) = true.
Proof.
  unfold trim.
  destruct (find_first_not_of s trim_chars) as [i|] eqn:F; [|reflexivity].
  destruct (find_last_not_of s trim_chars) as [e|] eqn:L; [|reflexivity].
  destruct (find_first_not_of_get _ _ _ F) as (c & Gc & Mc).
  destruct (find_last_not_of_get _ _ _ L) as (d & Gd & Md).
  pose proof (find_first_not_of_least _ _ _ _ _ F Gd Md) as Hle.
  unfold substr. replace (e - i + 1) with (S (e - i)) by lia.
  destruct (substring_first s i (e - i) c Gc) as (rest & E).
  assert (Hl : last_char (substring i (S (e - i)) s) = Some d).
  { apply substring_last. replace (i + (e - i)) with e by lia. exact Gd. }
  rewrite E in *. unfold no_outer_space, is_trim_char.
  rewrite Mc, Hl, Md. reflexivity.
Qed.

Lemma find_first_not_of_ext (set1 set2 : string) (s : string) :
  (forall c, mem_char c set1 = mem_char c set2) ->
  find_first_not_of s set1 = find_first_not_of s set2.
Proof.
  intros H. induction s as [|a s IH]; [reflexivity|].
  cbn [find_first_not_of]. now rewrite H, IH.
Qed.

Lemma find_last_not_of_ext (set1 set2 : string) (s : string) :
  (forall c, mem_char c set1 = mem_char c set2) ->
  find_last_not_of s set1 = find_last_not_of s set2.
Proof.
  intros H. induction s as [|a s IH]; [reflexivity|].
  cbn [find_last_not_of]. now rewrite H, IH.
Qed.

Lemma trim_sets_agree (c : ascii) :
  mem_char c utils.StringUtils.trim_set = mem_char c trim_chars.
Proof.
  unfold utils.StringUtils.trim_set, trim_chars, str. cbn [mem_char].
  destruct (Ascii.eqb c " "), (Ascii.eqb c tab), (Ascii.eqb c cr),
    (Ascii.eqb c lf); reflexivity.
Qed.

Lemma utils_trim_agrees (s : string) : utils.StringUtils.trim s = trim s.
Proof.
  unfold utils.StringUtils.trim, trim.
  rewrite (find_first_not_of_ext _ _ s trim_sets_agree).
  rewrite (find_last_not_of_ext _ _ s trim_sets_agree).
  destruct (find_first_not_of s trim_chars) as [i|] eqn:F; [|reflexivity].
  destruct (find_last_not_of s trim_chars) as [e|] eqn:L; [reflexivity|].
  exfalso. exact (find_last_not_of_some _ _ _ F L).
Qed.

(** X26: the trimming of the parser's last text chunk gives a text that
    neither begins nor ends with a space, a tab, a newline or a carriage
    return; trimming again changes nothing; and [StringUtils::trim]
    computes the same function. *)
Theorem trim_result (s : string) :
  no_outer_space (trim s) = true
  /\ trim (trim s) = trim s
  /\ utils.StringUtils.trim s = trim s.
Proof.
  split; [apply trim_is_trimmed|]. split.
  - apply trim_no_outer_space. apply trim_is_trimmed.
  - apply utils_trim_agrees.
Qed.

End TrimFacts.

Module FrontmatterFacts.
Import Cpp Spec StringFacts ParserSpec RoundTrip TrimFacts utils
  utils.FrontmatterParser UtilsSpec.

Lemma length_substring (s : string) :
  forall m n, length (substring m n s) = Nat.min n (length s - m).
Proof.
  induction s as [|a s IH]; intros m n.
  - destruct m, n; reflexivity.
  - destruct m as [|m].
    + destruct n as [|n]; [reflexivity|].
      cbn [substring length Nat.sub Nat.min]. now rewrite IH, Nat.sub_0_r.
    + cbn [substring length Nat.sub]. apply IH.
Qed.

Lemma find_from_bound (s pat : string) (pos e : nat) :
  pat <> "" -> find_from s pat pos = Some e -> e + length pat <= length s.
Proof.
  intros Hpat H. unfold find_from in H.
  apply index_correct1 in H. apply (f_equal length) in H.
  rewrite length_substring in H.
  destruct pat as [|c pat]; [congruence|]. cbn [length] in *. lia.
Qed.

Lemma contains_char_substring (c : ascii) (s : string) :
  forall m n,
    contains_char c (substring m n s) = true -> contains_char c s = true.
Proof.
  induction s as [|a s IH]; intros m n H.
  - destruct m, n; discriminate.
  - destruct m as [|m].
    + destruct n as [|n]; [discriminate|].
      cbn [substring contains_char] in *.
      apply orb_true_iff in H. apply orb_true_iff.
      destruct H as [H|H]; [now left | right; eauto].
    + cbn [substring] in H. cbn [contains_char].
      apply orb_true_iff. right. eauto.
Qed.

Lemma contains_char_trim (c : ascii) (s : string) :
  contains_char c s = false ->
  contains_char c (StringUtils.trim s) = false.
Proof.
  intros H. rewrite utils_trim_agrees. unfold html.Deserializer.trim.
  destruct (find_first_not_of s _); [|reflexivity].
  destruct (find_last_not_of s _); [|reflexivity].
  unfold substr.
  destruct (contains_char c (substring n (n0 - n + 1) s)) eqn:E;
    [|reflexivity].
  apply contains_char_substring in E. congruence.
Qed.

(** No colon before the first colon. *)
Lemma find_colon_before (line : string) :
  forall n, Cpp.find line ":" = Some n ->
  contains_char ":" (substring 0 n line) = false.
Proof.
  unfold Cpp.find.
  induction line as [|a s IH]; intros n H; [discriminate|].
  cbn [index prefix] in H.
  destruct (ascii_dec ":" a) as [<-|Hne].
  - destruct s; injection H as <-; reflexivity.
  - destruct (index 0 ":" s) as [k|]; [|discriminate].
    injection H as <-. cbn [substring contains_char].
    rewrite (IH k eq_refl).
    destruct (Ascii.eqb_spec a ":") as [->|_]; [congruence | reflexivity].
Qed.

Lemma insert_keys (P : string -> Prop) (k v : string) (m : StdMap.t) :
  P k -> Forall P (StdMap.keys m) ->
  Forall P (StdMap.keys (StdMap.insert k v m)).
Proof.
  intros Hk. unfold StdMap.keys.
  induction m as [|[a w] m IH]; intros Hm; cbn [StdMap.insert map fst].
  - constructor; [exact Hk | constructor].
  - cbn [map fst] in Hm. apply Forall_cons_iff in Hm. destruct Hm as [Ha Hm].
    destruct (String.compare k a); cbn [map fst].
    + constructor; assumption.
    + constructor; [exact Hk|]. constructor; assumption.
    + constructor; [exact Ha | exact (IH Hm)].
Qed.

Lemma parse_line_keys (line : string) (m : StdMap.t) :
  Forall metadata_key (StdMap.keys m) ->
  Forall metadata_key (StdMap.keys (parse_line line m)).
Proof.
  intros Hm. unfold parse_line.
  destruct (Cpp.find line ":") as [n|] eqn:F; [|exact Hm].
  apply insert_keys; [|exact Hm].
  unfold metadata_key. split.
  - rewrite utils_trim_agrees. apply trim_is_trimmed.
  - apply contains_char_trim. unfold substr. now apply find_colon_before.
Qed.

(** X27: for every input, [FrontmatterParser::parse] leaves the start of
    the content inside the input; the content is the input as it is or a
    trimmed text; and every key of the metadata is trimmed and has no
    colon in it. *)
Theorem frontmatter_parse_result (input : string) :
  content_start_pos (parse input) <= length input
  /\ (content (parse input) = input
      \/ no_outer_space (content (parse input)) = true)
  /\ Forall metadata_key (StdMap.keys (metadata (parse input))).
Proof.
  unfold parse.
  destruct (starts_with input "---"); cbn [negb];
    [|cbn; repeat split; [lia | now left | constructor]].
  assert (Hfound : forall e,
    match find_from input (nl ++ "---" ++ nl) 4 with
    | Some e => Some e
    | None => find_from input (nl ++ "---") 4
    end = Some e -> e + 4 <= length input).
  { intros e H.
    destruct (find_from input (nl ++ "---" ++ nl) 4) as [e1|] eqn:F1.
    - injection H as <-. apply find_from_bound in F1; [|discriminate].
      cbn [length nl str append] in F1. lia.
    - apply find_from_bound in H; [|discriminate].
      cbn [length nl str append] in H. lia. }
  destruct (match find_from input (nl ++ "---" ++ nl) 4 with
            | Some e => Some e
            | None => find_from input (nl ++ "---") 4
            end) as [end_pos|];
    [|cbn; repeat split; [lia | now left | constructor]].
  specialize (Hfound end_pos eq_refl).
  cbn [content_start_pos content metadata]. split; [exact Hfound|]. split.
  - right. destruct (Nat.ltb (end_pos + 4) (length input)); [|reflexivity].
    rewrite utils_trim_agrees. apply trim_is_trimmed.
  - generalize (StringUtils.split (substr input 4 (end_pos - 4)) lf).
    intros lines.
    assert (G : forall m, Forall metadata_key (StdMap.keys m) ->
      Forall metadata_key
        (StdMap.keys
           (fold_left
              (fun m line =>
                 if negb (line =? "") && contains_char ":" line
                 then parse_line line m else m) lines m))).
    { induction lines as [|l lines IH]; intros m Hm; cbn [fold_left];
        [exact Hm|].
      apply IH. destruct (negb (l =? "") && contains_char ":" l);
        [now apply parse_line_keys | exact Hm]. }
    apply G. constructor.
Qed.

End FrontmatterFacts.
